(** * Series keys: encoding, decoding and comparison

    A shallow embedding of [tsdb/series/series_file.go]: the binary
    series-key codec of the storage engine.  A key is built from a
    measurement name and an ordered tag set; it holds a table of 16-bit
    big-endian lengths followed by the concatenated bytes.

    Go values are modelled as follows.
    - [int] is [Z].  Every [int] of this file is a length, a position or a
      sum of lengths of slices that are held in memory, hence far below
      [2^63]; the 64-bit wrap-around of [int] is therefore not written out.
      The conversions to [uint16] and to [byte], which do lose bits, are.
    - A byte slice that the code writes to, or hands out as a view of a
      shared buffer, is a [slice]: a window (pointer, offset, length,
      capacity) on a backing array kept in a [heap].  [nil] is [None].
    - The name and the tags given to the encoder are byte slices as well.
      [AppendSeriesKey_slices] takes them as slices of the heap, which may
      share memory with the destination; [AppendSeriesKey] takes the bytes
      they hold, and is the same function whenever no argument has a byte
      in the range that is written ([AppendSeriesKey_slices_by_value]): on
      a nil destination, on one that has to grow, and on arguments that
      stay clear of the bytes appended in place.  The name and tags that
      the decoder returns are modelled by the bytes they hold (in Go these
      are views of the decoded buffer).
    - A run-time panic (index or slice bounds out of range) is [Panic]. *)

From Stdlib Require Import ZArith Lia List.
From Stdlib Require Init.Byte Strings.Byte.
From stdpp Require Import base list.

Local Open Scope Z_scope.

(** ** Bytes and fixed-width conversions *)

Abbreviation byte := Init.Byte.byte.

Definition byte_to_Z (b : byte) : Z := Z.of_N (Strings.Byte.to_N b).

(** Go's [byte(v)] on an unsigned value: the low eight bits. *)
Definition byte_of_Z (z : Z) : byte :=
  default Init.Byte.x00 (Strings.Byte.of_N (Z.to_N (z mod 256))).

(** Go's [uint16(v)] on an [int]: the low sixteen bits. *)
Definition uint16 (z : Z) : Z := z mod 65536.

(** [len] of a byte string held by value. *)
Definition blen (l : list byte) : Z := Z.of_nat (length l).

(** ** Results and the heap monad *)

Inductive result (A : Type) : Type :=
| Ok (a : A)
| Panic.
Arguments Ok {A} a.
Arguments Panic {A}.

Definition rbind {A B} (r : result A) (k : A -> result B) : result B :=
  match r with
  | Ok a => k a
  | Panic => Panic
  end.

(** Backing arrays, in allocation order; a pointer is an index. *)
Abbreviation heap := (list (list byte)).

Definition M (A : Type) : Type := heap -> result (A * heap).

Definition ret {A} (a : A) : M A := fun h => Ok (a, h).

Definition bind {A B} (m : M A) (k : A -> M B) : M B :=
  fun h => match m h with
           | Ok (a, h') => k a h'
           | Panic => Panic
           end.

Definition lift {A} (r : result A) : M A :=
  fun h => match r with
           | Ok a => Ok (a, h)
           | Panic => Panic
           end.

(** Runs a computation that only reads the heap. *)
Definition reading {A} (f : heap -> result A) : M A :=
  fun h => lift (f h) h.

Declare Scope go_scope.
Delimit Scope go_scope with go.
Notation "x <- m ; k" := (bind m (fun x => k))
  (at level 20, m at level 100, k at level 200, only parsing) : go_scope.
Notation "'do' m ; k" := (bind m (fun _ => k))
  (at level 20, m at level 100, k at level 200, only parsing) : go_scope.
Notation "x <-? r ; k" := (rbind r (fun x => k))
  (at level 20, r at level 100, k at level 200, only parsing) : go_scope.
Local Open Scope go_scope.

(** ** Slices *)

Record slice : Type := Slice {
  s_ptr : nat;   (* the backing array *)
  s_off : Z;     (* where the window starts in it *)
  s_len : Z;
  s_cap : Z;     (* the backing array ends at s_off + s_cap *)
}.

(** A [[]byte]; [None] is [nil]. *)
Abbreviation bytes := (option slice).

Definition len (b : bytes) : Z :=
  match b with
  | Some s => s_len s
  | None => 0
  end.

Definition cap (b : bytes) : Z :=
  match b with
  | Some s => s_cap s
  | None => 0
  end.

Definition is_nil (b : bytes) : bool :=
  match b with
  | Some _ => false
  | None => true
  end.

(** The slice expression [b[lo:hi]]: the bounds are checked against the
    capacity. [b[lo:]] is [reslice b lo (len b)], [b[:hi]] is
    [reslice b 0 hi]. *)
Definition reslice (b : bytes) (lo hi : Z) : result bytes :=
  if (0 <=? lo) && (lo <=? hi) && (hi <=? cap b) then
    Ok (match b with
        | Some s => Some (Slice (s_ptr s) (s_off s + lo) (hi - lo) (s_cap s - lo))
        | None => None
        end)
  else Panic.

(** The bytes a slice shows. *)
Definition contents (h : heap) (b : bytes) : result (list byte) :=
  match b with
  | None => Ok []
  | Some s =>
      match h !! s_ptr s with
      | Some arr =>
          if (0 <=? s_off s) && (0 <=? s_len s)
             && (s_off s + s_len s <=? Z.of_nat (length arr))
          then Ok (take (Z.to_nat (s_len s)) (drop (Z.to_nat (s_off s)) arr))
          else Panic
      | None => Panic
      end
  end.

(** [b[i]] read. *)
Definition load (h : heap) (b : bytes) (i : Z) : result byte :=
  match b with
  | None => Panic
  | Some s =>
      if (0 <=? i) && (i <? s_len s) then
        match h !! s_ptr s with
        | Some arr =>
            match arr !! Z.to_nat (s_off s + i) with
            | Some x => Ok x
            | None => Panic
            end
        | None => Panic
        end
      else Panic
  end.

(** [b[i] = x]. *)
Definition store (b : bytes) (i : Z) (x : byte) : M unit :=
  fun h =>
    match b with
    | None => Panic
    | Some s =>
        if (0 <=? i) && (i <? s_len s) then
          match h !! s_ptr s with
          | Some arr =>
              if (0 <=? s_off s) && (s_off s + i <? Z.of_nat (length arr))
              then Ok (tt, <[s_ptr s := <[Z.to_nat (s_off s + i) := x]> arr]> h)
              else Panic
          | None => Panic
          end
        else Panic
    end.

(** [make([]byte, n, c)]: a fresh zeroed backing array of [c] bytes. *)
Definition make (n c : Z) : M bytes :=
  fun h =>
    if (0 <=? n) && (n <=? c) then
      Ok (Some (Slice (length h) 0 n c),
          h ++ [replicate (Z.to_nat c) Init.Byte.x00])
    else Panic.

(** Overwrites [arr] from position [pos] on with [src]. *)
Definition overwrite (arr : list byte) (pos : nat) (src : list byte) : list byte :=
  take pos arr ++ src ++ drop (pos + length src) arr.

(** [copy(d, src)] where [src] is held by value: the first
    [min(len(d), len(src))] bytes are copied; returns their number. *)
Definition copy_in (d : bytes) (src : list byte) : M Z :=
  fun h =>
    let n := Z.min (len d) (blen src) in
    match d with
    | None => Ok (n, h)
    | Some s =>
        match h !! s_ptr s with
        | Some arr =>
            if (0 <=? s_off s) && (0 <=? s_len s)
               && (s_off s + s_len s <=? Z.of_nat (length arr))
            then Ok (n, <[s_ptr s :=
                           overwrite arr (Z.to_nat (s_off s))
                                     (take (Z.to_nat n) src)]> h)
            else Panic
        | None => Panic
        end
    end.

(** [copy(d, s)] between two slices (the source is read first, as Go's
    [copy] allows overlap). *)
Definition copy (d s : bytes) : M Z :=
  src <- reading (fun h => contents h s) ;
  copy_in d src.

(** ** encoding/binary, big endian *)

(** [binary.BigEndian.PutUint16(b, v)]. *)
Definition BigEndian_PutUint16 (b : bytes) (v : Z) : M unit :=
  if 1 <? len b then      (* _ = b[1] *)
    do store b 0 (byte_of_Z (Z.shiftr v 8));
    store b 1 (byte_of_Z v)
  else fun _ => Panic.

(** [binary.BigEndian.Uint16(b)]. *)
Definition BigEndian_Uint16 (h : heap) (b : bytes) : result Z :=
  if 1 <? len b then      (* _ = b[1] *)
    b0 <-? load h b 0 ;
    b1 <-? load h b 1 ;
    Ok (Z.lor (byte_to_Z b1) (Z.shiftl (byte_to_Z b0) 8))
  else Panic.

Definition PutUint16 (b : bytes) (p : Z) (v : Z) : M unit :=
  s <- lift (reslice b p (len b)) ;
  BigEndian_PutUint16 s v.

Definition GetUint16 (h : heap) (b : bytes) (p : Z) : result Z :=
  s <-? reslice b p (len b) ;
  BigEndian_Uint16 h s.

(** [bytes.Compare(a, b)] on the bytes two slices show: lexicographic,
    bytes taken as unsigned, a proper prefix first. *)
Fixpoint bytes_Compare (a b : list byte) : Z :=
  match a, b with
  | [], [] => 0
  | [], _ :: _ => -1
  | _ :: _, [] => 1
  | x :: a', y :: b' =>
      if byte_to_Z x <? byte_to_Z y then -1
      else if byte_to_Z y <? byte_to_Z x then 1
      else bytes_Compare a' b'
  end.

(** ** Tags *)

(** Modelled from the spec: [models.Tag] and [models.Tags], declared in the
    [models] package; a tag is an ordered pair (key, value) of byte strings
    and a tag set is an ordered sequence of tags. *)
Record Tag : Type := mkTag {
  Key : list byte;
  Value : list byte;
}.

Abbreviation Tags := (list Tag).

(** ** Sizes *)

Definition SeriesKeyOffsetsSize (tagsN : Z) : Z :=
  2 +              (* name len *)
  2 * 2 * tagsN.   (* (keyN len + valN len) * tagsN *)

Definition SeriesKeyBytesSize (name : list byte) (tags : Tags) : Z :=
  fold_left (fun n tag => n + blen (Key tag) + blen (Value tag))
            tags (blen name).

Definition SeriesKeySize (name : list byte) (tags : Tags) : Z :=
  SeriesKeyOffsetsSize (Z.of_nat (length tags))
  + SeriesKeyBytesSize name tags + 4.

(** [l[i]] on a slice held by value. *)
Definition index {A} (l : list A) (i : nat) : result A :=
  match l !! i with
  | Some x => Ok x
  | None => Panic
  end.

(** The loop [for i := range names] of [SeriesKeysSize], from [i] on;
    [rest] is [names[i:]]. *)
Fixpoint SeriesKeysSize_from (rest : list (list byte)) (tagsSlice : list Tags)
    (i : nat) (n : Z) : result Z :=
  match rest with
  | [] => Ok n
  | name :: rest' =>
      tags <-? index tagsSlice i;
      SeriesKeysSize_from rest' tagsSlice (S i) (n + SeriesKeySize name tags)
  end.

Definition SeriesKeysSize (names : list (list byte)) (tagsSlice : list Tags)
    : result Z :=
  SeriesKeysSize_from names tagsSlice 0 0.

(** ** The encoder *)

(** The loop [for i := range tags] of [AppendSeriesKey]. *)
Fixpoint AppendSeriesKey_tags (out : bytes) (tags : Tags) (opos bpos : Z)
    : M unit :=
  match tags with
  | [] => ret tt
  | tag :: tags' =>
      let vlen := blen (Key tag) in
      do PutUint16 out opos (uint16 vlen);
      w <- lift (reslice out bpos (bpos + vlen));
      do copy_in w (Key tag);
      let bpos := bpos + vlen in
      let vlen := blen (Value tag) in
      do PutUint16 out (opos + 2) (uint16 vlen);
      w <- lift (reslice out bpos (bpos + vlen));
      do copy_in w (Value tag);
      let bpos := bpos + vlen in
      let opos := opos + 4 in
      AppendSeriesKey_tags out tags' opos bpos
  end.

(** The first half of [AppendSeriesKey]: makes room for [size] bytes and
    returns the grown [dst] with [out], its last [size] bytes. *)
Definition AppendSeriesKey_room (dst : bytes) (size : Z) : M (bytes * bytes) :=
  if is_nil dst then
    dst <- make size size;
    ret (dst, dst)
  else
    dst <- (if cap dst - len dst <? size then
              tmp <- make (len dst) (len dst + size);
              do copy tmp dst;
              ret tmp
            else ret dst);
    dst <- lift (reslice dst 0 (len dst + size));
    out <- lift (reslice dst (len dst - size) (len dst));
    ret (dst, out).

(** [AppendSeriesKey] on a name and tags given by the bytes they hold: the
    call on arguments that share no byte with the range written (for
    arguments in memory see [AppendSeriesKey_slices] below). *)
Definition AppendSeriesKey (dst : bytes) (name : list byte) (tags : Tags)
    : M bytes :=
  let ofssz := SeriesKeyOffsetsSize (Z.of_nat (length tags)) in
  let bytsz := SeriesKeyBytesSize name tags in
  let size := ofssz + bytsz + 4 in   (* + 4 for offset sz and bytes size *)
  r <- AppendSeriesKey_room dst size;
  let dst := fst r in
  let out := snd r in
  let opos := 0 in
  let bpos := ofssz + 2 in
  do PutUint16 out opos (uint16 ofssz);
  let opos := opos + 2 in
  do PutUint16 out opos (uint16 (blen name));
  let opos := opos + 2 in
  do PutUint16 out bpos (uint16 bytsz);
  let bpos := bpos + 2 in
  w <- lift (reslice out bpos (bpos + blen name));
  do copy_in w name;
  let bpos := bpos + blen name in
  do AppendSeriesKey_tags out tags opos bpos;
  ret dst.

(** ** The encoder on arguments in memory

    In Go the name and every tag key and value are byte slices, which may
    view the backing array of [dst].  The definitions below are
    [SeriesKeyBytesSize] and [AppendSeriesKey] with these arguments as
    slices of the heap: a length is that of the slice, and every [copy]
    reads its source when it runs, after the writes that come before it. *)

Record TagSlices : Type := mkTagSlices {
  KeySlice : bytes;
  ValueSlice : bytes;
}.

Definition SeriesKeyBytesSize_slices (name : bytes) (tags : list TagSlices)
    : Z :=
  fold_left (fun n tag => n + len (KeySlice tag) + len (ValueSlice tag))
            tags (len name).

Definition SeriesKeySize_slices (name : bytes) (tags : list TagSlices) : Z :=
  SeriesKeyOffsetsSize (Z.of_nat (length tags))
  + SeriesKeyBytesSize_slices name tags + 4.

(** The loop [for i := range tags] of [AppendSeriesKey]. *)
Fixpoint AppendSeriesKey_tags_slices (out : bytes) (tags : list TagSlices)
    (opos bpos : Z) : M unit :=
  match tags with
  | [] => ret tt
  | tag :: tags' =>
      let vlen := len (KeySlice tag) in
      do PutUint16 out opos (uint16 vlen);
      w <- lift (reslice out bpos (bpos + vlen));
      do copy w (KeySlice tag);
      let bpos := bpos + vlen in
      let vlen := len (ValueSlice tag) in
      do PutUint16 out (opos + 2) (uint16 vlen);
      w <- lift (reslice out bpos (bpos + vlen));
      do copy w (ValueSlice tag);
      let bpos := bpos + vlen in
      let opos := opos + 4 in
      AppendSeriesKey_tags_slices out tags' opos bpos
  end.

Definition AppendSeriesKey_slices (dst name : bytes) (tags : list TagSlices)
    : M bytes :=
  let ofssz := SeriesKeyOffsetsSize (Z.of_nat (length tags)) in
  let bytsz := SeriesKeyBytesSize_slices name tags in
  let size := ofssz + bytsz + 4 in   (* + 4 for offset sz and bytes size *)
  r <- AppendSeriesKey_room dst size;
  let dst := fst r in
  let out := snd r in
  let opos := 0 in
  let bpos := ofssz + 2 in
  do PutUint16 out opos (uint16 ofssz);
  let opos := opos + 2 in
  do PutUint16 out opos (uint16 (len name));
  let opos := opos + 2 in
  do PutUint16 out bpos (uint16 bytsz);
  let bpos := bpos + 2 in
  w <- lift (reslice out bpos (bpos + len name));
  do copy w name;
  let bpos := bpos + len name in
  do AppendSeriesKey_tags_slices out tags opos bpos;
  ret dst.

(** ** The decoder *)

Definition GetSeriesKeyTagN (h : heap) (data : bytes) : result Z :=
  ofsN <-? GetUint16 h data 0;
  Ok (Z.quot (ofsN - 2) 4).

(** A [models.Tags] slice that the decoder fills: its backing array and its
    length; the capacity is the length of the array. [nil] is [TagBuf [] 0]. *)
Record TagBuf : Type := mkTagBuf {
  tb_arr : list Tag;
  tb_len : Z;
}.

Definition tb_nil : TagBuf := mkTagBuf [] 0.
Definition tb_cap (t : TagBuf) : Z := Z.of_nat (length (tb_arr t)).

(** The loop [for i := 0; i < len(tags); i++] of [ParseSeriesKeyTags], with
    [n] rounds left. *)
Fixpoint ParseSeriesKeyTags_loop (h : heap) (data byts : bytes) (n : nat)
    (i : Z) (opos bpos : Z) (arr : list Tag) : result (list Tag) :=
  match n with
  | O => Ok arr
  | S n' =>
      vlen <-? GetUint16 h data opos;
      let opos := opos + 2 in
      w <-? reslice byts bpos (bpos + vlen);
      key <-? contents h w;
      let bpos := bpos + vlen in
      vlen <-? GetUint16 h data opos;
      let opos := opos + 2 in
      w <-? reslice byts bpos (bpos + vlen);
      val <-? contents h w;
      let bpos := bpos + vlen in
      ParseSeriesKeyTags_loop h data byts n' (i + 1) opos bpos
        (<[Z.to_nat i := mkTag key val]> arr)
  end.

Definition ParseSeriesKeyTags (h : heap) (data : bytes) (tags : TagBuf)
    : result (list byte * Tags) :=
  ofsN <-? GetUint16 h data 0;
  byts <-? reslice data (ofsN + 2 + 2) (len data);
  let bpos := 0 in
  let opos := 2 in
  vlen <-? GetUint16 h data opos;
  let opos := opos + 2 in
  w <-? reslice byts bpos (bpos + vlen);
  name <-? contents h w;
  let bpos := bpos + vlen in
  let tagN := Z.quot (ofsN - 2) 4 in
  tags <-? (if tb_cap tags <? tagN
            then if 0 <=? tagN
                 then Ok (mkTagBuf (replicate (Z.to_nat tagN) (mkTag [] [])) tagN)
                 else Panic
            else if 0 <=? tagN
                 then Ok (mkTagBuf (tb_arr tags) tagN)
                 else Panic);
  arr <-? ParseSeriesKeyTags_loop h data byts (Z.to_nat (tb_len tags))
            0 opos bpos (tb_arr tags);
  Ok (name, take (Z.to_nat (tb_len tags)) arr).

Definition ParseSeriesKey (h : heap) (data : bytes)
    : result (list byte * Tags) :=
  ParseSeriesKeyTags h data tb_nil.

(** ** The comparator *)

Definition CompareSeriesKeys (h : heap) (a b : bytes) : result Z :=
  (* Handle 'nil' keys. *)
  if (len a =? 0) && (len b =? 0) then Ok 0
  else if len a =? 0 then Ok (-1)
  else if len b =? 0 then Ok 1
  else
    ofsA <-? GetUint16 h a 0;
    ofsB <-? GetUint16 h b 0;
    let posA := ofsA + 2 in
    let posB := ofsB + 2 in
    keyLenA <-? GetUint16 h a posA;
    keyLenB <-? GetUint16 h b posB;
    let posA := posA + 2 in
    let posB := posB + 2 in
    sa <-? reslice a posA (posA + keyLenA);
    sb <-? reslice b posB (posB + keyLenB);
    ca <-? contents h sa;
    cb <-? contents h sb;
    Ok (bytes_Compare ca cb).

(** ** Bulk generation *)

(** The loop [for i := range names] of [GenerateSeriesKeys], from [i] on;
    [rest] is [names[i:]]. *)
Fixpoint GenerateSeriesKeys_from (rest : list (list byte))
    (tagsSlice : list Tags) (i : nat) (buf : bytes) (keys : list bytes)
    : M (list bytes) :=
  match rest with
  | [] => ret keys
  | name :: rest' =>
      let offset := len buf in
      tags <- lift (index tagsSlice i);
      buf <- AppendSeriesKey buf name tags;
      key <- lift (reslice buf offset (len buf));
      GenerateSeriesKeys_from rest' tagsSlice (S i) buf (<[i := key]> keys)
  end.

Definition GenerateSeriesKeys (names : list (list byte))
    (tagsSlice : list Tags) : M (list bytes) :=
  n <- lift (SeriesKeysSize names tagsSlice);
  buf <- make 0 n;
  let keys := replicate (length names) (None : bytes) in
  GenerateSeriesKeys_from names tagsSlice 0 buf keys.

(** ** Sorting keys

    The [seriesKeys] of the tests: a slice of keys with the three methods
    of [sort.Interface].  The slice is held by value, as the list of its
    elements; [Swap] returns the slice it leaves. *)

(** [a[i]] for an [int] index. *)
Definition at_index {A} (a : list A) (i : Z) : result A :=
  if 0 <=? i then index a (Z.to_nat i) else Panic.

Definition seriesKeys_Len (a : list bytes) : Z := Z.of_nat (length a).

(** [a[i], a[j] = a[j], a[i]]: the right-hand sides are read first, then
    [a[i]] and [a[j]] are assigned in this order. *)
Definition seriesKeys_Swap (a : list bytes) (i j : Z) : result (list bytes) :=
  aj <-? at_index a j;
  ai <-? at_index a i;
  Ok (<[Z.to_nat j := ai]> (<[Z.to_nat i := aj]> a)).

Definition seriesKeys_Less (h : heap) (a : list bytes) (i j : Z)
    : result bool :=
  ai <-? at_index a i;
  aj <-? at_index a j;
  r <-? CompareSeriesKeys h ai aj;
  Ok (r =? -1).

(** * The format and the predicates of the statements

    What follows is not code of [series_file.go]: the layout of a key as the
    specification gives it, the payload the specification says the
    comparator reads, and the predicates the theorems are stated with. *)

(** ** The layout of a key

    The format as the specification lays it out: [offsetsSize], [nameLen],
    the per-tag [(keyLen, valLen)], [payloadSize], then the payload: the
    name followed by every tag's key and value.  Every length is written as
    the 16 bits the encoder keeps of it. *)

(** The two bytes [PutUint16] writes. *)
Definition be16 (v : Z) : list byte :=
  [byte_of_Z (Z.shiftr v 8); byte_of_Z v].

Definition tag_lengths (tags : Tags) : list byte :=
  flat_map (fun t => be16 (uint16 (blen (Key t)))
                     ++ be16 (uint16 (blen (Value t)))) tags.

Definition tag_bytes (tags : Tags) : list byte :=
  flat_map (fun t => Key t ++ Value t) tags.

Definition key_payload (name : list byte) (tags : Tags) : list byte :=
  name ++ tag_bytes tags.

Definition key_layout (name : list byte) (tags : Tags) : list byte :=
  be16 (uint16 (2 + 4 * Z.of_nat (length tags)))
  ++ be16 (uint16 (blen name))
  ++ tag_lengths tags
  ++ be16 (uint16 (blen (key_payload name tags)))
  ++ key_payload name tags.

(** ** Valid slices and encodable inputs *)

(** A slice is valid in a heap when its window and its spare capacity lie
    in its backing array. *)
Definition valid (h : heap) (b : bytes) : Prop :=
  match b with
  | None => True
  | Some s =>
      exists arr, h !! s_ptr s = Some arr
                  /\ 0 <= s_off s /\ 0 <= s_len s <= s_cap s
                  /\ s_off s + s_cap s <= Z.of_nat (length arr)
  end.

(** A field that its 16-bit length describes exactly. *)
Definition fits16 (l : list byte) : Prop := blen l <= 65535.

Definition tag_fits (t : Tag) : Prop := fits16 (Key t) /\ fits16 (Value t).

(** The fields fit their 16-bit lengths, and so does the offsets size. *)
Definition encodable (name : list byte) (tags : Tags) : Prop :=
  fits16 name /\ Forall tag_fits tags
  /\ 2 + 4 * Z.of_nat (length tags) <= 65535.

(** ** The payload of a key, as the specification locates it

    On the bytes of a buffer: [offsetsSize] is the 16-bit big-endian number
    at position 0, [payloadSize] the one at [2 + offsetsSize], and the
    payload is [buffer[offsetsSize+4 : offsetsSize+4+payloadSize]]. *)

Definition u16_at (bs : list byte) (pos : nat) : option Z :=
  match bs !! pos, bs !! S pos with
  | Some hi, Some lo => Some (256 * byte_to_Z hi + byte_to_Z lo)
  | _, _ => None
  end.

Definition payload_of (bs : list byte) : option (list byte) :=
  match u16_at bs 0 with
  | Some ofs =>
      match u16_at bs (Z.to_nat (ofs + 2)) with
      | Some sz =>
          if ofs + 4 + sz <=? blen bs
          then Some (take (Z.to_nat sz) (drop (Z.to_nat (ofs + 4)) bs))
          else None
      | None => None
      end
  | None => None
  end.

(** [k] is a valid slice that shows a well-formed key with payload [pl]. *)
Definition holds_key (h : heap) (k : bytes) (pl : list byte) : Prop :=
  valid h k
  /\ exists bs, contents h k = Ok bs /\ payload_of bs = Some pl.

(** ** The order of the comparator *)

(** [a] comes before [b]: [a] is a proper prefix of [b], or the two differ
    first at a position where the byte of [a] is the smaller one. *)
Definition lex_lt (a b : list byte) : Prop :=
  (exists y t, b = a ++ y :: t)
  \/ (exists p x y ta tb,
        a = p ++ x :: ta /\ b = p ++ y :: tb /\ byte_to_Z x < byte_to_Z y).

(** What the comparator sees of a key: nothing for an empty buffer, the
    payload for a well-formed key. *)
Definition rank (h : heap) (k : bytes) (o : option (list byte)) : Prop :=
  (valid h k /\ len k = 0 /\ o = None)
  \/ (exists pl, holds_key h k pl /\ o = Some pl).

Definition comparable (h : heap) (k : bytes) : Prop :=
  exists o, rank h k o.

Definition compare_ranks (x y : option (list byte)) : Z :=
  match x, y with
  | None, None => 0
  | None, Some _ => -1
  | Some _, None => 1
  | Some pa, Some pb => bytes_Compare pa pb
  end.

(** ** The keys of a bulk generation *)

Definition sumZ (l : list Z) : Z := foldr Z.add 0 l.

(** The sizes and the layouts of the keys of parallel lists, paired as far
    as both lists go. *)
Definition key_sizes (names : list (list byte)) (tagsSlice : list Tags)
    : list Z :=
  zip_with SeriesKeySize names tagsSlice.

Definition key_layouts (names : list (list byte)) (tagsSlice : list Tags)
    : list (list byte) :=
  zip_with key_layout names tagsSlice.

(** The slices that view consecutive keys of the given sizes in the array
    [p], from offset [off] on; the array has [c] bytes. *)
Fixpoint key_views (p : nat) (off c : Z) (sizes : list Z) : list bytes :=
  match sizes with
  | [] => []
  | sz :: sizes' =>
      Some (Slice p off sz (c - off)) :: key_views p (off + sz) c sizes'
  end.

(** ** Inputs of the tests

    ["cpu,host=host1,region=us-west"] of [TestAppendSeriesKey], and
    ["aaa,taaa=vaaa"] and ["aaa,tbbb=vaaa"] of [TestCompareSeriesKeys]. *)

Definition cpu_name : list byte :=
  [Init.Byte.x63; Init.Byte.x70; Init.Byte.x75].

Definition cpu_tags : Tags :=
  [mkTag [Init.Byte.x68; Init.Byte.x6f; Init.Byte.x73; Init.Byte.x74]
         [Init.Byte.x68; Init.Byte.x6f; Init.Byte.x73; Init.Byte.x74;
          Init.Byte.x31];
   mkTag [Init.Byte.x72; Init.Byte.x65; Init.Byte.x67; Init.Byte.x69;
          Init.Byte.x6f; Init.Byte.x6e]
         [Init.Byte.x75; Init.Byte.x73; Init.Byte.x2d; Init.Byte.x77;
          Init.Byte.x65; Init.Byte.x73; Init.Byte.x74]].

Definition aaa : list byte := [Init.Byte.x61; Init.Byte.x61; Init.Byte.x61].

Definition taaa_vaaa : Tags :=
  [mkTag [Init.Byte.x74; Init.Byte.x61; Init.Byte.x61; Init.Byte.x61]
         [Init.Byte.x76; Init.Byte.x61; Init.Byte.x61; Init.Byte.x61]].

Definition tbbb_vaaa : Tags :=
  [mkTag [Init.Byte.x74; Init.Byte.x62; Init.Byte.x62; Init.Byte.x62]
         [Init.Byte.x76; Init.Byte.x61; Init.Byte.x61; Init.Byte.x61]].

(** The heap after encoding the two keys one after the other, and the two
    slices returned. *)
Definition two_keys : heap :=
  [key_layout aaa taaa_vaaa; key_layout aaa tbbb_vaaa].

Definition first_key : bytes := Some (Slice 0 0 21 21).
Definition second_key : bytes := Some (Slice 1 0 21 21).

(** ** Further predicates *)

(** [enc] is the byte string of the key of [name] and [tags]: what
    [AppendSeriesKey(nil, name, tags)] returns, on any heap. *)
Definition encodes (name : list byte) (tags : Tags) (enc : list byte) : Prop :=
  forall h0, exists k0 h0',
    AppendSeriesKey None name tags h0 = Ok (k0, h0')
    /\ contents h0' k0 = Ok enc.

(** The slice [w] has no byte in common with the [size] bytes that follow
    the end of [dst]: it lies in another array, or ends before them, or
    starts after them. *)
Definition apart (w dst : slice) (size : Z) : Prop :=
  s_ptr w <> s_ptr dst
  \/ s_off w + s_len w <= s_off dst + s_len dst
  \/ s_off dst + s_len dst + size <= s_off w.

(** ** Arguments in memory *)

(** What the slices of a tag show in a heap. *)
Definition tag_shows (h : heap) (t : TagSlices) (v : Tag) : Prop :=
  contents h (KeySlice t) = Ok (Key v)
  /\ contents h (ValueSlice t) = Ok (Value v).

(** The argument [w] has no byte among the [size] bytes that follow the end
    of [dst]: it is nil or empty, or [apart] from them. *)
Definition clear_of (w : bytes) (dst : slice) (size : Z) : Prop :=
  match w with
  | None => True
  | Some w => s_len w = 0 \/ apart w dst size
  end.

Definition args_clear (name : bytes) (tags : list TagSlices) (dst : slice)
    (size : Z) : Prop :=
  clear_of name dst size
  /\ Forall (fun t => clear_of (KeySlice t) dst size
                      /\ clear_of (ValueSlice t) dst size) tags.

(** The slice [b] shows [l] whatever the [N] bytes between [lpre] and
    [post] in the array [p] are. *)
Definition shows_through (h0 : heap) (p : nat) (lpre post : list byte)
    (N : nat) (b : bytes) (l : list byte) : Prop :=
  forall W, length W = N -> contents (<[p := lpre ++ W ++ post]> h0) b = Ok l.

Definition tag_shows_through (h0 : heap) (p : nat) (lpre post : list byte)
    (N : nat) (t : TagSlices) (v : Tag) : Prop :=
  shows_through h0 p lpre post N (KeySlice t) (Key v)
  /\ shows_through h0 p lpre post N (ValueSlice t) (Value v).

(** The slice [b] lies in its array: its bytes can be read. *)
Definition readable (h : heap) (b : bytes) : Prop :=
  exists l, contents h b = Ok l.

(** The tag [v] has the lengths of the slices of [t]. *)
Definition tag_lens (t : TagSlices) (v : Tag) : Prop :=
  len (KeySlice t) = blen (Key v) /\ len (ValueSlice t) = blen (Value v).

(** The buffer of sixteen bytes with [cpu] at positions 4 to 6, its empty
    prefix as destination, and the name as a view of its spare capacity. *)
Definition cpu_buf : heap :=
  [replicate 4 Init.Byte.x00 ++ cpu_name ++ replicate 9 Init.Byte.x00].
Definition cpu_dst : slice := Slice 0 0 0 16.
Definition cpu_view : bytes := Some (Slice 0 4 3 12).

(** * Properties *)

(** ** Bytes and 16-bit big-endian words *)

Lemma byte_to_Z_range (b : byte) : 0 <= byte_to_Z b < 256.
Proof.
  unfold byte_to_Z. pose proof (Strings.Byte.to_N_bounded b) as Hb. lia.
Qed.

Lemma byte_to_of_Z (z : Z) : byte_to_Z (byte_of_Z z) = z mod 256.
Proof.
  unfold byte_to_Z, byte_of_Z.
  assert (Hr : 0 <= z mod 256 < 256) by (apply Z.mod_pos_bound; lia).
  destruct (Strings.Byte.of_N (Z.to_N (z mod 256))) as [b|] eqn:E; simpl.
  - apply Strings.Byte.to_of_N in E. rewrite E. lia.
  - apply Strings.Byte.of_N_None_iff in E. lia.
Qed.

Lemma byte_of_to_Z (b : byte) : byte_of_Z (byte_to_Z b) = b.
Proof.
  pose proof (byte_to_Z_range b) as Hb.
  unfold byte_of_Z. rewrite Z.mod_small by lia.
  unfold byte_to_Z. rewrite N2Z.id, Strings.Byte.of_to_N. reflexivity.
Qed.

Lemma byte_to_Z_inj (x y : byte) : byte_to_Z x = byte_to_Z y -> x = y.
Proof.
  intros E. rewrite <- (byte_of_to_Z x), <- (byte_of_to_Z y), E. reflexivity.
Qed.

Lemma be16_length (v : Z) : length (be16 v) = 2%nat.
Proof. reflexivity. Qed.

Lemma uint16_range (z : Z) : 0 <= uint16 z < 65536.
Proof. unfold uint16. apply Z.mod_pos_bound. lia. Qed.

Lemma uint16_small (z : Z) : 0 <= z <= 65535 -> uint16 z = z.
Proof. intros Hz. unfold uint16. apply Z.mod_small. lia. Qed.

(** What [Uint16] reads back from the two bytes of [be16 v]. *)
Lemma be16_combine (v : Z) :
  0 <= v < 65536 ->
  Z.lor (byte_to_Z (byte_of_Z v))
        (Z.shiftl (byte_to_Z (byte_of_Z (Z.shiftr v 8))) 8) = v.
Proof.
  intros Hv. rewrite !byte_to_of_Z.
  change 256 with (2 ^ 8).
  apply Z.bits_inj'. intros n Hn.
  rewrite Z.lor_spec.
  destruct (Z.ltb_spec n 8) as [Hlt|Hge].
  - rewrite Z.mod_pow2_bits_low by lia.
    rewrite Z.shiftl_spec_low by lia. apply orb_false_r.
  - rewrite Z.mod_pow2_bits_high by lia.
    rewrite Z.shiftl_spec by lia. simpl.
    destruct (Z.ltb_spec (n - 8) 8) as [Hlt'|Hge'].
    + rewrite Z.mod_pow2_bits_low by lia.
      rewrite Z.shiftr_spec by lia. f_equal. lia.
    + rewrite Z.mod_pow2_bits_high by lia.
      symmetry. destruct (Z.eq_dec v 0) as [->|Hnz].
      * apply Z.bits_0.
      * apply Z.bits_above_log2; [lia|].
        assert (Z.log2 v < 16); [|lia].
        apply Z.log2_lt_pow2; lia.
Qed.

(** ** Overwriting part of an array *)

Lemma overwrite_middle (l1 x l2 src : list byte) :
  length x = length src ->
  overwrite (l1 ++ x ++ l2) (length l1) src = l1 ++ src ++ l2.
Proof.
  intros Hx. unfold overwrite.
  rewrite take_app_length. f_equal. f_equal.
  rewrite drop_app_ge by lia.
  replace (length l1 + length src - length l1)%nat with (length x) by lia.
  apply drop_app_length.
Qed.

Lemma overwrite_length (arr src : list byte) (pos : nat) :
  (pos + length src <= length arr)%nat ->
  length (overwrite arr pos src) = length arr.
Proof.
  intros Hle. unfold overwrite.
  rewrite !length_app, length_take, length_drop. lia.
Qed.

Lemma insert_two (l1 l2 : list byte) (x y x' y' : byte) :
  <[S (length l1) := y']> (<[length l1 := x']> (l1 ++ [x; y] ++ l2))
  = l1 ++ [x'; y'] ++ l2.
Proof.
  rewrite (insert_app_r_alt l1) by lia.
  rewrite Nat.sub_diag. simpl.
  rewrite (insert_app_r_alt l1) by lia.
  replace (S (length l1) - length l1)%nat with 1%nat by lia.
  reflexivity.
Qed.

(** ** The heap operations on one backing array

    The array [p] of the heap is written [<[p := arr]> h0]; a write
    replaces a part [x] of [arr = l1 ++ x ++ l2]. *)

Ltac test_true :=
  repeat match goal with
  | |- context [if ?c then _ else _] =>
      replace c with true
        by (symmetry; rewrite ?andb_true_iff, ?Z.leb_le, ?Z.ltb_lt;
            unfold blen in *; lia)
  end.

Lemma heap_lookup_upd (h0 : heap) (p : nat) (arr : list byte) :
  (p < length h0)%nat -> <[p := arr]> h0 !! p = Some arr.
Proof. apply list_lookup_insert_eq. Qed.

Lemma PutUint16_at {B} (k : unit -> M B) (h0 : heap) (p : nat)
    (o n c pos v : Z) (arr l1 x l2 : list byte) :
  (p < length h0)%nat ->
  arr = l1 ++ x ++ l2 ->
  length x = 2%nat ->
  Z.of_nat (length l1) = o + pos ->
  0 <= o -> 0 <= pos -> pos + 2 <= n -> n <= c ->
  bind (PutUint16 (Some (Slice p o n c)) pos v) k (<[p := arr]> h0)
  = k tt (<[p := l1 ++ be16 v ++ l2]> h0).
Proof.
  intros Hp -> Hx Hl1 Ho Hpos Hn Hc.
  destruct x as [|a [|b [|? ?]]]; try discriminate Hx. clear Hx.
  unfold PutUint16, BigEndian_PutUint16, bind, lift, reslice, store.
  cbn [len cap s_ptr s_off s_len s_cap].
  test_true.
  cbn [len cap s_ptr s_off s_len s_cap].
  test_true.
  rewrite heap_lookup_upd by assumption.
  rewrite !length_app. cbn [length].
  test_true.
  rewrite list_insert_insert_eq.
  rewrite heap_lookup_upd by assumption.
  rewrite length_insert, !length_app. cbn [length].
  test_true.
  rewrite list_insert_insert_eq.
  replace (Z.to_nat (o + pos + 0)) with (length l1) by lia.
  replace (Z.to_nat (o + pos + 1)) with (S (length l1)) by lia.
  rewrite insert_two. reflexivity.
Qed.

(** [copy(out[pos:pos+len(src)], src)]. *)
Lemma copy_at {B} (k : Z -> M B) (h0 : heap) (p : nat) (o n c pos : Z)
    (arr l1 x l2 src : list byte) :
  (p < length h0)%nat ->
  arr = l1 ++ x ++ l2 ->
  length x = length src ->
  Z.of_nat (length l1) = o + pos ->
  0 <= o -> 0 <= pos -> pos + blen src <= c ->
  bind (lift (reslice (Some (Slice p o n c)) pos (pos + blen src)))
       (fun w => bind (copy_in w src) k) (<[p := arr]> h0)
  = k (blen src) (<[p := l1 ++ src ++ l2]> h0).
Proof.
  intros Hp -> Hx Hl1 Ho Hpos Hc.
  unfold bind, lift, reslice, copy_in, blen in *.
  cbn [len cap s_ptr s_off s_len s_cap].
  test_true.
  cbn [len cap s_ptr s_off s_len s_cap].
  rewrite heap_lookup_upd by assumption.
  rewrite !length_app.
  test_true.
  rewrite list_insert_insert_eq.
  replace (pos + Z.of_nat (length src) - pos) with (Z.of_nat (length src)) by lia.
  rewrite Z.min_id, Nat2Z.id, firstn_all.
  replace (Z.to_nat (o + pos)) with (length l1) by lia.
  rewrite overwrite_middle by assumption. reflexivity.
Qed.

Lemma GetUint16_at (h : heap) (p : nat) (o n c pos v : Z)
    (arr l1 l2 : list byte) :
  h !! p = Some arr ->
  arr = l1 ++ be16 v ++ l2 ->
  Z.of_nat (length l1) = o + pos ->
  0 <= v < 65536 ->
  0 <= o -> 0 <= pos -> pos + 2 <= n -> n <= c ->
  GetUint16 h (Some (Slice p o n c)) pos = Ok v.
Proof.
  intros Hh -> Hl1 Hv Ho Hpos Hn Hc.
  unfold GetUint16, BigEndian_Uint16, rbind, reslice, load.
  cbn [len cap s_ptr s_off s_len s_cap].
  test_true.
  cbn [len cap s_ptr s_off s_len s_cap].
  test_true.
  rewrite Hh.
  replace (Z.to_nat (o + pos + 0)) with (length l1 + 0)%nat by lia.
  replace (Z.to_nat (o + pos + 1)) with (length l1 + 1)%nat by lia.
  rewrite lookup_app_r, Nat.add_comm, Nat.add_sub by lia. cbn.
  rewrite lookup_app_r, Nat.add_comm, Nat.add_sub by lia. cbn.
  rewrite be16_combine by assumption. reflexivity.
Qed.

(** The bytes of a window that sits at [x] in [l1 ++ x ++ l2]. *)
Lemma contents_at (h : heap) (p : nat) (o n c : Z) (arr l1 x l2 : list byte) :
  h !! p = Some arr ->
  arr = l1 ++ x ++ l2 ->
  Z.of_nat (length l1) = o ->
  Z.of_nat (length x) = n ->
  contents h (Some (Slice p o n c)) = Ok x.
Proof.
  intros Hh -> Hl1 Hx.
  unfold contents. cbn [s_ptr s_off s_len s_cap]. rewrite Hh.
  rewrite !length_app. test_true.
  replace (Z.to_nat o) with (length l1) by lia.
  replace (Z.to_nat n) with (length x) by lia.
  rewrite drop_app_length, take_app_length. reflexivity.
Qed.

(** ** The layout of a key *)

Lemma tag_bytes_cons (t : Tag) (tags : Tags) :
  tag_bytes (t :: tags) = Key t ++ Value t ++ tag_bytes tags.
Proof. unfold tag_bytes. cbn [flat_map]. by rewrite <- app_assoc. Qed.

Lemma tag_lengths_cons (t : Tag) (tags : Tags) :
  tag_lengths (t :: tags)
  = be16 (uint16 (blen (Key t))) ++ be16 (uint16 (blen (Value t)))
    ++ tag_lengths tags.
Proof. unfold tag_lengths. cbn [flat_map]. by rewrite <- app_assoc. Qed.

Lemma tag_lengths_length (tags : Tags) :
  length (tag_lengths tags) = (4 * length tags)%nat.
Proof.
  induction tags as [|t tags IH]; [reflexivity|].
  rewrite tag_lengths_cons, !length_app, !be16_length, IH.
  cbn [length]. lia.
Qed.

Lemma SeriesKeyBytesSize_from (tags : Tags) (z : Z) :
  fold_left (fun n tag => n + blen (Key tag) + blen (Value tag)) tags z
  = z + blen (tag_bytes tags).
Proof.
  revert z. induction tags as [|t tags IH]; intros z.
  - simpl. unfold blen. simpl. lia.
  - cbn [fold_left]. rewrite IH, tag_bytes_cons.
    unfold blen. rewrite !length_app. lia.
Qed.

Lemma SeriesKeyBytesSize_payload (name : list byte) (tags : Tags) :
  SeriesKeyBytesSize name tags = blen (key_payload name tags).
Proof.
  unfold SeriesKeyBytesSize, key_payload.
  rewrite SeriesKeyBytesSize_from. unfold blen. rewrite length_app. lia.
Qed.

Lemma key_layout_length (name : list byte) (tags : Tags) :
  blen (key_layout name tags) = SeriesKeySize name tags.
Proof.
  unfold SeriesKeySize, SeriesKeyOffsetsSize.
  rewrite SeriesKeyBytesSize_payload.
  unfold key_layout, blen.
  rewrite !length_app, !be16_length, tag_lengths_length. lia.
Qed.

Lemma split_length {A} (l : list A) (n : nat) :
  (n <= length l)%nat -> exists a b, l = a ++ b /\ length a = n.
Proof.
  intros Hn. exists (take n l), (drop n l). split.
  - symmetry. apply take_drop.
  - apply length_take_le. exact Hn.
Qed.

(** ** The encoder fills its window with the layout *)

Ltac list_eq := rewrite <- ?app_assoc; reflexivity.

Ltac side :=
  first [ assumption
        | list_eq
        | unfold blen in *; rewrite ?length_app, ?be16_length in *; lia ].

(** The tag loop: [X1] and [X2] are the parts of the window still to be
    written, at [opos] and at [bpos]. *)
Lemma AppendSeriesKey_tags_at (tags : Tags) :
  forall (h0 : heap) (p : nat) (o n c opos bpos : Z)
         (arr lpre A X1 B X2 post : list byte),
    (p < length h0)%nat ->
    arr = lpre ++ A ++ X1 ++ B ++ X2 ++ post ->
    Z.of_nat (length lpre) = o ->
    Z.of_nat (length A) = opos ->
    length X1 = (4 * length tags)%nat ->
    Z.of_nat (length A + length X1 + length B) = bpos ->
    length X2 = length (tag_bytes tags) ->
    bpos + blen X2 <= n -> n <= c ->
    AppendSeriesKey_tags (Some (Slice p o n c)) tags opos bpos
      (<[p := arr]> h0)
    = Ok (tt, <[p := lpre ++ A ++ tag_lengths tags ++ B
                     ++ tag_bytes tags ++ post]> h0).
Proof.
  induction tags as [|t tags IH];
    intros h0 p o n c opos bpos arr lpre A X1 B X2 post
           Hp Harr Ho HA HX1 Hb HX2 Hn Hc.
  - destruct X1; [|discriminate HX1]. destruct X2; [|discriminate HX2].
    subst arr. reflexivity.
  - rewrite tag_bytes_cons, !length_app in HX2.
    destruct (split_length X1 2) as (xk & X1a & -> & Hxk);
      [cbn [length] in HX1; lia|].
    rewrite length_app in HX1. cbn [length] in HX1.
    destruct (split_length X1a 2) as (xv & X1' & -> & Hxv); [lia|].
    rewrite length_app in HX1.
    destruct (split_length X2 (length (Key t))) as (k & X2a & -> & Hk); [lia|].
    rewrite length_app in HX2.
    destruct (split_length X2a (length (Value t))) as (v & X2' & -> & Hv); [lia|].
    rewrite length_app in HX2.
    unfold blen in Hn. rewrite !length_app in Hn, Hb.
    cbn [AppendSeriesKey_tags].
    erewrite PutUint16_at
      with (l1 := lpre ++ A) (x := xk)
           (l2 := xv ++ X1' ++ B ++ k ++ v ++ X2' ++ post);
      [|subst arr; side..].
    erewrite copy_at
      with (l1 := lpre ++ A ++ be16 (uint16 (blen (Key t))) ++ xv ++ X1' ++ B)
           (x := k) (l2 := v ++ X2' ++ post); [|side..].
    erewrite PutUint16_at
      with (l1 := lpre ++ A ++ be16 (uint16 (blen (Key t)))) (x := xv)
           (l2 := X1' ++ B ++ Key t ++ v ++ X2' ++ post); [|side..].
    erewrite copy_at
      with (l1 := lpre ++ A ++ be16 (uint16 (blen (Key t)))
                  ++ be16 (uint16 (blen (Value t))) ++ X1' ++ B ++ Key t)
           (x := v) (l2 := X2' ++ post); [|side..].
    erewrite IH
      with (lpre := lpre)
           (A := A ++ be16 (uint16 (blen (Key t)))
                   ++ be16 (uint16 (blen (Value t))))
           (X1 := X1') (B := B ++ Key t ++ Value t) (X2 := X2');
      [|side..].
    rewrite tag_lengths_cons, tag_bytes_cons.
    do 3 f_equal. list_eq.
Qed.

(** Once room is made, [AppendSeriesKey] writes the layout over [W], the
    window [out] of [SeriesKeySize name tags] bytes. *)
Lemma AppendSeriesKey_fill (dst dst' : bytes) (name : list byte) (tags : Tags)
    (h h0 : heap) (p : nat) (o c : Z) (lpre W post : list byte) :
  AppendSeriesKey_room dst (SeriesKeySize name tags) h
  = Ok ((dst', Some (Slice p o (SeriesKeySize name tags) c)),
        <[p := lpre ++ W ++ post]> h0) ->
  (p < length h0)%nat ->
  Z.of_nat (length lpre) = o ->
  blen W = SeriesKeySize name tags ->
  SeriesKeySize name tags <= c ->
  AppendSeriesKey dst name tags h
  = Ok (dst', <[p := lpre ++ key_layout name tags ++ post]> h0).
Proof.
  intros Hroom Hp Ho HW Hc.
  unfold AppendSeriesKey.
  change (SeriesKeyOffsetsSize (Z.of_nat (length tags))
          + SeriesKeyBytesSize name tags + 4)
    with (SeriesKeySize name tags).
  unfold bind at 1. rewrite Hroom. cbn [fst snd].
  unfold SeriesKeySize, SeriesKeyOffsetsSize in *.
  rewrite SeriesKeyBytesSize_payload in *.
  assert (Hpl : blen (key_payload name tags)
                = Z.of_nat (length name + length (tag_bytes tags)))
    by (unfold key_payload, blen; rewrite length_app; reflexivity).
  set (ofs := be16 (uint16 (2 + 2 * 2 * Z.of_nat (length tags)))).
  set (nml := be16 (uint16 (blen name))).
  set (pls := be16 (uint16 (blen (key_payload name tags)))).
  rewrite Hpl in HW, Hc. unfold blen in HW.
  destruct (split_length W 2) as (w1 & Wa & -> & Hw1); [lia|].
  rewrite length_app in HW.
  destruct (split_length Wa 2) as (w2 & Wb & -> & Hw2); [lia|].
  rewrite length_app in HW.
  destruct (split_length Wb (4 * length tags)) as (X1 & Wc & -> & HX1); [lia|].
  rewrite length_app in HW.
  destruct (split_length Wc 2) as (w3 & Wd & -> & Hw3); [lia|].
  rewrite length_app in HW.
  destruct (split_length Wd (length name)) as (wn & X2 & -> & Hwn); [lia|].
  rewrite length_app in HW.
  assert (Hofs : length ofs = 2%nat) by reflexivity.
  assert (Hnml : length nml = 2%nat) by reflexivity.
  assert (Hpls : length pls = 2%nat) by reflexivity.
  erewrite PutUint16_at
    with (l1 := lpre) (x := w1)
         (l2 := w2 ++ X1 ++ w3 ++ wn ++ X2 ++ post); [|side..].
  erewrite PutUint16_at
    with (l1 := lpre ++ ofs) (x := w2)
         (l2 := X1 ++ w3 ++ wn ++ X2 ++ post); [|side..].
  erewrite PutUint16_at
    with (l1 := lpre ++ ofs ++ nml ++ X1) (x := w3)
         (l2 := wn ++ X2 ++ post); [|side..].
  erewrite copy_at
    with (l1 := lpre ++ ofs ++ nml ++ X1 ++ pls) (x := wn)
         (l2 := X2 ++ post); [|side..].
  unfold bind.
  erewrite AppendSeriesKey_tags_at
    with (lpre := lpre) (A := ofs ++ nml) (X1 := X1) (B := pls ++ name)
         (X2 := X2); [|side..].
  unfold ret, key_layout. subst ofs nml pls.
  replace (2 + 2 * 2 * Z.of_nat (length tags))
    with (2 + 4 * Z.of_nat (length tags)) by lia.
  unfold key_payload.
  do 3 f_equal. list_eq.
Qed.

Lemma SeriesKeySize_layout (name : list byte) (tags : Tags) :
  SeriesKeySize name tags = Z.of_nat (length (key_layout name tags)).
Proof. symmetry. apply key_layout_length. Qed.

Lemma SeriesKeySize_min (name : list byte) (tags : Tags) :
  6 <= SeriesKeySize name tags.
Proof.
  unfold SeriesKeySize, SeriesKeyOffsetsSize.
  rewrite SeriesKeyBytesSize_payload. unfold blen. lia.
Qed.

(** [dst == nil]: a fresh array holds the key. *)
Lemma AppendSeriesKey_nil (name : list byte) (tags : Tags) (h : heap) :
  AppendSeriesKey None name tags h
  = Ok (Some (Slice (length h) 0 (SeriesKeySize name tags)
                    (SeriesKeySize name tags)),
        h ++ [key_layout name tags]).
Proof.
  pose proof (SeriesKeySize_min name tags) as Hmin.
  set (size := SeriesKeySize name tags) in *.
  set (zeros := replicate (Z.to_nat size) Init.Byte.x00).
  rewrite (AppendSeriesKey_fill None (Some (Slice (length h) 0 size size))
             name tags h (h ++ [zeros]) (length h) 0 size [] zeros []).
  - rewrite insert_app_r_alt, Nat.sub_diag by lia.
    cbn. by rewrite app_nil_r.
  - unfold AppendSeriesKey_room, make, bind, ret. cbn [is_nil].
    fold size. test_true. fold zeros.
    rewrite insert_app_r_alt, Nat.sub_diag by lia.
    cbn. by rewrite app_nil_r.
  - rewrite length_app. cbn. lia.
  - reflexivity.
  - unfold blen, zeros. rewrite length_replicate. lia.
  - lia.
Qed.

Ltac run :=
  repeat (progress (cbn [is_nil len cap s_ptr s_off s_len s_cap]; test_true)).

Ltac test_false :=
  repeat match goal with
  | |- context [if ?c then _ else _] =>
      replace c with false by (symmetry; rewrite ?Z.ltb_ge; lia)
  end.

(** [dst] has room: the key is written in place, after [old]. *)
Lemma AppendSeriesKey_in_place (name : list byte) (tags : Tags) (h : heap)
    (p : nat) (o n c : Z) (lpre old W post : list byte) :
  h !! p = Some (lpre ++ old ++ W ++ post) ->
  Z.of_nat (length lpre) = o ->
  Z.of_nat (length old) = n ->
  blen W = SeriesKeySize name tags ->
  n + SeriesKeySize name tags <= c ->
  AppendSeriesKey (Some (Slice p o n c)) name tags h
  = Ok (Some (Slice p o (n + SeriesKeySize name tags) c),
        <[p := lpre ++ old ++ key_layout name tags ++ post]> h).
Proof.
  intros Hh Ho Hn HW Hc.
  pose proof (SeriesKeySize_min name tags) as Hmin.
  set (size := SeriesKeySize name tags) in *.
  assert (Hp : (p < length h)%nat) by (eapply lookup_lt_Some; exact Hh).
  rewrite (AppendSeriesKey_fill _ (Some (Slice p o (n + size) c))
             name tags h h p (o + n) (c - n) (lpre ++ old) W post).
  - do 3 f_equal. list_eq.
  - unfold AppendSeriesKey_room, bind, ret, lift, reslice.
    cbn [is_nil len cap s_ptr s_off s_len s_cap]. fold size.
    test_false. run.
    rewrite list_insert_id by (rewrite Hh; f_equal; list_eq).
    repeat first [lia | progress f_equal].
  - exact Hp.
  - rewrite length_app. lia.
  - exact HW.
  - fold size. lia.
Qed.

(** [dst] lacks room: a fresh array receives a copy of [old], then the
    key. *)
Lemma AppendSeriesKey_grow (name : list byte) (tags : Tags) (h : heap)
    (p : nat) (o n c : Z) (old : list byte) :
  contents h (Some (Slice p o n c)) = Ok old ->
  0 <= n ->
  c - n < SeriesKeySize name tags ->
  AppendSeriesKey (Some (Slice p o n c)) name tags h
  = Ok (Some (Slice (length h) 0 (n + SeriesKeySize name tags)
                    (n + SeriesKeySize name tags)),
        h ++ [old ++ key_layout name tags]).
Proof.
  intros Hold Hn Hc.
  pose proof (SeriesKeySize_min name tags) as Hmin.
  set (size := SeriesKeySize name tags) in *.
  set (zeros := replicate (Z.to_nat size) Init.Byte.x00).
  assert (Hlen : Z.of_nat (length old) = n).
  { unfold contents in Hold. cbn [s_ptr s_off s_len] in Hold.
    destruct (h !! p) as [arr|]; [|discriminate].
    destruct (_ && _) eqn:E; [|discriminate].
    rewrite !andb_true_iff, !Z.leb_le in E.
    injection Hold as <-. rewrite length_take, length_drop. lia. }
  rewrite (AppendSeriesKey_fill _ (Some (Slice (length h) 0 (n + size) (n + size)))
             name tags h (h ++ [old ++ zeros]) (length h) n size old zeros []).
  - rewrite insert_app_r_alt, Nat.sub_diag by lia.
    cbn. by rewrite app_nil_r.
  - unfold AppendSeriesKey_room, copy, reading.
    unfold bind, ret, make, reslice.
    cbn [is_nil len cap s_ptr s_off s_len s_cap]. fold size.
    test_true.
    assert (Hold' : contents (h ++ [replicate (Z.to_nat (n + size)) Init.Byte.x00])
                      (Some (Slice p o n c)) = Ok old).
    { unfold contents in *. cbn [s_ptr s_off s_len] in *.
      destruct (h !! p) as [arr|] eqn:E; [|discriminate].
      by rewrite (lookup_app_l_Some _ _ _ _ E). }
    rewrite Hold'. unfold lift, copy_in.
    cbn [len cap s_ptr s_off s_len s_cap].
    rewrite lookup_app_r, Nat.sub_diag by lia. cbn [lookup list_lookup].
    rewrite length_replicate. run.
    unfold blen. rewrite Hlen, Z.min_id.
    replace (Z.to_nat n) with (length old) by lia. rewrite firstn_all.
    unfold overwrite. rewrite drop_replicate.
    rewrite !insert_app_r_alt, !Nat.sub_diag by lia.
    cbn [insert list_insert app].
    change (Z.to_nat 0) with 0%nat. rewrite take_0, Nat.add_0_l.
    replace (Z.to_nat (n + size) - length old)%nat with (Z.to_nat size) by lia.
    fold zeros. rewrite app_nil_r.
    repeat first [lia | progress f_equal].
  - rewrite length_app. cbn. lia.
  - exact Hlen.
  - unfold blen, zeros. rewrite length_replicate. lia.
  - lia.
Qed.

(** What the slice returned for [dst == nil] shows. *)
Lemma key_contents (name : list byte) (tags : Tags) (h : heap) :
  contents (h ++ [key_layout name tags])
    (Some (Slice (length h) 0 (SeriesKeySize name tags)
                 (SeriesKeySize name tags)))
  = Ok (key_layout name tags).
Proof.
  apply contents_at with (arr := key_layout name tags) (l1 := []) (l2 := []).
  - rewrite lookup_app_r, Nat.sub_diag by lia. reflexivity.
  - cbn. by rewrite app_nil_r.
  - reflexivity.
  - symmetry. apply SeriesKeySize_layout.
Qed.

Lemma valid_contents (h : heap) (s : slice) :
  valid h (Some s) ->
  exists arr lpre old spare,
    h !! s_ptr s = Some arr
    /\ arr = lpre ++ old ++ spare
    /\ Z.of_nat (length lpre) = s_off s
    /\ Z.of_nat (length old) = s_len s
    /\ s_len s <= s_cap s <= Z.of_nat (length old + length spare)
    /\ contents h (Some s) = Ok old.
Proof.
  intros (arr & Harr & Ho & Hn & Hc).
  destruct (split_length arr (Z.to_nat (s_off s))) as (lpre & r & -> & Hl);
    [lia|].
  rewrite length_app in Hc.
  destruct (split_length r (Z.to_nat (s_len s))) as (old & spare & -> & Hold);
    [lia|].
  rewrite length_app in Hc.
  exists (lpre ++ old ++ spare), lpre, old, spare.
  repeat split; try lia; try assumption.
  destruct s as [p o n c]. cbn [s_ptr s_off s_len s_cap] in *.
  eapply contents_at; [exact Harr|reflexivity|lia|lia].
Qed.

(** Appending to a valid non-nil [dst], in place or after growing. *)
Lemma AppendSeriesKey_some (name : list byte) (tags : Tags) (h : heap)
    (s : slice) :
  valid h (Some s) ->
  exists old dst' h',
    contents h (Some s) = Ok old
    /\ AppendSeriesKey (Some s) name tags h = Ok (dst', h')
    /\ len dst' = s_len s + SeriesKeySize name tags
    /\ contents h' dst' = Ok (old ++ key_layout name tags)
    /\ contents h' (Some s) = Ok old.
Proof.
  intros Hv.
  destruct (valid_contents h s Hv)
    as (arr & lpre & old & spare & Harr & -> & Hl & Hold & Hc & Hcont).
  pose proof (SeriesKeySize_layout name tags) as Hsz.
  destruct s as [p o n c]. cbn [s_ptr s_off s_len s_cap] in *.
  assert (Hp : (p < length h)%nat) by (eapply lookup_lt_Some; exact Harr).
  exists old.
  destruct (Z.lt_ge_cases (c - n) (SeriesKeySize name tags)) as [Hgrow|Hroom].
  - eexists _, _. split; [exact Hcont|].
    split; [apply AppendSeriesKey_grow; [exact Hcont|lia|exact Hgrow]|].
    cbn [len s_len]. split; [reflexivity|]. split.
    + eapply contents_at with (l1 := []) (l2 := []).
      * rewrite lookup_app_r, Nat.sub_diag by lia. reflexivity.
      * cbn. by rewrite app_nil_r.
      * reflexivity.
      * rewrite length_app. lia.
    + eapply contents_at; [|reflexivity|exact Hl|exact Hold].
      by apply lookup_app_l_Some.
  - destruct (split_length spare (Z.to_nat (SeriesKeySize name tags)))
      as (W & post & -> & HW); [lia|].
    eexists _, _. split; [exact Hcont|].
    split; [eapply AppendSeriesKey_in_place;
            [exact Harr|exact Hl|exact Hold|unfold blen; lia|lia]|].
    cbn [len s_len]. split; [reflexivity|]. split.
    + eapply contents_at with (l1 := lpre) (l2 := post).
      * apply heap_lookup_upd. exact Hp.
      * list_eq.
      * exact Hl.
      * rewrite length_app. lia.
    + eapply contents_at with (l1 := lpre)
                              (l2 := key_layout name tags ++ post).
      * apply heap_lookup_upd. exact Hp.
      * reflexivity.
      * exact Hl.
      * exact Hold.
Qed.

(** ** The decoder reads the layout back *)

Lemma be16_uint16_fits (l : list byte) :
  fits16 l -> uint16 (blen l) = blen l /\ 0 <= blen l < 65536.
Proof.
  unfold fits16, blen. intros Hl. split; [apply uint16_small|]; lia.
Qed.

(** The tag loop of the decoder: [done] holds the tags decoded so far and
    [junk] the rest of the container. *)
Lemma ParseSeriesKeyTags_loop_at (tags : Tags) :
  forall (h : heap) (p : nat) (o n c ob nb cb i opos bpos : Z)
         (arr lpre A B post : list byte) (done junk : list Tag),
    h !! p = Some arr ->
    arr = lpre ++ A ++ tag_lengths tags ++ B ++ tag_bytes tags ++ post ->
    Forall tag_fits tags ->
    Z.of_nat (length lpre + length A) = o + opos ->
    Z.of_nat (length lpre + length A + length (tag_lengths tags) + length B)
    = ob + bpos ->
    0 <= o -> 0 <= opos -> 0 <= ob -> 0 <= bpos ->
    opos + 4 * Z.of_nat (length tags) <= n -> n <= c ->
    bpos + blen (tag_bytes tags) <= cb ->
    Z.of_nat (length done) = i ->
    (length tags <= length junk)%nat ->
    ParseSeriesKeyTags_loop h (Some (Slice p o n c)) (Some (Slice p ob nb cb))
      (length tags) i opos bpos (done ++ junk)
    = Ok (done ++ tags ++ drop (length tags) junk).
Proof.
  induction tags as [|t tags IH];
    intros h p o n c ob nb cb i opos bpos arr lpre A B post done junk
           Hh Harr Hfit HA HB Ho Hopos Hob Hbpos Hn Hc Hcb Hi Hjunk.
  - reflexivity.
  - destruct junk as [|j junk]; [cbn in Hjunk; lia|].
    apply Forall_cons in Hfit as [[Hk Hv] Hfit].
    apply be16_uint16_fits in Hk as [Hku Hkr], Hv as [Hvu Hvr].
    rewrite tag_lengths_cons, tag_bytes_cons in Harr.
    rewrite tag_lengths_cons, !length_app, !be16_length in HB.
    rewrite tag_bytes_cons in Hcb. unfold blen in Hcb, Hkr, Hvr.
    rewrite !length_app in Hcb.
    rewrite Hku, Hvu in Harr.
    cbn [length] in Hn, Hjunk.
    cbn [ParseSeriesKeyTags_loop length].
    erewrite GetUint16_at
      with (l1 := lpre ++ A) (v := blen (Key t));
      [|first [exact Hh|subst arr; side]..].
    cbn [rbind]. unfold reslice at 1.
    cbn [len cap s_ptr s_off s_len s_cap]. test_true. cbn [rbind].
    erewrite contents_at
      with (l1 := lpre ++ A ++ be16 (blen (Key t)) ++ be16 (blen (Value t))
                  ++ tag_lengths tags ++ B)
           (x := Key t);
      [|first [exact Hh|subst arr; side]..].
    cbn [rbind].
    erewrite GetUint16_at
      with (l1 := lpre ++ A ++ be16 (blen (Key t)))
           (v := blen (Value t));
      [|first [exact Hh|subst arr; side]..].
    cbn [rbind]. unfold reslice at 1.
    cbn [len cap s_ptr s_off s_len s_cap]. test_true. cbn [rbind].
    erewrite contents_at
      with (l1 := lpre ++ A ++ be16 (blen (Key t)) ++ be16 (blen (Value t))
                  ++ tag_lengths tags ++ B ++ Key t)
           (x := Value t);
      [|first [exact Hh|subst arr; side]..].
    cbn [rbind].
    replace (Z.to_nat i) with (length done + 0)%nat by lia.
    rewrite insert_app_r. cbn [insert list_insert].
    replace (done ++ mkTag (Key t) (Value t) :: junk)
      with ((done ++ [t]) ++ junk) by (destruct t; list_eq).
    erewrite IH
      with (lpre := lpre)
           (A := A ++ be16 (blen (Key t)) ++ be16 (blen (Value t)))
           (B := B ++ Key t ++ Value t) (post := post);
      [|first [exact Hh|exact Hfit
              |subst arr; side
              |unfold blen in *;
               rewrite ?length_app, ?be16_length in *; cbn [length] in *; lia]..].
    cbn [length drop]. f_equal. list_eq.
Qed.

Lemma ParseSeriesKeyTags_layout (h : heap) (p : nat) (o n c : Z)
    (arr lpre post : list byte) (name : list byte) (tags : Tags)
    (tb : TagBuf) :
  h !! p = Some arr ->
  arr = lpre ++ key_layout name tags ++ post ->
  Z.of_nat (length lpre) = o ->
  n = SeriesKeySize name tags ->
  n <= c ->
  encodable name tags ->
  ParseSeriesKeyTags h (Some (Slice p o n c)) tb = Ok (name, tags).
Proof.
  intros Hh Harr Ho Hn Hc (Hname & Hfit & Hofs).
  apply be16_uint16_fits in Hname as [Hnu Hnr].
  unfold key_layout in Harr. rewrite Hnu, uint16_small in Harr by lia.
  rewrite SeriesKeySize_layout in Hn. unfold key_layout in Hn.
  rewrite !length_app, !be16_length, tag_lengths_length in Hn.
  unfold key_payload in Harr, Hn. rewrite length_app in Hn.
  set (pls := be16 (uint16 (blen (name ++ tag_bytes tags)))) in *.
  assert (Hpls : length pls = 2%nat) by reflexivity.
  set (ofs := 2 + 4 * Z.of_nat (length tags)) in *.
  assert (Hofsl : length (be16 ofs) = 2%nat) by reflexivity.
  assert (Hnml : length (be16 (blen name)) = 2%nat) by reflexivity.
  assert (Htl := tag_lengths_length tags).
  unfold ParseSeriesKeyTags.
  erewrite GetUint16_at with (l1 := lpre) (v := ofs);
    [|first [exact Hh|subst arr; side|subst ofs; lia]..].
  cbn [rbind]. unfold reslice at 1.
  cbn [len cap s_ptr s_off s_len s_cap]. test_true. cbn [rbind].
  erewrite GetUint16_at with (l1 := lpre ++ be16 ofs) (v := blen name);
    [|first [exact Hh|subst arr; side|subst ofs; lia]..].
  cbn [rbind]. unfold reslice at 1.
  cbn [len cap s_ptr s_off s_len s_cap]. test_true. cbn [rbind].
  erewrite contents_at
    with (l1 := lpre ++ be16 ofs ++ be16 (blen name) ++ tag_lengths tags ++ pls)
         (x := name);
    [|first [exact Hh|subst arr; side
            |unfold blen in *; subst ofs;
             rewrite ?length_app in *; lia]..].
  cbn [rbind].
  replace (Z.quot (ofs - 2) 4) with (Z.of_nat (length tags))
    by (subst ofs; replace (2 + 4 * Z.of_nat (length tags) - 2)
          with (Z.of_nat (length tags) * 4) by lia;
        rewrite Z.quot_mul; lia).
  replace (0 <=? Z.of_nat (length tags)) with true
    by (symmetry; apply Z.leb_le; lia).
  assert (Hloop : forall junk : list Tag,
             (length tags <= length junk)%nat ->
             rbind (ParseSeriesKeyTags_loop h (Some (Slice p o n c))
                      (Some (Slice p (o + (ofs + 2 + 2)) (n - (ofs + 2 + 2))
                                   (c - (ofs + 2 + 2))))
                      (Z.to_nat (Z.of_nat (length tags))) 0 (2 + 2)
                      (0 + blen name) junk)
                   (fun arrT => Ok (name, take (Z.to_nat (Z.of_nat (length tags)))
                                               arrT))
             = Ok (name, tags)).
  { intros junk Hjunk. rewrite Nat2Z.id.
    erewrite (ParseSeriesKeyTags_loop_at tags h p o n c _ _ _ 0 _ _ arr lpre
                (be16 ofs ++ be16 (blen name)) (pls ++ name) post [] junk);
      [|first [exact Hh|exact Hfit|exact Hjunk
              |subst arr; side
              |unfold blen in *; subst ofs;
               rewrite ?length_app in *; cbn [length] in *; lia]..].
    cbn [rbind app]. by rewrite take_app_length. }
  destruct (tb_cap tb <? Z.of_nat (length tags)) eqn:Ecap; cbn [rbind tb_arr tb_len].
  - apply Hloop. rewrite length_replicate. lia.
  - apply Hloop. apply Z.ltb_ge in Ecap. unfold tb_cap in Ecap. lia.
Qed.

(** ** Size exactness *)

Lemma tag_bytes_length (tags : Tags) :
  length (tag_bytes tags)
  = sum_list_with (fun t => length (Key t) + length (Value t))%nat tags.
Proof.
  induction tags as [|t tags IH]; [reflexivity|].
  rewrite tag_bytes_cons, !length_app, IH. cbn [sum_list_with]. lia.
Qed.

(** C3 (size exactness): the key that [AppendSeriesKey(nil, name, tags)]
    returns has length [SeriesKeySize(name, tags)], and that size is
    [(2 + 4*len(tags)) + (len(name) + the sum over the tags of
    len(key) + len(value)) + 4]. *)
Theorem AppendSeriesKey_size_exact (name : list byte) (tags : Tags) (h : heap) :
  exists k h' bs,
    AppendSeriesKey None name tags h = Ok (k, h')
    /\ len k = SeriesKeySize name tags
    /\ contents h' k = Ok bs
    /\ blen bs = SeriesKeySize name tags
    /\ SeriesKeySize name tags
       = (2 + 4 * Z.of_nat (length tags))
         + (blen name
            + Z.of_nat (sum_list_with
                          (fun t => length (Key t) + length (Value t))%nat tags))
         + 4.
Proof.
  eexists _, _, _. split; [apply AppendSeriesKey_nil|].
  split; [reflexivity|]. split; [apply key_contents|].
  split; [apply key_layout_length|].
  unfold SeriesKeySize, SeriesKeyOffsetsSize.
  rewrite SeriesKeyBytesSize_payload. unfold key_payload, blen.
  rewrite length_app, tag_bytes_length. lia.
Qed.

(** ** Round trip *)

(** C1 (round trip, as amended): when the name and every tag key and value
    have at most 65535 bytes and there are at most 16383 tags (so that the
    offsets size [2 + 4*len(tags)] fits its 16 bits), decoding the encoded
    key gives back the name and the tags, in the order supplied; with
    [ParseSeriesKey] and with [ParseSeriesKeyTags] on any container. *)
Theorem ParseSeriesKey_AppendSeriesKey (name : list byte) (tags : Tags)
    (h : heap) :
  encodable name tags ->
  exists k h',
    AppendSeriesKey None name tags h = Ok (k, h')
    /\ ParseSeriesKey h' k = Ok (name, tags)
    /\ forall tb, ParseSeriesKeyTags h' k tb = Ok (name, tags).
Proof.
  intros Henc.
  assert (Hparse : forall tb,
             ParseSeriesKeyTags (h ++ [key_layout name tags])
               (Some (Slice (length h) 0 (SeriesKeySize name tags)
                            (SeriesKeySize name tags))) tb
             = Ok (name, tags)).
  { intros tb.
    apply ParseSeriesKeyTags_layout
      with (arr := key_layout name tags) (lpre := []) (post := []).
    - rewrite lookup_app_r, Nat.sub_diag by lia. reflexivity.
    - cbn. by rewrite app_nil_r.
    - reflexivity.
    - reflexivity.
    - lia.
    - exact Henc. }
  eexists _, _. split; [apply AppendSeriesKey_nil|].
  split; [apply Hparse|exact Hparse].
Qed.

Lemma cpu_encodable : encodable cpu_name cpu_tags.
Proof.
  unfold encodable, fits16, tag_fits, fits16, blen.
  split; [simpl; lia|]. split; [|simpl; lia].
  repeat constructor; simpl; lia.
Defined.

(** ["cpu,host=host1,region=us-west"] decodes to itself. *)
Lemma ParseSeriesKey_AppendSeriesKey_witness :
  encodable cpu_name cpu_tags
  /\ exists k h',
       AppendSeriesKey None cpu_name cpu_tags [] = Ok (k, h')
       /\ ParseSeriesKey h' k = Ok (cpu_name, cpu_tags)
       /\ forall tb, ParseSeriesKeyTags h' k tb = Ok (cpu_name, cpu_tags).
Proof.
  split; [exact cpu_encodable|].
  apply (ParseSeriesKey_AppendSeriesKey cpu_name cpu_tags []).
  exact cpu_encodable.
Defined.

(** With 16384 tags the offsets size 65538 is written as 2: the decoder
    then finds no tag, and takes the name from the length table. *)
Lemma ParseSeriesKey_many_tags :
  let name := [Init.Byte.x61] in
  let tags := replicate (Z.to_nat 16384) (mkTag [] []) in
  fits16 name /\ Forall tag_fits tags
  /\ exists k h',
       AppendSeriesKey None name tags [] = Ok (k, h')
       /\ ParseSeriesKey h' k = Ok ([Init.Byte.x00], [])
       /\ ParseSeriesKey h' k <> Ok (name, tags).
Proof.
  intros name tags.
  split; [unfold fits16, blen; simpl; lia|].
  split; [apply Forall_replicate; unfold tag_fits, fits16, blen; simpl; lia|].
  eexists _, _. split; [apply AppendSeriesKey_nil|].
  assert (E : ParseSeriesKey ([] ++ [key_layout name tags])
                (Some (Slice (length ([] : heap)) 0
                             (SeriesKeySize name tags)
                             (SeriesKeySize name tags)))
              = Ok ([Init.Byte.x00], [])) by (vm_compute; reflexivity).
  split; [exact E|]. rewrite E. discriminate.
Qed.

(** ** The length fields of an encoded key *)

Lemma tag_lengths_app (t1 t2 : Tags) :
  tag_lengths (t1 ++ t2) = tag_lengths t1 ++ tag_lengths t2.
Proof. unfold tag_lengths. apply flat_map_app. Qed.

Lemma tag_bytes_app (t1 t2 : Tags) :
  tag_bytes (t1 ++ t2) = tag_bytes t1 ++ tag_bytes t2.
Proof. unfold tag_bytes. apply flat_map_app. Qed.

(** The name length is at position 2 of the key, the lengths of tag [i] at
    [4 + 4*i] and [6 + 4*i]; each holds the low 16 bits of the length. *)
Lemma key_fields (name : list byte) (tags : Tags) (h : heap) :
  let k := Some (Slice (length h) 0 (SeriesKeySize name tags)
                       (SeriesKeySize name tags)) in
  let h' := h ++ [key_layout name tags] in
  GetUint16 h' k 2 = Ok (uint16 (blen name))
  /\ forall (i : nat) (t : Tag),
       tags !! i = Some t ->
       GetUint16 h' k (4 + 4 * Z.of_nat i) = Ok (uint16 (blen (Key t)))
       /\ GetUint16 h' k (6 + 4 * Z.of_nat i) = Ok (uint16 (blen (Value t))).
Proof.
  intros k h'.
  assert (Hh : h' !! length h = Some (key_layout name tags))
    by (unfold h'; rewrite lookup_app_r, Nat.sub_diag by lia; reflexivity).
  pose proof (SeriesKeySize_layout name tags) as Hsz.
  unfold key_layout in Hsz.
  rewrite !length_app, !be16_length, tag_lengths_length in Hsz.
  split.
  - eapply GetUint16_at
      with (l1 := be16 (uint16 (2 + 4 * Z.of_nat (length tags))));
      [exact Hh|unfold key_layout; reflexivity|reflexivity
      |apply uint16_range|lia..].
  - intros i t Hi.
    assert (Hlt : (i < length tags)%nat) by (eapply lookup_lt_Some; exact Hi).
    assert (Htags := take_drop_middle tags i t Hi).
    assert (Hti : length (take i tags) = i) by (apply length_take_le; lia).
    assert (Htl := tag_lengths_length (take i tags)).
    split.
    + eapply GetUint16_at
        with (l1 := be16 (uint16 (2 + 4 * Z.of_nat (length tags)))
                    ++ be16 (uint16 (blen name))
                    ++ tag_lengths (take i tags));
        [exact Hh| |rewrite !length_app, !be16_length; lia
        |apply uint16_range|lia..].
      unfold key_layout. rewrite <- Htags at 2.
      rewrite tag_lengths_app, tag_lengths_cons. list_eq.
    + eapply GetUint16_at
        with (l1 := be16 (uint16 (2 + 4 * Z.of_nat (length tags)))
                    ++ be16 (uint16 (blen name))
                    ++ tag_lengths (take i tags)
                    ++ be16 (uint16 (blen (Key t))));
        [exact Hh| |rewrite !length_app, !be16_length; lia
        |apply uint16_range|lia..].
      unfold key_layout. rewrite <- Htags at 2.
      rewrite tag_lengths_app, tag_lengths_cons. list_eq.
Qed.

(** C4 (size limit, as amended): [AppendSeriesKey] checks no size and has
    no error result.  For every name and tag set it returns a key of
    [SeriesKeySize(name, tags)] bytes in which every 16-bit length field
    holds the length of its field modulo 65536; a field of at most 65535
    bytes, and so one of exactly 65535, has its exact length written. *)
Theorem AppendSeriesKey_wraps_lengths (name : list byte) (tags : Tags)
    (h : heap) :
  exists k h',
    AppendSeriesKey None name tags h = Ok (k, h')
    /\ len k = SeriesKeySize name tags
    /\ GetUint16 h' k 2 = Ok (blen name mod 65536)
    /\ (forall (i : nat) (t : Tag),
          tags !! i = Some t ->
          GetUint16 h' k (4 + 4 * Z.of_nat i) = Ok (blen (Key t) mod 65536)
          /\ GetUint16 h' k (6 + 4 * Z.of_nat i)
             = Ok (blen (Value t) mod 65536))
    /\ (forall l : list byte, blen l <= 65535 -> blen l mod 65536 = blen l).
Proof.
  destruct (key_fields name tags h) as [Hname Htags].
  eexists _, _. split; [apply AppendSeriesKey_nil|].
  split; [reflexivity|]. split; [exact Hname|]. split; [exact Htags|].
  intros l Hl. apply Z.mod_small. unfold blen in *. lia.
Qed.

(** On ["cpu,host=host1,region=us-west"]: the lengths 3, 4 and 5 of the
    name and of the first tag are read back from positions 2, 4 and 6. *)
Lemma AppendSeriesKey_wraps_lengths_witness :
  cpu_tags !! 0%nat
  = Some (mkTag [Init.Byte.x68; Init.Byte.x6f; Init.Byte.x73; Init.Byte.x74]
                [Init.Byte.x68; Init.Byte.x6f; Init.Byte.x73; Init.Byte.x74;
                 Init.Byte.x31])
  /\ exists k h',
       AppendSeriesKey None cpu_name cpu_tags [] = Ok (k, h')
       /\ len k = SeriesKeySize cpu_name cpu_tags
       /\ GetUint16 h' k 2 = Ok 3
       /\ GetUint16 h' k 4 = Ok 4
       /\ GetUint16 h' k 6 = Ok 5.
Proof.
  assert (H0 : cpu_tags !! 0%nat
               = Some (mkTag [Init.Byte.x68; Init.Byte.x6f; Init.Byte.x73;
                              Init.Byte.x74]
                             [Init.Byte.x68; Init.Byte.x6f; Init.Byte.x73;
                              Init.Byte.x74; Init.Byte.x31]))
    by reflexivity.
  split; [exact H0|].
  destruct (AppendSeriesKey_wraps_lengths cpu_name cpu_tags [])
    as (k & h' & Happ & Hlen & Hname & Htags & _).
  destruct (Htags 0%nat _ H0) as [Hk Hv].
  exists k, h'. repeat split; assumption.
Defined.

(** A name of 65536 bytes is accepted; its length is written as 0. *)
Lemma AppendSeriesKey_long_name :
  let name := replicate (Z.to_nat 65536) Init.Byte.x61 in
  65535 < blen name
  /\ exists k h',
       AppendSeriesKey None name [] [] = Ok (k, h')
       /\ len k = 65542
       /\ GetUint16 h' k 2 = Ok 0.
Proof.
  intros name.
  assert (Hlen : blen name = 65536)
    by (unfold blen, name; rewrite length_replicate; lia).
  split; [lia|].
  destruct (key_fields name [] []) as [Hname _].
  assert (Hsz : SeriesKeySize name [] = 65542)
    by (unfold SeriesKeySize, SeriesKeyOffsetsSize, SeriesKeyBytesSize;
        cbn [fold_left length]; lia).
  eexists _, _. split; [apply AppendSeriesKey_nil|].
  split; [exact Hsz|].
  rewrite Hname, Hlen. reflexivity.
Qed.

(** ** The encoder on arguments in memory *)

(** Overwriting [W] changes no slice that has no byte in it. *)
Lemma contents_frame (h : heap) (p : nat) (A W W' B : list byte) (w : slice) :
  h !! p = Some (A ++ W ++ B) ->
  length W' = length W ->
  s_ptr w <> p
  \/ s_off w + s_len w <= Z.of_nat (length A)
  \/ Z.of_nat (length A + length W) <= s_off w ->
  contents (<[p := A ++ W' ++ B]> h) (Some w) = contents h (Some w).
Proof.
  intros Hh HW Hw. unfold contents.
  destruct (Nat.eq_dec (s_ptr w) p) as [Heq|Hne];
    [|by rewrite list_lookup_insert_ne by auto].
  rewrite Heq.
  rewrite heap_lookup_upd by (eapply lookup_lt_Some; exact Hh).
  rewrite Hh, !length_app, HW.
  destruct ((0 <=? s_off w) && (0 <=? s_len w)
            && (s_off w + s_len w
                <=? Z.of_nat (length A + (length W + length B)))) eqn:E;
    [|reflexivity].
  rewrite !andb_true_iff, !Z.leb_le in E. f_equal.
  destruct Hw as [Hw|[Hw|Hw]]; [contradiction| |].
  - rewrite !(drop_app_le A) by lia.
    rewrite !take_app_le by (rewrite length_drop; lia). reflexivity.
  - rewrite !(app_assoc A).
    rewrite !drop_app_ge by (rewrite length_app; lia).
    rewrite !length_app, HW. reflexivity.
Qed.

(** An empty slice shows no byte, wherever it is. *)
Lemma contents_frame_empty (h : heap) (p : nat) (arr arr' : list byte)
    (w : slice) :
  h !! p = Some arr ->
  length arr' = length arr ->
  s_len w = 0 ->
  contents (<[p := arr']> h) (Some w) = contents h (Some w).
Proof.
  intros Hh Hlen Hw. unfold contents.
  destruct (Nat.eq_dec (s_ptr w) p) as [Heq|Hne];
    [|by rewrite list_lookup_insert_ne by auto].
  rewrite Heq.
  rewrite heap_lookup_upd by (eapply lookup_lt_Some; exact Hh).
  rewrite Hh, Hlen, Hw. change (Z.to_nat 0) with 0%nat.
  by rewrite !take_0.
Qed.

Lemma contents_len (h : heap) (b : bytes) (l : list byte) :
  contents h b = Ok l -> blen l = len b.
Proof.
  destruct b as [s|]; cbn [len]; [|by intros [= <-]].
  unfold contents.
  destruct (h !! s_ptr s) as [arr|]; [|discriminate].
  destruct ((0 <=? s_off s) && (0 <=? s_len s)
            && (s_off s + s_len s <=? Z.of_nat (length arr))) eqn:E;
    [|discriminate].
  rewrite !andb_true_iff, !Z.leb_le in E. intros [= <-].
  unfold blen. rewrite length_take, length_drop. lia.
Qed.

Lemma contents_ptr (h : heap) (w : slice) (l : list byte) :
  contents h (Some w) = Ok l -> (s_ptr w < length h)%nat.
Proof.
  unfold contents.
  destruct (h !! s_ptr w) as [arr|] eqn:E; [|discriminate].
  intros _. eapply lookup_lt_Some. exact E.
Qed.

(** [copy(out[pos:pos+len(s)], s)] for a source [s] in memory that shows
    [src] when the copy runs. *)
Lemma copy_from_at {B} (k : Z -> M B) (h0 : heap) (p : nat) (o n c pos : Z)
    (arr l1 x l2 src : list byte) (s : bytes) :
  (p < length h0)%nat ->
  arr = l1 ++ x ++ l2 ->
  length x = length src ->
  Z.of_nat (length l1) = o + pos ->
  0 <= o -> 0 <= pos -> pos + blen src <= c ->
  contents (<[p := arr]> h0) s = Ok src ->
  bind (lift (reslice (Some (Slice p o n c)) pos (pos + blen src)))
       (fun w => bind (copy w s) k) (<[p := arr]> h0)
  = k (blen src) (<[p := l1 ++ src ++ l2]> h0).
Proof.
  intros Hp Harr Hx Hl1 Ho Hpos Hc Hs.
  rewrite <- (copy_at k h0 p o n c pos arr l1 x l2 src) by assumption.
  unfold lift.
  destruct (reslice (Some (Slice p o n c)) pos (pos + blen src)) as [w|];
    [|reflexivity].
  unfold copy, reading, bind, lift. rewrite Hs. reflexivity.
Qed.

Lemma shows_through_at (h0 : heap) (p : nat) (lpre post W arr : list byte)
    (N : nat) (b : bytes) (l : list byte) :
  shows_through h0 p lpre post N b l ->
  arr = lpre ++ W ++ post ->
  length W = N ->
  contents (<[p := arr]> h0) b = Ok l.
Proof. intros H -> HW. by apply H. Qed.

(** Arguments in the old arrays show the same bytes whatever a fresh
    array holds. *)
Lemma shows_through_fresh (h : heap) (x lpre post : list byte) (N : nat)
    (b : bytes) (l : list byte) :
  contents h b = Ok l ->
  shows_through (h ++ [x]) (length h) lpre post N b l.
Proof.
  intros Hc W _.
  rewrite insert_app_r_alt, Nat.sub_diag by lia. cbn [insert list_insert].
  destruct b as [w|]; [|exact Hc]. unfold contents in *.
  destruct (h !! s_ptr w) as [arr|] eqn:E; [|discriminate].
  by rewrite (lookup_app_l_Some _ _ _ _ E).
Qed.

(** An argument that is clear of [W] shows the same bytes whatever [W]
    holds. *)
Lemma shows_through_clear (h : heap) (p : nat) (lpre W post : list byte)
    (b : bytes) (l : list byte) :
  h !! p = Some (lpre ++ W ++ post) ->
  contents h b = Ok l ->
  (forall w, b = Some w ->
             s_len w = 0 \/ s_ptr w <> p
             \/ s_off w + s_len w <= Z.of_nat (length lpre)
             \/ Z.of_nat (length lpre + length W) <= s_off w) ->
  shows_through h p lpre post (length W) b l.
Proof.
  intros Hh Hc Hclear W' HW'.
  destruct b as [w|]; [|exact Hc].
  destruct (Hclear w eq_refl) as [H0|Hw].
  - rewrite (contents_frame_empty h p (lpre ++ W ++ post)); auto.
    rewrite !length_app. lia.
  - rewrite (contents_frame h p lpre W W' post); auto.
Qed.

(** The sizes computed from the slices are those of the bytes they
    show. *)
Lemma SeriesKeyBytesSize_slices_shows (h : heap) (name : bytes)
    (tagsS : list TagSlices) (nm : list byte) (tags : Tags) :
  contents h name = Ok nm ->
  Forall2 (tag_shows h) tagsS tags ->
  SeriesKeyBytesSize_slices name tagsS = SeriesKeyBytesSize nm tags.
Proof.
  intros Hn Ht. unfold SeriesKeyBytesSize_slices, SeriesKeyBytesSize.
  rewrite <- (contents_len _ _ _ Hn).
  generalize (blen nm). clear Hn.
  induction Ht as [|t v tagsS tags [Hk Hv] _ IH]; intros z; [reflexivity|].
  cbn [fold_left].
  rewrite <- (contents_len _ _ _ Hk), <- (contents_len _ _ _ Hv). apply IH.
Qed.

(** The tag loop on tags in memory, as [AppendSeriesKey_tags_at]. *)
Lemma AppendSeriesKey_tags_slices_at (tagsS : list TagSlices) :
  forall (tags : Tags) (h0 : heap) (p : nat) (o n c opos bpos : Z)
         (arr lpre A X1 B X2 post : list byte) (N : nat),
    (p < length h0)%nat ->
    arr = lpre ++ A ++ X1 ++ B ++ X2 ++ post ->
    Z.of_nat (length lpre) = o ->
    Z.of_nat (length A) = opos ->
    length X1 = (4 * length tags)%nat ->
    Z.of_nat (length A + length X1 + length B) = bpos ->
    length X2 = length (tag_bytes tags) ->
    bpos + blen X2 <= n -> n <= c ->
    (length A + length X1 + length B + length X2 = N)%nat ->
    Forall2 (tag_shows_through h0 p lpre post N) tagsS tags ->
    AppendSeriesKey_tags_slices (Some (Slice p o n c)) tagsS opos bpos
      (<[p := arr]> h0)
    = Ok (tt, <[p := lpre ++ A ++ tag_lengths tags ++ B
                     ++ tag_bytes tags ++ post]> h0).
Proof.
  induction tagsS as [|tS tagsS IH];
    intros tags h0 p o n c opos bpos arr lpre A X1 B X2 post N
           Hp Harr Ho HA HX1 Hb HX2 Hn Hc HN Hshow.
  - apply Forall2_nil_inv_l in Hshow. subst tags.
    destruct X1; [|discriminate HX1]. destruct X2; [|discriminate HX2].
    subst arr. reflexivity.
  - apply Forall2_cons_inv_l in Hshow as (t & tags' & [Hsk Hsv] & Hshow & ->).
    rename tags' into tags.
    rewrite tag_bytes_cons, !length_app in HX2.
    destruct (split_length X1 2) as (xk & X1a & -> & Hxk);
      [cbn [length] in HX1; lia|].
    rewrite length_app in HX1. cbn [length] in HX1.
    destruct (split_length X1a 2) as (xv & X1' & -> & Hxv); [lia|].
    rewrite length_app in HX1.
    destruct (split_length X2 (length (Key t))) as (k & X2a & -> & Hk); [lia|].
    rewrite length_app in HX2.
    destruct (split_length X2a (length (Value t))) as (v & X2' & -> & Hv); [lia|].
    rewrite length_app in HX2.
    unfold blen in Hn. rewrite !length_app in Hn, Hb.
    repeat rewrite length_app in HN.
    assert (Hlk : len (KeySlice tS) = blen (Key t)).
    { symmetry. eapply contents_len.
      apply (Hsk (A ++ (xk ++ xv ++ X1') ++ B ++ k ++ v ++ X2')).
      rewrite !length_app. lia. }
    assert (Hlv : len (ValueSlice tS) = blen (Value t)).
    { symmetry. eapply contents_len.
      apply (Hsv (A ++ (xk ++ xv ++ X1') ++ B ++ k ++ v ++ X2')).
      rewrite !length_app. lia. }
    cbn [AppendSeriesKey_tags_slices]. rewrite Hlk, Hlv.
    erewrite PutUint16_at
      with (l1 := lpre ++ A) (x := xk)
           (l2 := xv ++ X1' ++ B ++ k ++ v ++ X2' ++ post);
      [|subst arr; side..].
    erewrite copy_from_at
      with (l1 := lpre ++ A ++ be16 (uint16 (blen (Key t))) ++ xv ++ X1' ++ B)
           (x := k) (l2 := v ++ X2' ++ post) (src := Key t);
      [|try side..].
    2: { eapply shows_through_at
           with (W := A ++ be16 (uint16 (blen (Key t))) ++ xv ++ X1' ++ B
                      ++ k ++ v ++ X2');
           [exact Hsk|list_eq|rewrite !length_app, ?be16_length; lia]. }
    erewrite PutUint16_at
      with (l1 := lpre ++ A ++ be16 (uint16 (blen (Key t)))) (x := xv)
           (l2 := X1' ++ B ++ Key t ++ v ++ X2' ++ post); [|side..].
    erewrite copy_from_at
      with (l1 := lpre ++ A ++ be16 (uint16 (blen (Key t)))
                  ++ be16 (uint16 (blen (Value t))) ++ X1' ++ B ++ Key t)
           (x := v) (l2 := X2' ++ post) (src := Value t);
      [|try side..].
    2: { eapply shows_through_at
           with (W := A ++ be16 (uint16 (blen (Key t)))
                      ++ be16 (uint16 (blen (Value t))) ++ X1' ++ B
                      ++ Key t ++ v ++ X2');
           [exact Hsv|list_eq|rewrite !length_app, ?be16_length; lia]. }
    erewrite IH
      with (tags := tags) (lpre := lpre)
           (A := A ++ be16 (uint16 (blen (Key t)))
                   ++ be16 (uint16 (blen (Value t))))
           (X1 := X1') (B := B ++ Key t ++ Value t) (X2 := X2') (N := N);
      [|side..].
    rewrite tag_lengths_cons, tag_bytes_cons.
    do 3 f_equal. list_eq.
Qed.

(** Once room is made, [AppendSeriesKey] on arguments in memory that show
    their bytes whatever the window [W] holds writes the layout of these
    bytes over [W], as [AppendSeriesKey_fill]. *)
Lemma AppendSeriesKey_slices_fill (dst dst' name : bytes)
    (tagsS : list TagSlices) (nm : list byte) (tags : Tags)
    (h h0 : heap) (p : nat) (o c : Z) (lpre W post : list byte) :
  AppendSeriesKey_room dst (SeriesKeySize nm tags) h
  = Ok ((dst', Some (Slice p o (SeriesKeySize nm tags) c)),
        <[p := lpre ++ W ++ post]> h0) ->
  (p < length h0)%nat ->
  Z.of_nat (length lpre) = o ->
  blen W = SeriesKeySize nm tags ->
  SeriesKeySize nm tags <= c ->
  shows_through h0 p lpre post (length W) name nm ->
  Forall2 (tag_shows_through h0 p lpre post (length W)) tagsS tags ->
  AppendSeriesKey_slices dst name tagsS h
  = Ok (dst', <[p := lpre ++ key_layout nm tags ++ post]> h0).
Proof.
  intros Hroom Hp Ho HW Hc Hsn Hst.
  assert (Hn0 : contents (<[p := lpre ++ W ++ post]> h0) name = Ok nm)
    by (by apply Hsn).
  assert (Ht0 : Forall2 (tag_shows (<[p := lpre ++ W ++ post]> h0))
                  tagsS tags).
  { eapply Forall2_impl; [exact Hst|].
    intros t v [Hk Hv]. split; [by apply Hk|by apply Hv]. }
  unfold AppendSeriesKey_slices.
  rewrite (SeriesKeyBytesSize_slices_shows _ _ _ _ _ Hn0 Ht0).
  rewrite (Forall2_length _ _ _ Ht0).
  rewrite <- (contents_len _ _ _ Hn0).
  clear Hn0 Ht0.
  remember (length W) as N eqn:HN.
  change (SeriesKeyOffsetsSize (Z.of_nat (length tags))
          + SeriesKeyBytesSize nm tags + 4)
    with (SeriesKeySize nm tags).
  unfold bind at 1. rewrite Hroom. cbn [fst snd].
  unfold SeriesKeySize, SeriesKeyOffsetsSize in *.
  rewrite SeriesKeyBytesSize_payload in *.
  assert (Hpl : blen (key_payload nm tags)
                = Z.of_nat (length nm + length (tag_bytes tags)))
    by (unfold key_payload, blen; rewrite length_app; reflexivity).
  set (ofs := be16 (uint16 (2 + 2 * 2 * Z.of_nat (length tags)))).
  set (nml := be16 (uint16 (blen nm))).
  set (pls := be16 (uint16 (blen (key_payload nm tags)))).
  rewrite Hpl in HW, Hc. unfold blen in HW.
  destruct (split_length W 2) as (w1 & Wa & -> & Hw1); [lia|].
  rewrite length_app in HW.
  destruct (split_length Wa 2) as (w2 & Wb & -> & Hw2); [lia|].
  rewrite length_app in HW.
  destruct (split_length Wb (4 * length tags)) as (X1 & Wc & -> & HX1); [lia|].
  rewrite length_app in HW.
  destruct (split_length Wc 2) as (w3 & Wd & -> & Hw3); [lia|].
  rewrite length_app in HW.
  destruct (split_length Wd (length nm)) as (wn & X2 & -> & Hwn); [lia|].
  rewrite length_app in HW.
  repeat rewrite length_app in HN.
  assert (Hofs : length ofs = 2%nat) by reflexivity.
  assert (Hnml : length nml = 2%nat) by reflexivity.
  assert (Hpls : length pls = 2%nat) by reflexivity.
  erewrite PutUint16_at
    with (l1 := lpre) (x := w1)
         (l2 := w2 ++ X1 ++ w3 ++ wn ++ X2 ++ post); [|side..].
  erewrite PutUint16_at
    with (l1 := lpre ++ ofs) (x := w2)
         (l2 := X1 ++ w3 ++ wn ++ X2 ++ post); [|side..].
  erewrite PutUint16_at
    with (l1 := lpre ++ ofs ++ nml ++ X1) (x := w3)
         (l2 := wn ++ X2 ++ post); [|side..].
  erewrite copy_from_at
    with (l1 := lpre ++ ofs ++ nml ++ X1 ++ pls) (x := wn)
         (l2 := X2 ++ post) (src := nm); [|try side..].
  2: { eapply shows_through_at
         with (W := ofs ++ nml ++ X1 ++ pls ++ wn ++ X2);
         [exact Hsn|list_eq|rewrite !length_app; lia]. }
  unfold bind.
  erewrite AppendSeriesKey_tags_slices_at
    with (tags := tags) (lpre := lpre) (A := ofs ++ nml) (X1 := X1)
         (B := pls ++ nm) (X2 := X2) (N := N); [|side..].
  unfold ret, key_layout. subst ofs nml pls.
  replace (2 + 2 * 2 * Z.of_nat (length tags))
    with (2 + 4 * Z.of_nat (length tags)) by lia.
  unfold key_payload.
  do 3 f_equal. list_eq.
Qed.

(** On arguments in memory that have no byte in the range written,
    [AppendSeriesKey] is the function of the bytes they show.  A nil
    destination and one that has to grow are written in a fresh array, so
    that the condition is on the in-place case only. *)
Lemma AppendSeriesKey_slices_by_value (dst name : bytes)
    (tagsS : list TagSlices) (nm : list byte) (tags : Tags) (h : heap) :
  valid h dst ->
  contents h name = Ok nm ->
  Forall2 (tag_shows h) tagsS tags ->
  (forall s, dst = Some s ->
             SeriesKeySize nm tags <= s_cap s - s_len s ->
             args_clear name tagsS s (SeriesKeySize nm tags)) ->
  AppendSeriesKey_slices dst name tagsS h = AppendSeriesKey dst nm tags h.
Proof.
  intros Hv Hn Ht Hclear.
  pose proof (SeriesKeySize_min nm tags) as Hmin.
  pose proof (SeriesKeySize_layout nm tags) as Hsz.
  set (size := SeriesKeySize nm tags) in *.
  set (zeros := replicate (Z.to_nat size) Init.Byte.x00).
  destruct dst as [s|].
  - destruct (valid_contents h s Hv)
      as (arr & lpre & old & spare & Harr & -> & Hl & Hold & Hcap & Hc).
    destruct s as [p o n c]. cbn [s_ptr s_off s_len s_cap] in *.
    assert (Hp : (p < length h)%nat) by (eapply lookup_lt_Some; exact Harr).
    destruct (Z.lt_ge_cases (c - n) size) as [Hg|Hr].
    + (* a fresh array *)
      rewrite (AppendSeriesKey_grow nm tags h p o n c old Hc) by lia.
      fold size.
      rewrite (AppendSeriesKey_slices_fill _
                 (Some (Slice (length h) 0 (n + size) (n + size)))
                 name tagsS nm tags h (h ++ [old ++ zeros]) (length h) n size
                 old zeros []).
      * rewrite insert_app_r_alt, Nat.sub_diag by lia.
        cbn. by rewrite app_nil_r.
      * unfold AppendSeriesKey_room, copy, reading.
        unfold bind, ret, make, reslice.
        cbn [is_nil len cap s_ptr s_off s_len s_cap]. fold size.
        test_true.
        assert (Hold' : contents (h ++ [replicate (Z.to_nat (n + size))
                                          Init.Byte.x00])
                          (Some (Slice p o n c)) = Ok old).
        { unfold contents in *. cbn [s_ptr s_off s_len] in *.
          rewrite (lookup_app_l_Some _ _ _ _ Harr). by rewrite Harr in Hc. }
        rewrite Hold'. unfold lift, copy_in.
        cbn [len cap s_ptr s_off s_len s_cap].
        rewrite lookup_app_r, Nat.sub_diag by lia. cbn [lookup list_lookup].
        rewrite length_replicate. run.
        unfold blen. rewrite Hold, Z.min_id.
        replace (Z.to_nat n) with (length old) by lia. rewrite firstn_all.
        unfold overwrite. rewrite drop_replicate.
        rewrite !insert_app_r_alt, !Nat.sub_diag by lia.
        cbn [insert list_insert app].
        change (Z.to_nat 0) with 0%nat. rewrite take_0, Nat.add_0_l.
        replace (Z.to_nat (n + size) - length old)%nat
          with (Z.to_nat size) by lia.
        fold zeros. rewrite app_nil_r.
        repeat first [lia | progress f_equal].
      * rewrite length_app. cbn. lia.
      * exact Hold.
      * unfold blen, zeros. rewrite length_replicate. lia.
      * lia.
      * by apply shows_through_fresh.
      * eapply Forall2_impl; [exact Ht|].
        intros t v [Hk Hv']. split; by apply shows_through_fresh.
    + (* in place *)
      destruct (Hclear _ eq_refl ltac:(cbn [s_cap s_len]; lia))
        as [Hcn Hct].
      destruct (split_length spare (Z.to_nat size)) as (W & post & -> & HW);
        [lia|].
      rewrite (AppendSeriesKey_in_place nm tags h p o n c lpre old W post
                 Harr Hl Hold) by (unfold blen; lia).
      fold size.
      assert (Hshow : forall b l,
                 contents h b = Ok l ->
                 clear_of b (Slice p o n c) size ->
                 shows_through h p (lpre ++ old) post (length W) b l).
      { intros b l Hb Hcl.
        apply shows_through_clear; [by rewrite <- app_assoc|exact Hb|].
        intros w ->. cbn [clear_of] in Hcl. unfold apart in Hcl.
        cbn [s_ptr s_off s_len] in Hcl. rewrite !length_app. lia. }
      rewrite (AppendSeriesKey_slices_fill _ (Some (Slice p o (n + size) c))
                 name tagsS nm tags h h p (o + n) (c - n)
                 (lpre ++ old) W post).
      * do 3 f_equal. list_eq.
      * unfold AppendSeriesKey_room, bind, ret, lift, reslice.
        cbn [is_nil len cap s_ptr s_off s_len s_cap]. fold size.
        test_false. run.
        rewrite list_insert_id by (rewrite Harr; f_equal; list_eq).
        repeat first [lia | progress f_equal].
      * exact Hp.
      * rewrite length_app. lia.
      * unfold blen. lia.
      * fold size. lia.
      * by apply Hshow.
      * apply Forall2_same_length_lookup_2; [by eapply Forall2_length|].
        intros i t v Hti Hvi.
        destruct (Forall2_lookup_lr _ _ _ _ _ _ Ht Hti Hvi) as [Hk Hv'].
        destruct (proj1 (Forall_lookup _ _) Hct i t Hti) as [Hck Hcv].
        split; by apply Hshow.
  - (* nil *)
    rewrite AppendSeriesKey_nil. fold size.
    rewrite (AppendSeriesKey_slices_fill None
               (Some (Slice (length h) 0 size size))
               name tagsS nm tags h (h ++ [zeros]) (length h) 0 size
               [] zeros []).
    + rewrite insert_app_r_alt, Nat.sub_diag by lia.
      cbn. by rewrite app_nil_r.
    + unfold AppendSeriesKey_room, make, bind, ret. cbn [is_nil].
      fold size. test_true. fold zeros.
      rewrite insert_app_r_alt, Nat.sub_diag by lia.
      cbn. by rewrite app_nil_r.
    + rewrite length_app. cbn. lia.
    + reflexivity.
    + unfold blen, zeros. rewrite length_replicate. lia.
    + lia.
    + by apply shows_through_fresh.
    + eapply Forall2_impl; [exact Ht|].
      intros t v [Hk Hv']. split; by apply shows_through_fresh.
Qed.

(** ** The encoder on arguments that overlap the bytes written

    Whatever the arguments share with [dst], the encoder writes the same
    positions: the sizes come from the lengths of the slices.  What it
    copies is what each argument shows when its [copy] runs. *)

Lemma readable_reinsert (h0 : heap) (p : nat) (arr arr' : list byte)
    (b : bytes) :
  (p < length h0)%nat ->
  length arr' = length arr ->
  readable (<[p := arr]> h0) b -> readable (<[p := arr']> h0) b.
Proof.
  intros Hp Hlen [l Hl]. destruct b as [w|]; [|by exists []].
  unfold readable, contents in *.
  destruct (Nat.eq_dec (s_ptr w) p) as [Heq|Hne].
  - rewrite Heq in *. rewrite heap_lookup_upd in * by assumption.
    rewrite Hlen.
    destruct ((0 <=? s_off w) && (0 <=? s_len w)
              && (s_off w + s_len w <=? Z.of_nat (length arr)));
      [by eexists|discriminate].
  - rewrite list_lookup_insert_ne in * by auto. by exists l.
Qed.

Lemma readable_insert (h : heap) (p : nat) (arr arr' : list byte)
    (b : bytes) :
  h !! p = Some arr ->
  length arr' = length arr ->
  readable h b -> readable (<[p := arr']> h) b.
Proof.
  intros Hh Hlen Hr.
  apply (readable_reinsert h p arr arr' b);
    [eapply lookup_lt_Some; exact Hh|exact Hlen|].
  by rewrite list_insert_id.
Qed.

Lemma readable_extend (h : heap) (x y : list byte) (b : bytes) :
  readable h b -> readable (<[length h := y]> (h ++ [x])) b.
Proof.
  intros [l Hl]. exists l.
  rewrite insert_app_r_alt, Nat.sub_diag by lia. cbn [insert list_insert].
  destruct b as [w|]; [|exact Hl]. unfold contents in *.
  destruct (h !! s_ptr w) as [arr|] eqn:E; [|discriminate].
  by rewrite (lookup_app_l_Some _ _ _ _ E).
Qed.

Lemma tag_lens_bytes (tagsS : list TagSlices) (tv tv' : Tags) :
  Forall2 tag_lens tagsS tv -> Forall2 tag_lens tagsS tv' ->
  length tv' = length tv
  /\ length (tag_bytes tv') = length (tag_bytes tv)
  /\ SeriesKeyBytesSize_slices None tagsS = blen (tag_bytes tv).
Proof.
  intros H. revert tv'.
  unfold SeriesKeyBytesSize_slices. cbn [len].
  assert (G : forall z tv',
             Forall2 tag_lens tagsS tv' ->
             length tv' = length tv
             /\ length (tag_bytes tv') = length (tag_bytes tv)
             /\ fold_left (fun n tag => n + len (KeySlice tag)
                                        + len (ValueSlice tag)) tagsS z
                = z + blen (tag_bytes tv));
    [|intros tv'; apply (G 0)].
  induction H as [|tS v tagsS tv [Hk Hv] _ IH]; intros z tv' H'.
  - apply Forall2_nil_inv_l in H'. subst tv'.
    repeat split. unfold blen. cbn. lia.
  - apply Forall2_cons_inv_l in H' as (v' & tv'' & [Hk' Hv'] & H' & ->).
    cbn [fold_left length].
    destruct (IH (z + len (KeySlice tS) + len (ValueSlice tS)) tv'' H')
      as (E1 & E2 & E3).
    rewrite !tag_bytes_cons, E3. unfold blen in *. rewrite !length_app.
    repeat split; lia.
Qed.

(** The tag loop on tags in memory: it writes the lengths of the slices
    and, for each key and value, the bytes that its slice shows when it is
    copied. *)
Lemma AppendSeriesKey_tags_slices_run (tagsS : list TagSlices) :
  forall (tv : Tags) (h0 : heap) (p : nat) (o n c opos bpos : Z)
         (arr lpre A X1 B X2 post : list byte),
    (p < length h0)%nat ->
    arr = lpre ++ A ++ X1 ++ B ++ X2 ++ post ->
    Z.of_nat (length lpre) = o ->
    Z.of_nat (length A) = opos ->
    length X1 = (4 * length tv)%nat ->
    Z.of_nat (length A + length X1 + length B) = bpos ->
    length X2 = length (tag_bytes tv) ->
    bpos + blen X2 <= n -> n <= c ->
    Forall2 tag_lens tagsS tv ->
    Forall (fun t => readable (<[p := arr]> h0) (KeySlice t)
                     /\ readable (<[p := arr]> h0) (ValueSlice t)) tagsS ->
    exists tags',
      Forall2 tag_lens tagsS tags'
      /\ AppendSeriesKey_tags_slices (Some (Slice p o n c)) tagsS opos bpos
           (<[p := arr]> h0)
         = Ok (tt, <[p := lpre ++ A ++ tag_lengths tags' ++ B
                          ++ tag_bytes tags' ++ post]> h0).
Proof.
  induction tagsS as [|tS tagsS IH];
    intros tv h0 p o n c opos bpos arr lpre A X1 B X2 post
           Hp Harr Ho HA HX1 Hb HX2 Hn Hc Hlens Hread.
  - apply Forall2_nil_inv_l in Hlens. subst tv.
    destruct X1; [|discriminate HX1]. destruct X2; [|discriminate HX2].
    exists []. split; [constructor|]. subst arr. reflexivity.
  - apply Forall2_cons_inv_l in Hlens as (t & tv' & [Hlk Hlv] & Hlens & ->).
    rename tv' into tv.
    apply Forall_cons in Hread as [[Hrk Hrv] Hread].
    rewrite tag_bytes_cons, !length_app in HX2.
    destruct (split_length X1 2) as (xk & X1a & -> & Hxk);
      [cbn [length] in HX1; lia|].
    rewrite length_app in HX1. cbn [length] in HX1.
    destruct (split_length X1a 2) as (xv & X1' & -> & Hxv); [lia|].
    rewrite length_app in HX1.
    destruct (split_length X2 (length (Key t))) as (k & X2a & -> & Hk); [lia|].
    rewrite length_app in HX2.
    destruct (split_length X2a (length (Value t))) as (v & X2' & -> & Hv); [lia|].
    rewrite length_app in HX2.
    unfold blen in Hn. rewrite !length_app in Hn, Hb.
    assert (Hlen : forall arr', length arr' = length arr ->
              (exists x, contents (<[p := arr']> h0) (KeySlice tS) = Ok x
                         /\ length x = length (Key t))
              /\ (exists y, contents (<[p := arr']> h0) (ValueSlice tS) = Ok y
                            /\ length y = length (Value t))
              /\ Forall (fun t => readable (<[p := arr']> h0) (KeySlice t)
                                  /\ readable (<[p := arr']> h0)
                                       (ValueSlice t)) tagsS).
    { intros arr' Hl'.
      destruct (readable_reinsert h0 p arr arr' _ Hp Hl' Hrk) as [x Hx].
      destruct (readable_reinsert h0 p arr arr' _ Hp Hl' Hrv) as [y Hy].
      pose proof (contents_len _ _ _ Hx) as Hlx.
      pose proof (contents_len _ _ _ Hy) as Hly.
      unfold blen in *.
      split; [exists x; split; [exact Hx|lia]|].
      split; [exists y; split; [exact Hy|lia]|].
      eapply Forall_impl; [exact Hread|].
      intros t0 [H1 H2].
      split; eapply (readable_reinsert h0 p arr arr'); eassumption. }
    assert (Harrl : length arr
                    = (length lpre + (length A + (2 + (2 + length X1')
                       + (length B + (length (Key t) + (length (Value t)
                       + length X2' + length post))))))%nat).
    { subst arr. rewrite !length_app. lia. }
    cbn [AppendSeriesKey_tags_slices].
    erewrite PutUint16_at
      with (l1 := lpre ++ A) (x := xk)
           (l2 := xv ++ X1' ++ B ++ k ++ v ++ X2' ++ post);
      [|subst arr; side..].
    destruct (Hlen ((lpre ++ A) ++ be16 (uint16 (len (KeySlice tS)))
                    ++ xv ++ X1' ++ B ++ k ++ v ++ X2' ++ post))
      as ((x & Hx & Hxl) & _ & _);
      [rewrite Harrl, !length_app, be16_length; lia|].
    assert (Ekx : len (KeySlice tS) = blen x) by (unfold blen in *; lia).
    rewrite Ekx in *.
    erewrite copy_from_at
      with (l1 := lpre ++ A ++ be16 (uint16 (blen x)) ++ xv ++ X1' ++ B)
           (x := k) (l2 := v ++ X2' ++ post) (src := x);
      [|side..].
    erewrite PutUint16_at
      with (l1 := lpre ++ A ++ be16 (uint16 (blen x))) (x := xv)
           (l2 := X1' ++ B ++ x ++ v ++ X2' ++ post); [|side..].
    destruct (Hlen ((lpre ++ A ++ be16 (uint16 (blen x)))
                    ++ be16 (uint16 (len (ValueSlice tS)))
                    ++ X1' ++ B ++ x ++ v ++ X2' ++ post))
      as (_ & (y & Hy & Hyl) & _);
      [rewrite Harrl, !length_app, !be16_length; lia|].
    assert (Eky : len (ValueSlice tS) = blen y) by (unfold blen in *; lia).
    rewrite Eky in *.
    erewrite copy_from_at
      with (l1 := lpre ++ A ++ be16 (uint16 (blen x))
                  ++ be16 (uint16 (blen y)) ++ X1' ++ B ++ x)
           (x := v) (l2 := X2' ++ post) (src := y);
      [|side..].
    destruct (Hlen ((lpre ++ A ++ be16 (uint16 (blen x))
                     ++ be16 (uint16 (blen y)) ++ X1' ++ B ++ x)
                    ++ y ++ X2' ++ post))
      as (_ & _ & Hread');
      [rewrite Harrl, !length_app, !be16_length; lia|].
    destruct (IH tv h0 p o n c (opos + 4)
                (bpos + blen x + blen y)
                ((lpre ++ A ++ be16 (uint16 (blen x))
                  ++ be16 (uint16 (blen y)) ++ X1' ++ B ++ x)
                 ++ y ++ X2' ++ post)
                lpre
                (A ++ be16 (uint16 (blen x)) ++ be16 (uint16 (blen y)))
                X1' (B ++ x ++ y) X2' post)
      as (tags' & Hlens' & Hrun);
      [first [assumption|list_eq
             |unfold blen in *;
              rewrite ?length_app, ?be16_length in *; lia]..|].
    exists (mkTag x y :: tags').
    split; [constructor; [split; cbn [Key Value]; lia|exact Hlens']|].
    replace (opos + 2 + 2) with (opos + 4) by lia.
    rewrite Hrun.
    rewrite tag_lengths_cons, tag_bytes_cons. cbn [Key Value].
    do 3 f_equal. list_eq.
Qed.

(** Making room, in the three cases of [AppendSeriesKey_room]. *)
Lemma AppendSeriesKey_room_nil (size : Z) (h : heap) :
  0 <= size ->
  AppendSeriesKey_room None size h
  = Ok ((Some (Slice (length h) 0 size size),
         Some (Slice (length h) 0 size size)),
        <[length h := [] ++ replicate (Z.to_nat size) Init.Byte.x00 ++ []]>
          (h ++ [replicate (Z.to_nat size) Init.Byte.x00])).
Proof.
  intros Hsize.
  unfold AppendSeriesKey_room, make, bind, ret. cbn [is_nil].
  test_true.
  rewrite insert_app_r_alt, Nat.sub_diag by lia.
  cbn. by rewrite app_nil_r.
Qed.

Lemma AppendSeriesKey_room_grow (size : Z) (h : heap) (p : nat) (o n c : Z)
    (old : list byte) :
  contents h (Some (Slice p o n c)) = Ok old ->
  0 <= n -> 0 <= size ->
  c - n < size ->
  AppendSeriesKey_room (Some (Slice p o n c)) size h
  = Ok ((Some (Slice (length h) 0 (n + size) (n + size)),
         Some (Slice (length h) n size size)),
        <[length h := old ++ replicate (Z.to_nat size) Init.Byte.x00 ++ []]>
          (h ++ [old ++ replicate (Z.to_nat size) Init.Byte.x00])).
Proof.
  intros Hold Hn Hsize Hc.
  set (zeros := replicate (Z.to_nat size) Init.Byte.x00).
  assert (Hlen : Z.of_nat (length old) = n).
  { pose proof (contents_len _ _ _ Hold) as E. cbn [len s_len] in E.
    exact E. }
  rewrite insert_app_r_alt, Nat.sub_diag by lia.
  cbn [insert list_insert]. rewrite app_nil_r.
  unfold AppendSeriesKey_room, copy, reading.
  unfold bind, ret, make, reslice.
  cbn [is_nil len cap s_ptr s_off s_len s_cap].
  test_true.
  assert (Hold' : contents (h ++ [replicate (Z.to_nat (n + size))
                                    Init.Byte.x00])
                    (Some (Slice p o n c)) = Ok old).
  { unfold contents in *. cbn [s_ptr s_off s_len] in *.
    destruct (h !! p) as [arr|] eqn:E; [|discriminate].
    by rewrite (lookup_app_l_Some _ _ _ _ E). }
  rewrite Hold'. unfold lift, copy_in.
  cbn [len cap s_ptr s_off s_len s_cap].
  rewrite lookup_app_r, Nat.sub_diag by lia. cbn [lookup list_lookup].
  rewrite length_replicate. run.
  unfold blen. rewrite Hlen, Z.min_id.
  replace (Z.to_nat n) with (length old) by lia. rewrite firstn_all.
  unfold overwrite. rewrite drop_replicate.
  rewrite !insert_app_r_alt, !Nat.sub_diag by lia.
  cbn [insert list_insert app].
  change (Z.to_nat 0) with 0%nat. rewrite take_0, Nat.add_0_l.
  replace (Z.to_nat (n + size) - length old)%nat with (Z.to_nat size) by lia.
  fold zeros.
  repeat first [lia | progress f_equal].
Qed.

Lemma AppendSeriesKey_room_in_place (size : Z) (h : heap) (p : nat)
    (o n c : Z) (lpre old W post : list byte) :
  h !! p = Some (lpre ++ old ++ W ++ post) ->
  Z.of_nat (length lpre) = o ->
  Z.of_nat (length old) = n ->
  0 <= size ->
  n + size <= c ->
  AppendSeriesKey_room (Some (Slice p o n c)) size h
  = Ok ((Some (Slice p o (n + size) c), Some (Slice p (o + n) size (c - n))),
        <[p := (lpre ++ old) ++ W ++ post]> h).
Proof.
  intros Hh Ho Hn Hsize Hc.
  unfold AppendSeriesKey_room, bind, ret, lift, reslice.
  cbn [is_nil len cap s_ptr s_off s_len s_cap].
  test_false. run.
  rewrite list_insert_id by (rewrite Hh; f_equal; list_eq).
  repeat first [lia | progress f_equal].
Qed.

Lemma SeriesKeyBytesSize_slices_lens (name : bytes) (tagsS : list TagSlices)
    (nm : list byte) (tv : Tags) :
  blen nm = len name ->
  Forall2 tag_lens tagsS tv ->
  SeriesKeyBytesSize_slices name tagsS = SeriesKeyBytesSize nm tv.
Proof.
  intros Hn Ht. unfold SeriesKeyBytesSize_slices, SeriesKeyBytesSize.
  rewrite <- Hn. generalize (blen nm). clear Hn.
  induction Ht as [|t v tagsS tv [Hk Hv] _ IH]; intros z; [reflexivity|].
  cbn [fold_left]. rewrite Hk, Hv. apply IH.
Qed.

Lemma SeriesKeySize_slices_lens (name : bytes) (tagsS : list TagSlices)
    (nm : list byte) (tv : Tags) :
  blen nm = len name ->
  Forall2 tag_lens tagsS tv ->
  SeriesKeySize_slices name tagsS = SeriesKeySize nm tv.
Proof.
  intros Hn Ht. unfold SeriesKeySize_slices, SeriesKeySize.
  by rewrite (SeriesKeyBytesSize_slices_lens _ _ _ _ Hn Ht),
             (Forall2_length _ _ _ Ht).
Qed.

Lemma tag_shows_lens (h : heap) (tagsS : list TagSlices) (tv : Tags) :
  Forall2 (tag_shows h) tagsS tv -> Forall2 tag_lens tagsS tv.
Proof.
  intros H. eapply Forall2_impl; [exact H|].
  intros t v [Hk Hv].
  split; symmetry; eapply contents_len; eassumption.
Qed.

Lemma tag_shows_readable (h : heap) (tagsS : list TagSlices) (tv : Tags) :
  Forall2 (tag_shows h) tagsS tv ->
  Forall (fun t => readable h (KeySlice t) /\ readable h (ValueSlice t))
         tagsS.
Proof.
  induction 1 as [|t v tagsS tv [Hk Hv] _ IH]; constructor; [|exact IH].
  split; eexists; eassumption.
Qed.

(** Once room is made, [AppendSeriesKey] on any arguments in memory writes
    over [W] the layout of some name and tags that have the lengths of the
    arguments. *)
Lemma AppendSeriesKey_slices_fill_run (dst dst' name : bytes)
    (tagsS : list TagSlices) (nm : list byte) (tv : Tags)
    (h h0 : heap) (p : nat) (o c : Z) (lpre W post : list byte) :
  blen nm = len name ->
  Forall2 tag_lens tagsS tv ->
  AppendSeriesKey_room dst (SeriesKeySize nm tv) h
  = Ok ((dst', Some (Slice p o (SeriesKeySize nm tv) c)),
        <[p := lpre ++ W ++ post]> h0) ->
  (p < length h0)%nat ->
  Z.of_nat (length lpre) = o ->
  blen W = SeriesKeySize nm tv ->
  SeriesKeySize nm tv <= c ->
  readable (<[p := lpre ++ W ++ post]> h0) name ->
  Forall (fun t => readable (<[p := lpre ++ W ++ post]> h0) (KeySlice t)
                   /\ readable (<[p := lpre ++ W ++ post]> h0)
                        (ValueSlice t)) tagsS ->
  exists nm' tv',
    blen nm' = len name
    /\ Forall2 tag_lens tagsS tv'
    /\ AppendSeriesKey_slices dst name tagsS h
       = Ok (dst', <[p := lpre ++ key_layout nm' tv' ++ post]> h0).
Proof.
  intros Hln Hlt Hroom Hp Ho HW Hc Hrn Hrt.
  unfold AppendSeriesKey_slices.
  rewrite (SeriesKeyBytesSize_slices_lens _ _ _ _ Hln Hlt).
  rewrite (Forall2_length _ _ _ Hlt).
  change (SeriesKeyOffsetsSize (Z.of_nat (length tv))
          + SeriesKeyBytesSize nm tv + 4)
    with (SeriesKeySize nm tv).
  unfold bind at 1. rewrite Hroom. cbn [fst snd].
  assert (Hre : forall arr' b,
             length arr' = length (lpre ++ W ++ post) ->
             readable (<[p := lpre ++ W ++ post]> h0) b ->
             readable (<[p := arr']> h0) b).
  { intros arr' b Hl Hb.
    by apply (readable_reinsert h0 p (lpre ++ W ++ post) arr' b). }
  unfold SeriesKeySize, SeriesKeyOffsetsSize in *.
  rewrite SeriesKeyBytesSize_payload in *.
  assert (Hpl : blen (key_payload nm tv)
                = Z.of_nat (length nm + length (tag_bytes tv)))
    by (unfold key_payload, blen; rewrite length_app; reflexivity).
  set (ofs := be16 (uint16 (2 + 2 * 2 * Z.of_nat (length tv)))).
  set (pls := be16 (uint16 (blen (key_payload nm tv)))).
  rewrite Hpl in HW, Hc. unfold blen in HW.
  destruct (split_length W 2) as (w1 & Wa & -> & Hw1); [lia|].
  rewrite length_app in HW.
  destruct (split_length Wa 2) as (w2 & Wb & -> & Hw2); [lia|].
  rewrite length_app in HW.
  destruct (split_length Wb (4 * length tv)) as (X1 & Wc & -> & HX1); [lia|].
  rewrite length_app in HW.
  destruct (split_length Wc 2) as (w3 & Wd & -> & Hw3); [lia|].
  rewrite length_app in HW.
  destruct (split_length Wd (length nm)) as (wn & X2 & -> & Hwn); [lia|].
  rewrite length_app in HW.
  repeat rewrite length_app in Hre.
  assert (Hofs : length ofs = 2%nat) by reflexivity.
  assert (Hpls : length pls = 2%nat) by reflexivity.
  destruct (Hre (lpre ++ ofs ++ be16 (uint16 (len name)) ++ X1 ++ pls
                 ++ wn ++ X2 ++ post) name) as [x Hx];
    [rewrite !length_app, !be16_length; lia|exact Hrn|].
  pose proof (contents_len _ _ _ Hx) as Hlx.
  rewrite <- Hlx in *.
  set (nml := be16 (uint16 (blen x))) in *.
  assert (Hnml : length nml = 2%nat) by reflexivity.
  assert (Hxn : length x = length nm) by (unfold blen in *; lia).
  erewrite PutUint16_at
    with (l1 := lpre) (x := w1)
         (l2 := w2 ++ X1 ++ w3 ++ wn ++ X2 ++ post); [|side..].
  erewrite PutUint16_at
    with (l1 := lpre ++ ofs) (x := w2)
         (l2 := X1 ++ w3 ++ wn ++ X2 ++ post); [|side..].
  erewrite PutUint16_at
    with (l1 := lpre ++ ofs ++ nml ++ X1) (x := w3)
         (l2 := wn ++ X2 ++ post); [|side..].
  erewrite copy_from_at
    with (l1 := lpre ++ ofs ++ nml ++ X1 ++ pls) (x := wn)
         (l2 := X2 ++ post) (src := x); [|try side..].
  2: { rewrite <- Hx. do 2 f_equal. list_eq. }
  unfold bind.
  destruct (AppendSeriesKey_tags_slices_run tagsS tv h0 p o
              (2 + 2 * 2 * Z.of_nat (length tv)
               + blen (key_payload nm tv) + 4) c
              (0 + 2 + 2)
              (2 + 2 * 2 * Z.of_nat (length tv) + 2 + 2 + blen x)
              ((lpre ++ ofs ++ nml ++ X1 ++ pls) ++ x ++ X2 ++ post)
              lpre (ofs ++ nml) X1 (pls ++ x) X2 post)
    as (tv' & Hlt' & Hrun);
    [first [assumption|list_eq
           |unfold blen in *;
            rewrite ?length_app, ?be16_length in *; lia]..| |].
  { eapply Forall_impl; [exact Hrt|].
    intros t [H1 H2].
    split; apply Hre; try assumption; rewrite !length_app; lia. }
  exists x, tv'.
  split; [reflexivity|]. split; [exact Hlt'|].
  rewrite Hrun.
  destruct (tag_lens_bytes tagsS tv tv' Hlt Hlt') as (E1 & E2 & _).
  unfold ret, key_layout, key_payload. subst ofs nml pls.
  replace (2 + 2 * 2 * Z.of_nat (length tv))
    with (2 + 4 * Z.of_nat (length tv')) by lia.
  replace (blen (key_payload nm tv)) with (blen (x ++ tag_bytes tv'))
    by (unfold key_payload, blen; rewrite !length_app; lia).
  do 3 f_equal. list_eq.
Qed.

(** On any arguments in memory, overlapping [dst] or not, the encoder does
    what it does on some name and tags that have the lengths of the
    arguments. *)
Lemma AppendSeriesKey_slices_run (dst name : bytes) (tagsS : list TagSlices)
    (nm : list byte) (tv : Tags) (h : heap) :
  valid h dst ->
  contents h name = Ok nm ->
  Forall2 (tag_shows h) tagsS tv ->
  exists nm' tv',
    blen nm' = len name
    /\ Forall2 tag_lens tagsS tv'
    /\ AppendSeriesKey_slices dst name tagsS h = AppendSeriesKey dst nm' tv' h.
Proof.
  intros Hv Hn Ht.
  pose proof (contents_len _ _ _ Hn) as Hln.
  pose proof (tag_shows_lens _ _ _ Ht) as Hlt.
  pose proof (tag_shows_readable _ _ _ Ht) as Hrt.
  assert (Hrn : readable h name) by (by exists nm).
  pose proof (SeriesKeySize_min nm tv) as Hmin.
  assert (Hsame : forall nm' tv',
             blen nm' = len name -> Forall2 tag_lens tagsS tv' ->
             SeriesKeySize nm' tv' = SeriesKeySize nm tv).
  { intros nm' tv' H1 H2.
    by rewrite <- (SeriesKeySize_slices_lens name tagsS nm' tv'),
               <- (SeriesKeySize_slices_lens name tagsS nm tv). }
  set (size := SeriesKeySize nm tv) in *.
  set (zeros := replicate (Z.to_nat size) Init.Byte.x00).
  assert (Hz : blen zeros = size)
    by (unfold blen, zeros; rewrite length_replicate; lia).
  destruct dst as [s|].
  - destruct (valid_contents h s Hv)
      as (arr & lpre & old & spare & Harr & -> & Hl & Hold & Hcap & Hc).
    destruct s as [p o n c]. cbn [s_ptr s_off s_len s_cap] in *.
    assert (Hp : (p < length h)%nat) by (eapply lookup_lt_Some; exact Harr).
    destruct (Z.lt_ge_cases (c - n) size) as [Hg|Hr].
    + pose proof (AppendSeriesKey_room_grow size h p o n c old Hc) as Hroom.
      fold zeros in Hroom.
      destruct (AppendSeriesKey_slices_fill_run _ _ name tagsS nm tv h _
                  (length h) n size old zeros [] Hln Hlt
                  (Hroom ltac:(lia) ltac:(lia) Hg))
        as (nm' & tv' & H1 & H2 & Hrun);
        [rewrite length_app; cbn; lia|exact Hold|exact Hz|lia
        |by apply readable_extend
        |eapply Forall_impl; [exact Hrt|];
         intros t [Hk Hv']; split; by apply readable_extend|].
      exists nm', tv'. split; [exact H1|]. split; [exact H2|].
      rewrite Hrun. symmetry.
      pose proof (Hsame nm' tv' H1 H2) as Es.
      apply AppendSeriesKey_fill with (o := n) (c := size) (W := zeros);
        rewrite ?Es; fold size;
        [apply Hroom; lia|rewrite length_app; cbn; lia|exact Hold
        |exact Hz|lia].
    + destruct (split_length spare (Z.to_nat size)) as (W & post & -> & HW);
        [lia|].
      pose proof (AppendSeriesKey_room_in_place size h p o n c lpre old W
                    post Harr Hl Hold) as Hroom.
      assert (Hins : forall b, readable h b ->
                readable (<[p := (lpre ++ old) ++ W ++ post]> h) b).
      { intros b Hb.
        apply (readable_insert h p (lpre ++ old ++ W ++ post)); auto.
        rewrite !length_app. lia. }
      destruct (AppendSeriesKey_slices_fill_run _ _ name tagsS nm tv h _
                  p (o + n) (c - n) (lpre ++ old) W post Hln Hlt
                  (Hroom ltac:(lia) ltac:(lia)))
        as (nm' & tv' & H1 & H2 & Hrun);
        [exact Hp|rewrite length_app; lia|unfold blen; lia|lia
        |by apply Hins
        |eapply Forall_impl; [exact Hrt|];
         intros t [Hk Hv']; split; by apply Hins|].
      exists nm', tv'. split; [exact H1|]. split; [exact H2|].
      rewrite Hrun. symmetry.
      pose proof (Hsame nm' tv' H1 H2) as Es.
      apply AppendSeriesKey_fill with (o := o + n) (c := c - n) (W := W);
        rewrite ?Es; fold size;
        [apply Hroom; lia|exact Hp|rewrite length_app; lia
        |unfold blen; lia|lia].
  - pose proof (AppendSeriesKey_room_nil size h) as Hroom.
    fold zeros in Hroom.
    destruct (AppendSeriesKey_slices_fill_run _ _ name tagsS nm tv h _
                (length h) 0 size [] zeros [] Hln Hlt (Hroom ltac:(lia)))
      as (nm' & tv' & H1 & H2 & Hrun);
      [rewrite length_app; cbn; lia|reflexivity|exact Hz|lia
      |by apply readable_extend
      |eapply Forall_impl; [exact Hrt|];
       intros t [Hk Hv']; split; by apply readable_extend|].
    exists nm', tv'. split; [exact H1|]. split; [exact H2|].
    rewrite Hrun. symmetry.
    pose proof (Hsame nm' tv' H1 H2) as Es.
    apply AppendSeriesKey_fill with (o := 0) (c := size) (W := zeros);
      rewrite ?Es; fold size;
      [apply Hroom; lia|rewrite length_app; cbn; lia|reflexivity
      |exact Hz|lia].
Qed.

(** ** Appending preserves what was there *)

Lemma SeriesKeySize_slices_shows (h : heap) (name : bytes)
    (tagsS : list TagSlices) (nm : list byte) (tags : Tags) :
  contents h name = Ok nm ->
  Forall2 (tag_shows h) tagsS tags ->
  SeriesKeySize_slices name tagsS = SeriesKeySize nm tags.
Proof.
  intros Hn Ht. unfold SeriesKeySize_slices, SeriesKeySize.
  by rewrite (SeriesKeyBytesSize_slices_shows _ _ _ _ _ Hn Ht),
             (Forall2_length _ _ _ Ht).
Qed.

(** C8 (append preserves the prefix): for a valid non-nil [dst], with or
    without enough spare capacity, and any name and tags in memory,
    [AppendSeriesKey(dst, name, tags)] returns a buffer of length
    [len(dst) + SeriesKeySize(name, tags)] whose first [len(dst)] bytes are
    the contents of [dst]; [dst] itself still shows its contents.  The last
    bytes of the buffer are the key that [AppendSeriesKey(nil, name, tags)]
    makes when no byte of the name and tags lies among the bytes written
    in place after the end of [dst]; when [dst] has to grow the arguments
    may lie anywhere. *)
Theorem AppendSeriesKey_preserves_prefix (name : bytes)
    (tags : list TagSlices) (nm : list byte) (tv : Tags) (h : heap)
    (s : slice) :
  valid h (Some s) ->
  contents h name = Ok nm ->
  Forall2 (tag_shows h) tags tv ->
  exists old enc k0 h0 dst' h' bs,
    contents h (Some s) = Ok old
    /\ AppendSeriesKey_slices None name tags h = Ok (k0, h0)
    /\ contents h0 k0 = Ok enc
    /\ (forall h1, exists k1 h1',
           AppendSeriesKey None nm tv h1 = Ok (k1, h1')
           /\ contents h1' k1 = Ok enc)
    /\ blen enc = SeriesKeySize_slices name tags
    /\ AppendSeriesKey_slices (Some s) name tags h = Ok (dst', h')
    /\ len dst' = len (Some s) + SeriesKeySize_slices name tags
    /\ contents h' dst' = Ok bs
    /\ blen bs = len (Some s) + SeriesKeySize_slices name tags
    /\ take (Z.to_nat (len (Some s))) bs = old
    /\ contents h' (Some s) = Ok old
    /\ ((SeriesKeySize_slices name tags <= s_cap s - s_len s ->
         args_clear name tags s (SeriesKeySize_slices name tags)) ->
        drop (Z.to_nat (len (Some s))) bs = enc).
Proof.
  intros Hv Hn Ht.
  rewrite (SeriesKeySize_slices_shows h name tags nm tv Hn Ht) in *.
  destruct (AppendSeriesKey_slices_run (Some s) name tags nm tv h Hv Hn Ht)
    as (nm' & tv' & Hl1 & Hl2 & Hrun).
  assert (Es : SeriesKeySize nm' tv' = SeriesKeySize nm tv).
  { by rewrite <- (SeriesKeySize_slices_lens name tags nm' tv'),
               (SeriesKeySize_slices_shows h name tags nm tv). }
  destruct (valid_contents h s Hv)
    as (arr & lpre & old0 & spare & _ & _ & _ & Hold & _ & Hc0).
  destruct (AppendSeriesKey_some nm' tv' h s Hv)
    as (old & dst' & h' & Hc & Happ & Hlen & Hnew & Hkeep).
  assert (old0 = old) by congruence. subst old0.
  rewrite Es in Hlen.
  exists old, (key_layout nm tv). eexists _, _. exists dst', h'.
  exists (old ++ key_layout nm' tv').
  cbn [len]. rewrite <- Hold, Nat2Z.id.
  split; [exact Hc|].
  split; [rewrite (AppendSeriesKey_slices_by_value None name tags nm tv h I
                     Hn Ht) by discriminate;
          apply AppendSeriesKey_nil|].
  split; [apply key_contents|].
  split; [intros h1; eexists _, _; split;
          [apply AppendSeriesKey_nil|apply key_contents]|].
  split; [apply key_layout_length|].
  split; [by rewrite Hrun|].
  split; [lia|].
  split; [exact Hnew|].
  split; [unfold blen; rewrite length_app, <- Es, SeriesKeySize_layout; lia|].
  split; [apply take_app_length|].
  split; [exact Hkeep|].
  intros Hclear. rewrite drop_app_length.
  destruct (AppendSeriesKey_some nm tv h s Hv)
    as (old2 & dst2 & h2 & Hc2 & Happ2 & _ & Hnew2 & _).
  rewrite <- (AppendSeriesKey_slices_by_value (Some s) name tags nm tv h Hv
                Hn Ht) in Happ2
    by (intros s' [= <-] Hr; apply Hclear; lia).
  rewrite Hrun, Happ in Happ2.
  assert (dst2 = dst' /\ h2 = h') as [-> ->] by (split; congruence).
  assert (old2 = old) by congruence. subst old2.
  rewrite Hnew in Hnew2. injection Hnew2 as E.
  by apply app_inv_head in E.
Qed.

Lemma AppendSeriesKey_preserves_prefix_witness :
  let h : heap := [[Init.Byte.x01; Init.Byte.x02]
                     ++ replicate 30 Init.Byte.x00;
                   aaa ++ [Init.Byte.x74; Init.Byte.x61; Init.Byte.x61;
                           Init.Byte.x61; Init.Byte.x76; Init.Byte.x61;
                           Init.Byte.x61; Init.Byte.x61]] in
  let s := Slice 0 0 2 32 in
  let name : bytes := Some (Slice 1 0 3 11) in
  let tags := [mkTagSlices (Some (Slice 1 3 4 8)) (Some (Slice 1 7 4 4))] in
  valid h (Some s)
  /\ contents h name = Ok aaa
  /\ Forall2 (tag_shows h) tags taaa_vaaa
  /\ SeriesKeySize_slices name tags <= s_cap s - s_len s
  /\ args_clear name tags s (SeriesKeySize_slices name tags)
  /\ exists old enc k0 h0 dst' h' bs,
       contents h (Some s) = Ok old
       /\ AppendSeriesKey_slices None name tags h = Ok (k0, h0)
       /\ contents h0 k0 = Ok enc
       /\ (forall h1, exists k1 h1',
              AppendSeriesKey None aaa taaa_vaaa h1 = Ok (k1, h1')
              /\ contents h1' k1 = Ok enc)
       /\ blen enc = SeriesKeySize_slices name tags
       /\ AppendSeriesKey_slices (Some s) name tags h = Ok (dst', h')
       /\ len dst' = len (Some s) + SeriesKeySize_slices name tags
       /\ contents h' dst' = Ok bs
       /\ blen bs = len (Some s) + SeriesKeySize_slices name tags
       /\ take (Z.to_nat (len (Some s))) bs = old
       /\ contents h' (Some s) = Ok old
       /\ drop (Z.to_nat (len (Some s))) bs = enc.
Proof.
  intros h s name tags.
  assert (Hv : valid h (Some s)).
  { eexists. split; [reflexivity|]. cbn. repeat split; lia. }
  assert (Hn : contents h name = Ok aaa) by reflexivity.
  assert (Ht : Forall2 (tag_shows h) tags taaa_vaaa).
  { repeat constructor. }
  assert (Hroom : SeriesKeySize_slices name tags <= s_cap s - s_len s).
  { apply Z.leb_le. reflexivity. }
  assert (Hclear : args_clear name tags s (SeriesKeySize_slices name tags)).
  { split; [right; left; cbn; lia|].
    constructor; [|constructor]. split; right; left; cbn; lia. }
  split; [exact Hv|]. split; [exact Hn|]. split; [exact Ht|].
  split; [exact Hroom|]. split; [exact Hclear|].
  destruct (AppendSeriesKey_preserves_prefix name tags aaa taaa_vaaa h s
              Hv Hn Ht)
    as (old & enc & k0 & h0 & dst' & h' & bs & H1 & H2 & H3 & H4 & H5 & H6
        & H7 & H8 & H9 & H10 & H11 & H12).
  exists old, enc, k0, h0, dst', h', bs.
  repeat (split; [assumption|]).
  exact (H12 (fun _ => Hclear)).
Defined.

(** With the name in the spare capacity of [dst] the bytes appended are not
    the key: the headers are written before the name is copied.  On the
    buffer [cpu_buf], with [dst = buf[:0]] and [name = buf[4:7]], which
    shows [cpu], nine bytes are appended and they end with [00 03 75], not
    with [cpu]. *)
Lemma AppendSeriesKey_overlapping_name :
  valid cpu_buf (Some cpu_dst)
  /\ contents cpu_buf cpu_view = Ok cpu_name
  /\ exists k0 h0 dst' h' bs,
       AppendSeriesKey_slices None cpu_view [] cpu_buf = Ok (k0, h0)
       /\ contents h0 k0
          = Ok [Init.Byte.x00; Init.Byte.x02; Init.Byte.x00; Init.Byte.x03;
                Init.Byte.x00; Init.Byte.x03; Init.Byte.x63; Init.Byte.x70;
                Init.Byte.x75]
       /\ AppendSeriesKey_slices (Some cpu_dst) cpu_view [] cpu_buf
          = Ok (dst', h')
       /\ len dst' = len (Some cpu_dst) + SeriesKeySize_slices cpu_view []
       /\ contents h' dst' = Ok bs
       /\ drop (Z.to_nat (len (Some cpu_dst))) bs
          = [Init.Byte.x00; Init.Byte.x02; Init.Byte.x00; Init.Byte.x03;
             Init.Byte.x00; Init.Byte.x03; Init.Byte.x00; Init.Byte.x03;
             Init.Byte.x75]
       /\ contents h' dst' <> contents h0 k0.
Proof.
  split; [eexists; split; [reflexivity|cbn; repeat split; lia]|].
  split; [reflexivity|].
  eexists _, _, _, _, _.
  split; [vm_compute; reflexivity|].
  split; [vm_compute; reflexivity|].
  split; [vm_compute; reflexivity|].
  split; [vm_compute; reflexivity|].
  split; [vm_compute; reflexivity|].
  split; [vm_compute; reflexivity|].
  vm_compute. discriminate.
Qed.

(** ** Lexicographic comparison *)

Lemma bytes_Compare_refl (a : list byte) : bytes_Compare a a = 0.
Proof.
  induction a as [|x a IH]; [reflexivity|].
  cbn [bytes_Compare]. rewrite Z.ltb_irrefl. exact IH.
Qed.

Lemma bytes_Compare_range (a b : list byte) :
  bytes_Compare a b = -1 \/ bytes_Compare a b = 0 \/ bytes_Compare a b = 1.
Proof.
  revert b. induction a as [|x a IH]; intros [|y b]; cbn [bytes_Compare];
    auto.
  destruct (byte_to_Z x <? byte_to_Z y); [auto|].
  destruct (byte_to_Z y <? byte_to_Z x); auto.
Qed.

Lemma bytes_Compare_antisym (a b : list byte) :
  bytes_Compare a b = - bytes_Compare b a.
Proof.
  revert b. induction a as [|x a IH]; intros [|y b]; cbn [bytes_Compare];
    try reflexivity.
  destruct (Z.ltb_spec (byte_to_Z x) (byte_to_Z y));
    destruct (Z.ltb_spec (byte_to_Z y) (byte_to_Z x));
    try reflexivity; try lia.
  apply IH.
Qed.

Lemma bytes_Compare_eq (a b : list byte) :
  bytes_Compare a b = 0 <-> a = b.
Proof.
  split; [|intros ->; apply bytes_Compare_refl].
  revert b. induction a as [|x a IH]; intros [|y b]; cbn [bytes_Compare];
    try reflexivity; try discriminate.
  destruct (Z.ltb_spec (byte_to_Z x) (byte_to_Z y)); [discriminate|].
  destruct (Z.ltb_spec (byte_to_Z y) (byte_to_Z x)); [discriminate|].
  intros E. f_equal; [apply byte_to_Z_inj; lia|apply IH; exact E].
Qed.

Lemma bytes_Compare_lt (a b : list byte) :
  bytes_Compare a b = -1 <-> lex_lt a b.
Proof.
  split.
  - revert b. induction a as [|x a IH]; intros [|y b]; cbn [bytes_Compare];
      try discriminate.
    + intros _. left. by exists y, b.
    + destruct (Z.ltb_spec (byte_to_Z x) (byte_to_Z y)) as [Hlt|Hge].
      * intros _. right. by exists [], x, y, a, b.
      * destruct (Z.ltb_spec (byte_to_Z y) (byte_to_Z x)) as [Hgt|Hle];
          [discriminate|].
        assert (x = y) as -> by (apply byte_to_Z_inj; lia).
        intros E. destruct (IH b E) as [(z & t & ->)|(p & u & v & ta & tb & -> & -> & Huv)].
        -- left. by exists z, t.
        -- right. by exists (y :: p), u, v, ta, tb.
  - intros [(y & t & ->)|(p & x & y & ta & tb & -> & -> & Hxy)].
    + induction a as [|x a IH]; [reflexivity|].
      cbn [bytes_Compare app]. rewrite Z.ltb_irrefl. exact IH.
    + induction p as [|z p IH]; cbn [bytes_Compare app].
      * by apply Z.ltb_lt in Hxy as ->.
      * rewrite Z.ltb_irrefl. exact IH.
Qed.

Lemma bytes_Compare_gt (a b : list byte) :
  bytes_Compare a b = 1 <-> lex_lt b a.
Proof.
  rewrite <- bytes_Compare_lt, (bytes_Compare_antisym b a). lia.
Qed.

Lemma bytes_Compare_trans (a b c : list byte) :
  bytes_Compare a b <= 0 -> bytes_Compare b c <= 0 -> bytes_Compare a c <= 0.
Proof.
  revert b c. induction a as [|x a IH]; intros [|y b] [|z c];
    cbn [bytes_Compare]; try lia.
  destruct (Z.ltb_spec (byte_to_Z x) (byte_to_Z y));
    destruct (Z.ltb_spec (byte_to_Z y) (byte_to_Z x));
    destruct (Z.ltb_spec (byte_to_Z y) (byte_to_Z z));
    destruct (Z.ltb_spec (byte_to_Z z) (byte_to_Z y));
    destruct (Z.ltb_spec (byte_to_Z x) (byte_to_Z z));
    destruct (Z.ltb_spec (byte_to_Z z) (byte_to_Z x));
    try lia.
  apply IH.
Qed.

(** The three outcomes of [bytes.Compare], in words. *)
Lemma bytes_Compare_lexicographic (a b : list byte) :
  (bytes_Compare a b = -1 /\ lex_lt a b)
  \/ (bytes_Compare a b = 0 /\ a = b)
  \/ (bytes_Compare a b = 1 /\ lex_lt b a).
Proof.
  destruct (bytes_Compare_range a b) as [E|[E|E]].
  - left. split; [exact E|by apply bytes_Compare_lt].
  - right. left. split; [exact E|by apply bytes_Compare_eq].
  - right. right. split; [exact E|by apply bytes_Compare_gt].
Qed.

(** ** The payload of a key *)

Lemma be16_of_bytes (hi lo : byte) :
  be16 (256 * byte_to_Z hi + byte_to_Z lo) = [hi; lo].
Proof.
  pose proof (byte_to_Z_range hi) as Hhi.
  pose proof (byte_to_Z_range lo) as Hlo.
  unfold be16. f_equal; [|f_equal]; apply byte_to_Z_inj;
    rewrite byte_to_of_Z.
  - rewrite Z.shiftr_div_pow2 by lia. change (2 ^ 8) with 256.
    replace (256 * byte_to_Z hi + byte_to_Z lo)
      with (byte_to_Z lo + byte_to_Z hi * 256) by lia.
    rewrite Z.div_add, Z.div_small by lia.
    rewrite Z.mod_small; lia.
  - replace (256 * byte_to_Z hi + byte_to_Z lo)
      with (byte_to_Z lo + byte_to_Z hi * 256) by lia.
    rewrite Z.mod_add by lia. apply Z.mod_small. lia.
Qed.

Lemma u16_at_range (bs : list byte) (pos : nat) (v : Z) :
  u16_at bs pos = Some v ->
  0 <= v < 65536 /\ (pos + 2 <= length bs)%nat
  /\ exists l1 l2, bs = l1 ++ be16 v ++ l2 /\ length l1 = pos.
Proof.
  unfold u16_at.
  destruct (bs !! pos) as [hi|] eqn:Ehi; [|discriminate].
  destruct (bs !! S pos) as [lo|] eqn:Elo; [|discriminate].
  intros [= <-].
  pose proof (byte_to_Z_range hi) as Hhi.
  pose proof (byte_to_Z_range lo) as Hlo.
  split; [lia|].
  assert (Hlt : (S pos < length bs)%nat) by (eapply lookup_lt_Some; exact Elo).
  split; [lia|].
  exists (take pos bs), (drop (S (S pos)) bs). split.
  - rewrite be16_of_bytes. cbn [app].
    rewrite <- (drop_S bs lo (S pos) Elo).
    symmetry. apply take_drop_middle. exact Ehi.
  - apply length_take_le. lia.
Qed.

(** Reading through a slice agrees with reading its contents. *)
Lemma GetUint16_contents (h : heap) (s : slice) (bs : list byte)
    (pos v : Z) :
  valid h (Some s) ->
  contents h (Some s) = Ok bs ->
  0 <= pos ->
  u16_at bs (Z.to_nat pos) = Some v ->
  GetUint16 h (Some s) pos = Ok v.
Proof.
  intros Hv Hc Hpos Hu.
  destruct (valid_contents h s Hv)
    as (arr & lpre & old & spare & Harr & -> & Hl & Hold & Hcap & Hc').
  assert (old = bs) by congruence. subst old.
  destruct (u16_at_range _ _ _ Hu) as (Hr & Hlen & l1 & l2 & Hbs & Hl1).
  destruct s as [p o n c]. cbn [s_ptr s_off s_len s_cap] in *.
  eapply GetUint16_at with (l1 := lpre ++ l1) (l2 := l2 ++ spare);
    [exact Harr|rewrite Hbs at 1; list_eq|rewrite length_app; lia
    |exact Hr|lia..].
Qed.

Lemma subslice_contents (h : heap) (s : slice) (bs : list byte) (lo hi : Z) :
  valid h (Some s) ->
  contents h (Some s) = Ok bs ->
  0 <= lo -> lo <= hi -> hi <= s_len s ->
  exists w,
    reslice (Some s) lo hi = Ok w
    /\ contents h w = Ok (take (Z.to_nat (hi - lo)) (drop (Z.to_nat lo) bs)).
Proof.
  intros Hv Hc Hlo Hhi Hlen.
  destruct (valid_contents h s Hv)
    as (arr & lpre & old & spare & Harr & -> & Hl & Hold & Hcap & Hc').
  assert (old = bs) by congruence. subst old.
  destruct s as [p o n c]. cbn [s_ptr s_off s_len s_cap] in *.
  eexists. split.
  - unfold reslice. cbn [cap s_cap s_ptr s_off]. test_true. reflexivity.
  - eapply contents_at
      with (l1 := lpre ++ take (Z.to_nat lo) bs)
           (l2 := drop (Z.to_nat (hi - lo)) (drop (Z.to_nat lo) bs) ++ spare).
    + exact Harr.
    + rewrite <- !app_assoc. f_equal.
      rewrite (app_assoc (take (Z.to_nat (hi - lo)) _)), take_drop.
      by rewrite app_assoc, take_drop.
    + rewrite length_app, length_take. lia.
    + rewrite length_take, length_drop. lia.
Qed.

(** The comparator on two well-formed keys compares their payloads. *)
Lemma CompareSeriesKeys_holds (h : heap) (a b : bytes) (pa pb : list byte) :
  holds_key h a pa -> holds_key h b pb ->
  CompareSeriesKeys h a b = Ok (bytes_Compare pa pb).
Proof.
  assert (Hkey : forall k pl,
             holds_key h k pl ->
             exists s ofs sz w,
               k = Some s /\ s_len s <> 0
               /\ GetUint16 h k 0 = Ok ofs
               /\ GetUint16 h k (ofs + 2) = Ok sz
               /\ reslice k (ofs + 2 + 2) (ofs + 2 + 2 + sz) = Ok w
               /\ contents h w = Ok pl).
  { intros k pl (Hv & bs & Hc & Hp).
    destruct k as [s|]; [|injection Hc as <-; discriminate Hp].
    unfold payload_of in Hp.
    destruct (u16_at bs 0) as [ofs|] eqn:Eofs; [|discriminate].
    destruct (u16_at bs (Z.to_nat (ofs + 2))) as [sz|] eqn:Esz; [|discriminate].
    destruct (Z.leb_spec (ofs + 4 + sz) (blen bs)) as [Hle|]; [|discriminate].
    injection Hp as <-.
    destruct (u16_at_range _ _ _ Eofs) as (Hofs & Hlen0 & _).
    destruct (u16_at_range _ _ _ Esz) as (Hsz & _ & _).
    destruct (valid_contents h s Hv)
      as (arr & lpre & old & spare & _ & _ & _ & Hold & _ & Hc').
    assert (old = bs) by congruence. subst old. unfold blen in Hle.
    destruct (subslice_contents h s bs (ofs + 2 + 2) (ofs + 2 + 2 + sz) Hv Hc)
      as (w & Hw & Hwc); [lia..|].
    exists s, ofs, sz, w. split; [reflexivity|]. split; [lia|].
    split; [by apply (GetUint16_contents h s bs 0 ofs)|].
    split; [apply (GetUint16_contents h s bs (ofs + 2) sz); auto; lia|].
    split; [exact Hw|].
    rewrite Hwc. do 2 f_equal; [f_equal|]; f_equal; lia. }
  intros Ha Hb.
  destruct (Hkey a pa Ha) as (sa & ofsA & szA & wa & -> & Hna & HoA & HsA & HwA & HcA).
  destruct (Hkey b pb Hb) as (sb & ofsB & szB & wb & -> & Hnb & HoB & HsB & HwB & HcB).
  unfold CompareSeriesKeys. cbn [len].
  destruct (Z.eqb_spec (s_len sa) 0) as [|_]; [contradiction|].
  destruct (Z.eqb_spec (s_len sb) 0) as [|_]; [contradiction|].
  cbn [andb].
  rewrite HoA. cbn [rbind]. rewrite HoB. cbn [rbind].
  rewrite HsA. cbn [rbind]. rewrite HsB. cbn [rbind].
  rewrite HwA. cbn [rbind]. rewrite HwB. cbn [rbind].
  rewrite HcA. cbn [rbind]. rewrite HcB. reflexivity.
Qed.

Lemma u16_at_be16 (l1 l2 : list byte) (v : Z) :
  0 <= v < 65536 -> u16_at (l1 ++ be16 v ++ l2) (length l1) = Some v.
Proof.
  intros Hv. unfold u16_at.
  replace (length l1) with (length l1 + 0)%nat at 1 by lia.
  replace (S (length l1)) with (length l1 + 1)%nat by lia.
  rewrite lookup_app_r by lia.
  replace (length l1 + 0 - length l1)%nat with 0%nat by lia.
  cbn [be16 app lookup list_lookup].
  rewrite lookup_app_r by lia.
  replace (length l1 + 1 - length l1)%nat with 1%nat by lia.
  cbn [be16 app lookup list_lookup]. rewrite !byte_to_of_Z. f_equal.
  rewrite Z.shiftr_div_pow2 by lia. change (2 ^ 8) with 256.
  rewrite (Z.mod_small (v / 256)).
  - symmetry. apply Z.div_mod. lia.
  - split; [apply Z.div_pos; lia|apply Z.div_lt_upper_bound; lia].
Qed.

(** The payload of an encoded key is the name followed by the tags' keys
    and values, as long as the two sizes fit their 16 bits. *)
Lemma payload_of_layout (name : list byte) (tags : Tags) :
  2 + 4 * Z.of_nat (length tags) <= 65535 ->
  blen (key_payload name tags) <= 65535 ->
  payload_of (key_layout name tags) = Some (key_payload name tags).
Proof.
  intros Hofs Hpl.
  assert (Htl := tag_lengths_length tags).
  set (ofs := 2 + 4 * Z.of_nat (length tags)) in *.
  set (pl := key_payload name tags) in *.
  set (A := be16 ofs ++ be16 (uint16 (blen name)) ++ tag_lengths tags).
  assert (HA : Z.of_nat (length A) = ofs + 2)
    by (unfold A; rewrite !length_app, !be16_length; lia).
  assert (Hpl0 : 0 <= blen pl) by (unfold blen; lia).
  assert (Hlay : key_layout name tags = A ++ be16 (blen pl) ++ pl).
  { unfold key_layout, A. fold ofs pl.
    rewrite (uint16_small ofs), (uint16_small (blen pl)) by lia. list_eq. }
  assert (H0 : u16_at (key_layout name tags) 0 = Some ofs).
  { unfold key_layout. fold ofs. rewrite (uint16_small ofs) by lia.
    apply (u16_at_be16 [] _ ofs). lia. }
  assert (H1 : u16_at (key_layout name tags) (Z.to_nat (ofs + 2))
               = Some (blen pl)).
  { rewrite Hlay. replace (Z.to_nat (ofs + 2)) with (length A) by lia.
    apply u16_at_be16. lia. }
  unfold payload_of. rewrite H0, H1, Hlay.
  replace (ofs + 4 + blen pl <=? blen (A ++ be16 (blen pl) ++ pl)) with true
    by (symmetry; apply Z.leb_le; unfold blen;
        rewrite !length_app, be16_length; lia).
  f_equal.
  replace (Z.to_nat (ofs + 4)) with (length (A ++ be16 (blen pl)))
    by (rewrite length_app, be16_length; lia).
  rewrite app_assoc, drop_app_length. unfold blen. rewrite Nat2Z.id.
  apply firstn_all.
Qed.

Lemma encoded_holds_key (name : list byte) (tags : Tags) (h : heap) :
  2 + 4 * Z.of_nat (length tags) <= 65535 ->
  blen (key_payload name tags) <= 65535 ->
  holds_key (h ++ [key_layout name tags])
    (Some (Slice (length h) 0 (SeriesKeySize name tags)
                 (SeriesKeySize name tags)))
    (key_payload name tags).
Proof.
  intros Hofs Hpl. split.
  - exists (key_layout name tags). cbn [s_ptr s_off s_len s_cap].
    pose proof (SeriesKeySize_min name tags).
    rewrite lookup_app_r, Nat.sub_diag by lia.
    pose proof (SeriesKeySize_layout name tags).
    repeat split; lia.
  - exists (key_layout name tags). split; [apply key_contents|].
    by apply payload_of_layout.
Qed.

Lemma holds_key_nonempty (h : heap) (k : bytes) (pl : list byte) :
  holds_key h k pl -> len k <> 0.
Proof.
  intros (Hv & bs & Hc & Hp).
  destruct k as [s|]; [|injection Hc as <-; discriminate Hp].
  unfold payload_of in Hp.
  destruct (u16_at bs 0) as [ofs|] eqn:Eofs; [|discriminate].
  destruct (u16_at_range _ _ _ Eofs) as (_ & Hlen & _).
  destruct (valid_contents h s Hv)
    as (arr & lpre & old & spare & _ & _ & _ & Hold & _ & Hc').
  assert (old = bs) by congruence. subst old. cbn [len]. lia.
Qed.

Lemma valid_extend (h h2 : heap) (k : bytes) :
  valid h k -> valid (h ++ h2) k.
Proof.
  destruct k as [s|]; [|trivial].
  intros (arr & Harr & Hrest). exists arr.
  split; [by apply lookup_app_l_Some|exact Hrest].
Qed.

Lemma contents_extend (h h2 : heap) (k : bytes) (bs : list byte) :
  contents h k = Ok bs -> contents (h ++ h2) k = Ok bs.
Proof.
  destruct k as [s|]; [|trivial]. unfold contents.
  destruct (h !! s_ptr s) as [arr|] eqn:E; [|discriminate].
  by rewrite (lookup_app_l_Some _ _ _ _ E).
Qed.

(** Allocating leaves the keys of the heap as they are. *)
Lemma holds_key_extend (h h2 : heap) (k : bytes) (pl : list byte) :
  holds_key h k pl -> holds_key (h ++ h2) k pl.
Proof.
  intros (Hv & bs & Hc & Hp). split; [by apply valid_extend|].
  exists bs. split; [by apply contents_extend|exact Hp].
Qed.

(** ** Every encoded key can be compared

    Whatever the sizes, the headers of a key made by the encoder locate a
    sub-range that lies within the key: when the offsets size wraps, the
    position read as payload size is the key length of some tag. *)

Lemma uint16_le (z : Z) : 0 <= z -> uint16 z <= z.
Proof. intros Hz. unfold uint16. apply Z.mod_le; lia. Qed.

Lemma tag_key_in_bytes (tags : Tags) (i : nat) (t : Tag) :
  tags !! i = Some t -> (length (Key t) <= length (tag_bytes tags))%nat.
Proof.
  intros Hi. rewrite <- (take_drop_middle _ _ _ Hi).
  rewrite tag_bytes_app, tag_bytes_cons, !length_app. lia.
Qed.

Lemma layout_has_payload (name : list byte) (tags : Tags) :
  exists pl, payload_of (key_layout name tags) = Some pl.
Proof.
  pose proof (SeriesKeySize_layout name tags) as Hsz.
  unfold SeriesKeySize, SeriesKeyOffsetsSize in Hsz.
  rewrite SeriesKeyBytesSize_payload in Hsz.
  set (T := Z.of_nat (length tags)) in *.
  set (ofs := uint16 (2 + 4 * T)).
  set (pl := key_payload name tags) in *.
  assert (Hofs : 0 <= ofs < 65536) by apply uint16_range.
  assert (Hdiv : exists q, 0 <= q /\ ofs = 2 + 4 * (T - 16384 * q)).
  { exists ((2 + 4 * T) / 65536). split.
    - apply Z.div_pos; lia.
    - pose proof (Z.div_mod (2 + 4 * T) 65536) as Hdm.
      unfold ofs, uint16. lia. }
  destruct Hdiv as (q & Hq & Hk).
  assert (H0 : u16_at (key_layout name tags) 0 = Some ofs)
    by (apply (u16_at_be16 [] _ ofs); exact Hofs).
  assert (Hread : exists sz, u16_at (key_layout name tags) (Z.to_nat (ofs + 2))
                             = Some sz /\ 0 <= sz /\ ofs + 4 + sz
                               <= blen (key_layout name tags)).
  { destruct (Z.eq_dec q 0) as [->|Hnz].
    - exists (uint16 (blen pl)).
      pose proof (uint16_range (blen pl)) as Hr.
      pose proof (uint16_le (blen pl)) as Hle.
      assert (Htl := tag_lengths_length tags).
      split; [|unfold blen in *; lia].
      set (A := be16 ofs ++ be16 (uint16 (blen name)) ++ tag_lengths tags).
      replace (key_layout name tags) with (A ++ be16 (uint16 (blen pl)) ++ pl)
        by (unfold key_layout, A; fold T ofs pl; list_eq).
      replace (Z.to_nat (ofs + 2)) with (length A)
        by (unfold A; rewrite !length_app, !be16_length; lia).
      apply u16_at_be16. exact Hr.
    - set (k := Z.to_nat (T - 16384 * q)).
      assert (Hkt : (k < length tags)%nat) by lia.
      destruct (lookup_lt_is_Some_2 tags k Hkt) as [t Ht].
      exists (uint16 (blen (Key t))).
      pose proof (uint16_range (blen (Key t))) as Hr.
      pose proof (uint16_le (blen (Key t))) as Hle.
      pose proof (tag_key_in_bytes tags k t Ht) as Hin.
      assert (Hpl : blen pl = blen name + blen (tag_bytes tags))
        by (unfold pl, key_payload, blen; rewrite length_app; lia).
      split; [|unfold blen in *; lia].
      assert (Htk : length (take k tags) = k) by (apply length_take_le; lia).
      assert (Htl := tag_lengths_length (take k tags)).
      set (A := be16 ofs ++ be16 (uint16 (blen name))
                ++ tag_lengths (take k tags)).
      replace (key_layout name tags)
        with (A ++ be16 (uint16 (blen (Key t)))
                ++ (be16 (uint16 (blen (Value t)))
                    ++ tag_lengths (drop (S k) tags)
                    ++ be16 (uint16 (blen pl)) ++ pl)).
      + replace (Z.to_nat (ofs + 2)) with (length A)
          by (unfold A; rewrite !length_app, !be16_length; lia).
        apply u16_at_be16. exact Hr.
      + unfold key_layout, A. fold T ofs pl.
        rewrite <- (take_drop_middle _ _ _ Ht) at 3.
        rewrite tag_lengths_app, tag_lengths_cons. list_eq. }
  destruct Hread as (sz & Hsz' & Hsz0 & Hfit).
  unfold payload_of. rewrite H0, Hsz'.
  apply Z.leb_le in Hfit. rewrite Hfit. eauto.
Qed.

(** ** The order on keys *)

(** The key that the encoder returns can always be compared. *)
Lemma encoded_comparable (name : list byte) (tags : Tags) (h : heap) :
  comparable (h ++ [key_layout name tags])
    (Some (Slice (length h) 0 (SeriesKeySize name tags)
                 (SeriesKeySize name tags))).
Proof.
  destruct (layout_has_payload name tags) as [pl Hpl].
  exists (Some pl). right. exists pl. split; [|reflexivity]. split.
  - exists (key_layout name tags). cbn [s_ptr s_off s_len s_cap].
    pose proof (SeriesKeySize_min name tags).
    rewrite lookup_app_r, Nat.sub_diag by lia.
    pose proof (SeriesKeySize_layout name tags).
    repeat split; lia.
  - exists (key_layout name tags). split; [apply key_contents|exact Hpl].
Qed.

Lemma comparable_extend (h h2 : heap) (k : bytes) :
  comparable h k -> comparable (h ++ h2) k.
Proof.
  intros [o [(Hv & Hk & ->)|(pl & Hpl & ->)]].
  - exists None. left. split; [by apply valid_extend|]. by split.
  - exists (Some pl). right. exists pl.
    split; [by apply holds_key_extend|reflexivity].
Qed.

Lemma CompareSeriesKeys_empty (h : heap) (e e' k : bytes) :
  len e = 0 -> len e' = 0 -> len k <> 0 ->
  CompareSeriesKeys h e e' = Ok 0
  /\ CompareSeriesKeys h e k = Ok (-1)
  /\ CompareSeriesKeys h k e = Ok 1.
Proof.
  intros He He' Hk. unfold CompareSeriesKeys. rewrite He, He'.
  destruct (Z.eqb_spec (len k) 0) as [|_]; [contradiction|].
  repeat split.
Qed.

Lemma CompareSeriesKeys_ranks (h : heap) (a b : bytes)
    (x y : option (list byte)) :
  rank h a x -> rank h b y ->
  CompareSeriesKeys h a b = Ok (compare_ranks x y).
Proof.
  intros [(_ & Ha & ->)|(pa & Ha & ->)] [(_ & Hb & ->)|(pb & Hb & ->)];
    cbn [compare_ranks].
  - apply (CompareSeriesKeys_empty h a b (Some (Slice 0 0 1 1)));
      [assumption..|discriminate].
  - apply holds_key_nonempty in Hb.
    by apply (CompareSeriesKeys_empty h a a b).
  - apply holds_key_nonempty in Ha.
    by apply (CompareSeriesKeys_empty h b b a).
  - by apply CompareSeriesKeys_holds.
Qed.

Lemma compare_ranks_refl (x : option (list byte)) : compare_ranks x x = 0.
Proof. destruct x; [apply bytes_Compare_refl|reflexivity]. Qed.

Lemma compare_ranks_antisym (x y : option (list byte)) :
  compare_ranks x y = - compare_ranks y x.
Proof.
  destruct x, y; try reflexivity. apply bytes_Compare_antisym.
Qed.

Lemma compare_ranks_range (x y : option (list byte)) :
  compare_ranks x y = -1 \/ compare_ranks x y = 0 \/ compare_ranks x y = 1.
Proof. destruct x, y; cbn; auto. apply bytes_Compare_range. Qed.

Lemma compare_ranks_trans (x y z : option (list byte)) :
  compare_ranks x y <= 0 -> compare_ranks y z <= 0 -> compare_ranks x z <= 0.
Proof.
  destruct x, y, z; cbn; try lia. apply bytes_Compare_trans.
Qed.

Lemma valid_empty_contents (h : heap) (k : bytes) :
  valid h k -> len k = 0 -> contents h k = Ok [].
Proof.
  intros Hv Hk. destruct k as [s|]; [|reflexivity].
  destruct (valid_contents h s Hv)
    as (arr & lpre & old & spare & _ & _ & _ & Hold & _ & Hc).
  cbn [len] in Hk. rewrite Hc. f_equal.
  apply nil_length_inv. lia.
Qed.

(** The rank depends on the bytes of the key only. *)
Lemma rank_contents (h h' : heap) (k k' : bytes) (x x' : option (list byte)) :
  rank h k x -> rank h' k' x' -> contents h' k' = contents h k -> x' = x.
Proof.
  intros [(Hv & Hk & ->)|(pl & (Hv & bs & Hc & Hp) & ->)]
         [(Hv' & Hk' & ->)|(pl' & (Hv' & bs' & Hc' & Hp') & ->)] E.
  - reflexivity.
  - rewrite (valid_empty_contents h k Hv Hk), Hc' in E.
    injection E as ->. discriminate Hp'.
  - rewrite (valid_empty_contents h' k' Hv' Hk'), Hc in E.
    injection E as <-. discriminate Hp.
  - rewrite Hc, Hc' in E. injection E as ->. congruence.
Qed.


(** ** The two keys of the tests *)

Lemma two_keys_encoded :
  AppendSeriesKey None aaa taaa_vaaa [] = Ok (first_key, [key_layout aaa taaa_vaaa])
  /\ AppendSeriesKey None aaa tbbb_vaaa [key_layout aaa taaa_vaaa]
     = Ok (second_key, two_keys).
Proof. split; rewrite AppendSeriesKey_nil; reflexivity. Qed.

Lemma first_key_holds :
  holds_key two_keys first_key (key_payload aaa taaa_vaaa).
Proof.
  apply (holds_key_extend [key_layout aaa taaa_vaaa] [key_layout aaa tbbb_vaaa]).
  apply (encoded_holds_key aaa taaa_vaaa []); unfold blen; simpl; lia.
Qed.

Lemma second_key_holds :
  holds_key two_keys second_key (key_payload aaa tbbb_vaaa).
Proof.
  apply (encoded_holds_key aaa tbbb_vaaa [key_layout aaa taaa_vaaa]);
    unfold blen; simpl; lia.
Qed.

(** ** The comparator compares payloads *)

(** C2 (comparison of payloads): on two non-empty well-formed keys, whose
    payloads [pa] and [pb] are the sub-ranges
    [[ofs+4 : ofs+4+payloadSize]] located by each key's own headers,
    [CompareSeriesKeys] returns the lexicographic comparison of [pa] and
    [pb]: -1 when [pa] is a proper prefix of [pb] or has the smaller byte
    where they first differ, 0 when they are equal, 1 otherwise.  On
    ["aaa,taaa=vaaa"] and ["aaa,tbbb=vaaa"] it returns -1. *)
Theorem CompareSeriesKeys_payloads (h : heap) (a b : bytes)
    (pa pb : list byte) :
  holds_key h a pa -> holds_key h b pb ->
  exists r,
    CompareSeriesKeys h a b = Ok r
    /\ r = bytes_Compare pa pb
    /\ ((r = -1 /\ lex_lt pa pb) \/ (r = 0 /\ pa = pb) \/ (r = 1 /\ lex_lt pb pa))
    /\ exists ka h1 kb h2,
         AppendSeriesKey None aaa taaa_vaaa [] = Ok (ka, h1)
         /\ AppendSeriesKey None aaa tbbb_vaaa h1 = Ok (kb, h2)
         /\ CompareSeriesKeys h2 ka kb = Ok (-1).
Proof.
  intros Ha Hb. exists (bytes_Compare pa pb).
  split; [by apply CompareSeriesKeys_holds|]. split; [reflexivity|].
  split; [apply bytes_Compare_lexicographic|].
  destruct two_keys_encoded as [E1 E2].
  eexists _, _, _, _. split; [exact E1|]. split; [exact E2|].
  rewrite (CompareSeriesKeys_holds _ _ _ _ _ first_key_holds second_key_holds).
  reflexivity.
Qed.

Lemma CompareSeriesKeys_payloads_witness :
  holds_key two_keys first_key (key_payload aaa taaa_vaaa)
  /\ holds_key two_keys second_key (key_payload aaa tbbb_vaaa)
  /\ exists r,
       CompareSeriesKeys two_keys first_key second_key = Ok r
       /\ r = bytes_Compare (key_payload aaa taaa_vaaa)
                            (key_payload aaa tbbb_vaaa)
       /\ ((r = -1 /\ lex_lt (key_payload aaa taaa_vaaa)
                             (key_payload aaa tbbb_vaaa))
           \/ (r = 0 /\ key_payload aaa taaa_vaaa = key_payload aaa tbbb_vaaa)
           \/ (r = 1 /\ lex_lt (key_payload aaa tbbb_vaaa)
                               (key_payload aaa taaa_vaaa)))
       /\ exists ka h1 kb h2,
            AppendSeriesKey None aaa taaa_vaaa [] = Ok (ka, h1)
            /\ AppendSeriesKey None aaa tbbb_vaaa h1 = Ok (kb, h2)
            /\ CompareSeriesKeys h2 ka kb = Ok (-1).
Proof.
  split; [exact first_key_holds|]. split; [exact second_key_holds|].
  exact (CompareSeriesKeys_payloads two_keys first_key second_key _ _
           first_key_holds second_key_holds).
Defined.

(** ** The comparator orders keys *)

(** C5 (order): on keys that are empty or well formed, [CompareSeriesKeys]
    is reflexive ([Compare(k, k) = 0]), skew-symmetric
    ([Compare(a, b) = -Compare(b, a)], a value among -1, 0, 1), transitive
    (from [Compare(a, b) <= 0] and [Compare(b, c) <= 0] follows
    [Compare(a, c) <= 0]) and deterministic: its result is fixed by the
    bytes of the two keys, wherever they are stored. *)
Theorem CompareSeriesKeys_total_order (h : heap) (a b c : bytes) :
  comparable h a -> comparable h b -> comparable h c ->
  CompareSeriesKeys h a a = Ok 0
  /\ (exists r,
        CompareSeriesKeys h a b = Ok r
        /\ CompareSeriesKeys h b a = Ok (- r)
        /\ (r = -1 \/ r = 0 \/ r = 1))
  /\ (exists r1 r2 r3,
        CompareSeriesKeys h a b = Ok r1
        /\ CompareSeriesKeys h b c = Ok r2
        /\ CompareSeriesKeys h a c = Ok r3
        /\ (r1 <= 0 -> r2 <= 0 -> r3 <= 0))
  /\ (forall (h' : heap) (a' b' : bytes),
        comparable h' a' -> comparable h' b' ->
        contents h' a' = contents h a ->
        contents h' b' = contents h b ->
        CompareSeriesKeys h' a' b' = CompareSeriesKeys h a b)
  /\ (forall (name : list byte) (tags : Tags) (h0 : heap),
        exists k h1,
          AppendSeriesKey None name tags h0 = Ok (k, h1)
          /\ comparable h1 k
          /\ forall h2, comparable (h1 ++ h2) k).
Proof.
  intros [x Hx] [y Hy] [z Hz].
  split.
  { rewrite (CompareSeriesKeys_ranks h a a x x Hx Hx).
    by rewrite compare_ranks_refl. }
  split.
  { exists (compare_ranks x y).
    split; [by apply CompareSeriesKeys_ranks|].
    split; [|apply compare_ranks_range].
    rewrite (CompareSeriesKeys_ranks h b a y x Hy Hx).
    f_equal. rewrite (compare_ranks_antisym x y). lia. }
  split.
  { exists (compare_ranks x y), (compare_ranks y z), (compare_ranks x z).
    split; [by apply CompareSeriesKeys_ranks|].
    split; [by apply CompareSeriesKeys_ranks|].
    split; [by apply CompareSeriesKeys_ranks|].
    apply compare_ranks_trans. }
  split.
  { intros h' a' b' [x' Hx'] [y' Hy'] Ea Eb.
    rewrite (CompareSeriesKeys_ranks h' a' b' x' y' Hx' Hy').
    rewrite (CompareSeriesKeys_ranks h a b x y Hx Hy).
    by rewrite (rank_contents h h' a a' x x' Hx Hx' Ea),
               (rank_contents h h' b b' y y' Hy Hy' Eb). }
  intros name tags h0. eexists _, _.
  split; [apply AppendSeriesKey_nil|].
  split; [apply encoded_comparable|].
  intros h2. apply comparable_extend, encoded_comparable.
Qed.

Lemma nil_comparable : comparable two_keys None.
Proof. exists None. left. repeat split. Qed.

Lemma first_key_comparable : comparable two_keys first_key.
Proof.
  exists (Some (key_payload aaa taaa_vaaa)). right.
  eexists. split; [exact first_key_holds|reflexivity].
Qed.

Lemma second_key_comparable : comparable two_keys second_key.
Proof.
  exists (Some (key_payload aaa tbbb_vaaa)). right.
  eexists. split; [exact second_key_holds|reflexivity].
Qed.

Lemma CompareSeriesKeys_total_order_witness :
  comparable two_keys None
  /\ comparable two_keys first_key
  /\ comparable two_keys second_key
  /\ CompareSeriesKeys two_keys None None = Ok 0
  /\ (exists r,
        CompareSeriesKeys two_keys None first_key = Ok r
        /\ CompareSeriesKeys two_keys first_key None = Ok (- r)
        /\ (r = -1 \/ r = 0 \/ r = 1))
  /\ (exists r1 r2 r3,
        CompareSeriesKeys two_keys None first_key = Ok r1
        /\ CompareSeriesKeys two_keys first_key second_key = Ok r2
        /\ CompareSeriesKeys two_keys None second_key = Ok r3
        /\ (r1 <= 0 -> r2 <= 0 -> r3 <= 0))
  /\ (forall (h' : heap) (a' b' : bytes),
        comparable h' a' -> comparable h' b' ->
        contents h' a' = contents two_keys None ->
        contents h' b' = contents two_keys first_key ->
        CompareSeriesKeys h' a' b'
        = CompareSeriesKeys two_keys None first_key)
  /\ (forall (name : list byte) (tags : Tags) (h0 : heap),
        exists k h1,
          AppendSeriesKey None name tags h0 = Ok (k, h1)
          /\ comparable h1 k
          /\ forall h2, comparable (h1 ++ h2) k).
Proof.
  split; [exact nil_comparable|]. split; [exact first_key_comparable|].
  split; [exact second_key_comparable|].
  exact (CompareSeriesKeys_total_order two_keys None first_key second_key
           nil_comparable first_key_comparable second_key_comparable).
Defined.

(** ** Nil keys *)

(** C6 (nil-key ordering): two empty buffers compare equal; an empty buffer
    is less than any non-empty one, and a non-empty one greater than an
    empty one. *)
Theorem CompareSeriesKeys_nil (h : heap) (e e' k : bytes) :
  len e = 0 -> len e' = 0 -> len k <> 0 ->
  CompareSeriesKeys h e e' = Ok 0
  /\ CompareSeriesKeys h e k = Ok (-1)
  /\ CompareSeriesKeys h k e = Ok 1.
Proof. apply CompareSeriesKeys_empty. Qed.

Lemma CompareSeriesKeys_nil_witness :
  let h : heap := [[Init.Byte.x00]] in
  let e : bytes := None in
  let e' : bytes := Some (Slice 0 0 0 1) in
  let k : bytes := Some (Slice 0 0 1 1) in
  len e = 0 /\ len e' = 0 /\ len k <> 0
  /\ CompareSeriesKeys h e e' = Ok 0
  /\ CompareSeriesKeys h e k = Ok (-1)
  /\ CompareSeriesKeys h k e = Ok 1.
Proof.
  intros h e e' k.
  assert (He : len e = 0) by reflexivity.
  assert (He' : len e' = 0) by reflexivity.
  assert (Hk : len k <> 0) by (simpl; lia).
  split; [exact He|]. split; [exact He'|]. split; [exact Hk|].
  exact (CompareSeriesKeys_nil h e e' k He He' Hk).
Defined.

(** ** Keys the comparator cannot tell apart *)

(** C10 (distinct series that compare equal): name ["ab"] without tags and
    name ["a"] with the tag [("b", "")] are distinct inputs with distinct
    encoded keys on which [CompareSeriesKeys] returns 0.  In general two
    encoded keys compare equal as soon as their payloads (the name followed
    by every tag key and value) are the same bytes. *)
Theorem CompareSeriesKeys_same_payload :
  (let n1 := [Init.Byte.x61; Init.Byte.x62] in
   let t1 : Tags := [] in
   let n2 := [Init.Byte.x61] in
   let t2 : Tags := [mkTag [Init.Byte.x62] []] in
   (n1, t1) <> (n2, t2)
   /\ exists ka h1 kb h2 ca cb,
        AppendSeriesKey None n1 t1 [] = Ok (ka, h1)
        /\ AppendSeriesKey None n2 t2 h1 = Ok (kb, h2)
        /\ contents h2 ka = Ok ca
        /\ contents h2 kb = Ok cb
        /\ ca <> cb
        /\ CompareSeriesKeys h2 ka kb = Ok 0)
  /\ forall (n1 n2 : list byte) (t1 t2 : Tags) (h : heap),
       2 + 4 * Z.of_nat (length t1) <= 65535 ->
       2 + 4 * Z.of_nat (length t2) <= 65535 ->
       blen (key_payload n1 t1) <= 65535 ->
       key_payload n1 t1 = key_payload n2 t2 ->
       exists ka h1 kb h2,
         AppendSeriesKey None n1 t1 h = Ok (ka, h1)
         /\ AppendSeriesKey None n2 t2 h1 = Ok (kb, h2)
         /\ CompareSeriesKeys h2 ka kb = Ok 0.
Proof.
  assert (Hgen : forall (n1 n2 : list byte) (t1 t2 : Tags) (h : heap),
             2 + 4 * Z.of_nat (length t1) <= 65535 ->
             2 + 4 * Z.of_nat (length t2) <= 65535 ->
             blen (key_payload n1 t1) <= 65535 ->
             key_payload n1 t1 = key_payload n2 t2 ->
             CompareSeriesKeys
               ((h ++ [key_layout n1 t1]) ++ [key_layout n2 t2])
               (Some (Slice (length h) 0 (SeriesKeySize n1 t1)
                            (SeriesKeySize n1 t1)))
               (Some (Slice (length (h ++ [key_layout n1 t1])) 0
                            (SeriesKeySize n2 t2) (SeriesKeySize n2 t2)))
             = Ok 0).
  { intros n1 n2 t1 t2 h H1 H2 Hpl E.
    rewrite (CompareSeriesKeys_holds _ _ _
               (key_payload n1 t1) (key_payload n2 t2)).
    - rewrite E. by rewrite bytes_Compare_refl.
    - apply holds_key_extend. by apply encoded_holds_key.
    - apply encoded_holds_key; [exact H2|]. by rewrite <- E. }
  split.
  - intros n1 t1 n2 t2. split; [discriminate|].
    eexists _, _, _, _, _, _.
    split; [apply AppendSeriesKey_nil|].
    split; [apply AppendSeriesKey_nil|].
    split; [apply contents_extend, key_contents|].
    split; [apply key_contents|].
    split; [discriminate|].
    apply Hgen; unfold blen; simpl; (lia || reflexivity).
  - intros n1 n2 t1 t2 h H1 H2 Hpl E.
    eexists _, _, _, _.
    split; [apply AppendSeriesKey_nil|].
    split; [apply AppendSeriesKey_nil|].
    by apply Hgen.
Qed.

Lemma CompareSeriesKeys_same_payload_witness :
  let n1 := [Init.Byte.x61; Init.Byte.x62] in
  let t1 : Tags := [] in
  let n2 := [Init.Byte.x61] in
  let t2 : Tags := [mkTag [Init.Byte.x62] []] in
  2 + 4 * Z.of_nat (length t1) <= 65535
  /\ 2 + 4 * Z.of_nat (length t2) <= 65535
  /\ blen (key_payload n1 t1) <= 65535
  /\ key_payload n1 t1 = key_payload n2 t2
  /\ exists ka h1 kb h2,
       AppendSeriesKey None n1 t1 [] = Ok (ka, h1)
       /\ AppendSeriesKey None n2 t2 h1 = Ok (kb, h2)
       /\ CompareSeriesKeys h2 ka kb = Ok 0.
Proof.
  intros n1 t1 n2 t2.
  assert (H1 : 2 + 4 * Z.of_nat (length t1) <= 65535) by (simpl; lia).
  assert (H2 : 2 + 4 * Z.of_nat (length t2) <= 65535) by (simpl; lia).
  assert (H3 : blen (key_payload n1 t1) <= 65535) by (unfold blen; simpl; lia).
  assert (E : key_payload n1 t1 = key_payload n2 t2) by reflexivity.
  split; [exact H1|]. split; [exact H2|]. split; [exact H3|].
  split; [exact E|].
  exact (proj2 CompareSeriesKeys_same_payload n1 n2 t1 t2 [] H1 H2 H3 E).
Defined.

(** ** Bulk generation *)

Lemma key_sizes_layouts (names : list (list byte)) (tagsSlice : list Tags) :
  sumZ (key_sizes names tagsSlice)
  = Z.of_nat (length (concat (key_layouts names tagsSlice))).
Proof.
  revert tagsSlice. induction names as [|name names IH]; intros [|tags ts];
    try reflexivity.
  cbn [key_sizes key_layouts zip_with sumZ foldr concat].
  fold (key_sizes names ts) (key_layouts names ts) (sumZ (key_sizes names ts)).
  rewrite length_app, IH, SeriesKeySize_layout. lia.
Qed.

Lemma sumZ_key_sizes_nonneg (names : list (list byte)) (tagsSlice : list Tags) :
  0 <= sumZ (key_sizes names tagsSlice).
Proof. rewrite key_sizes_layouts. lia. Qed.

(** In range, [SeriesKeysSize] adds up the sizes. *)
Lemma SeriesKeysSize_from_ok (rest : list (list byte)) :
  forall (tagsSlice : list Tags) (i : nat) (n : Z),
    (i + length rest <= length tagsSlice)%nat ->
    SeriesKeysSize_from rest tagsSlice i n
    = Ok (n + sumZ (key_sizes rest (drop i tagsSlice))).
Proof.
  induction rest as [|name rest IH]; intros tagsSlice i n Hlen.
  - cbn. f_equal. lia.
  - cbn [length] in Hlen. cbn [SeriesKeysSize_from]. unfold index.
    destruct (tagsSlice !! i) as [tags|] eqn:E;
      [|apply lookup_ge_None in E; lia].
    cbn [rbind]. rewrite IH by lia.
    rewrite (drop_S _ _ _ E).
    cbn [key_sizes zip_with sumZ foldr]. f_equal.
    fold (key_sizes rest (drop (S i) tagsSlice)). unfold sumZ. lia.
Qed.

(** Past the end of [tagsSlice], [SeriesKeysSize] panics. *)
Lemma SeriesKeysSize_from_panic (rest : list (list byte)) :
  forall (tagsSlice : list Tags) (i : nat) (n : Z),
    (i <= length tagsSlice)%nat ->
    (length tagsSlice < i + length rest)%nat ->
    SeriesKeysSize_from rest tagsSlice i n = Panic.
Proof.
  induction rest as [|name rest IH]; intros tagsSlice i n Hi Hlen.
  - cbn [length] in Hlen. lia.
  - cbn [length] in Hlen. cbn [SeriesKeysSize_from]. unfold index.
    destruct (tagsSlice !! i) as [tags|] eqn:E; [|reflexivity].
    cbn [rbind]. apply lookup_lt_Some in E. apply IH; lia.
Qed.

(** The loop of [GenerateSeriesKeys]: [done] is the part of the buffer
    already written, [W] the part the remaining keys will fill; [ks] are
    the keys already set and [ph] the entries still [nil]. *)
Lemma GenerateSeriesKeys_from_ok (rest : list (list byte)) :
  forall (tagsSlice : list Tags) (i p : nat) (n c : Z) (h0 : heap)
         (done W post : list byte) (ks ph : list bytes),
    (p < length h0)%nat ->
    Z.of_nat (length done) = n ->
    n + Z.of_nat (length W) <= c ->
    (i + length rest <= length tagsSlice)%nat ->
    Z.of_nat (length W) = sumZ (key_sizes rest (drop i tagsSlice)) ->
    length ks = i ->
    length ph = length rest ->
    GenerateSeriesKeys_from rest tagsSlice i (Some (Slice p 0 n c))
      (ks ++ ph) (<[p := done ++ W ++ post]> h0)
    = Ok (ks ++ key_views p n c (key_sizes rest (drop i tagsSlice)),
          <[p := done ++ concat (key_layouts rest (drop i tagsSlice))
                  ++ post]> h0).
Proof.
  induction rest as [|name rest IH];
    intros tagsSlice i p n c h0 done W post ks ph Hp Hn Hc Hlen HW Hks Hph.
  - destruct ph; [|discriminate Hph].
    cbn in HW. destruct W; [|cbn in HW; lia].
    reflexivity.
  - cbn [length] in Hlen.
    destruct ph as [|x ph]; [discriminate Hph|].
    cbn [length] in Hph.
    destruct (tagsSlice !! i) as [tags|] eqn:E;
      [|apply lookup_ge_None in E; lia].
    rewrite (drop_S _ _ _ E) in *.
    cbn [key_sizes key_layouts zip_with sumZ foldr concat key_views] in *.
    fold (key_sizes rest (drop (S i) tagsSlice)) in *.
    fold (key_layouts rest (drop (S i) tagsSlice)).
    fold (sumZ (key_sizes rest (drop (S i) tagsSlice))) in HW.
    pose proof (sumZ_key_sizes_nonneg rest (drop (S i) tagsSlice)) as Hnn.
    pose proof (SeriesKeySize_min name tags) as Hmin.
    destruct (split_length W (Z.to_nat (SeriesKeySize name tags)))
      as (W1 & W2 & -> & HW1); [lia|].
    rewrite length_app in HW, Hc.
    cbn [GenerateSeriesKeys_from]. unfold bind at 1, lift at 1, index.
    rewrite E. unfold bind at 1.
    rewrite (AppendSeriesKey_in_place name tags _ p 0 n c [] done W1
               (W2 ++ post));
      [|rewrite heap_lookup_upd by assumption; cbn [app]; f_equal; list_eq
       |reflexivity|exact Hn|unfold blen; lia|lia].
    rewrite list_insert_insert_eq.
    unfold bind at 1, lift at 1, reslice.
    cbn [len cap s_ptr s_off s_len s_cap]. test_true.
    assert (Hins : <[i := Some (Slice p (0 + n)
                                   (n + SeriesKeySize name tags - n) (c - n))]>
                     (ks ++ x :: ph)
                   = (ks ++ [Some (Slice p n (SeriesKeySize name tags) (c - n))])
                     ++ ph).
    { rewrite (insert_app_r_alt ks) by lia.
      replace (i - length ks)%nat with 0%nat by lia.
      cbn [insert list_insert]. rewrite <- app_assoc. cbn [app].
      repeat first [lia | progress f_equal]. }
    rewrite Hins. clear Hins.
    replace ([] ++ done ++ key_layout name tags ++ W2 ++ post)
      with ((done ++ key_layout name tags) ++ W2 ++ post)
      by (cbn [app]; list_eq).
    rewrite (IH tagsSlice (S i) p (n + SeriesKeySize name tags) c h0
               (done ++ key_layout name tags) W2 post
               (ks ++ [Some (Slice p n (SeriesKeySize name tags) (c - n))]) ph);
      [|first [assumption
              |pose proof (SeriesKeySize_layout name tags);
               rewrite ?length_app; cbn [length]; lia]..].
    f_equal. f_equal; [list_eq|]. f_equal. list_eq.
Qed.

Lemma SeriesKeysSize_ok (names : list (list byte)) (tagsSlice : list Tags) :
  (length names <= length tagsSlice)%nat ->
  SeriesKeysSize names tagsSlice = Ok (sumZ (key_sizes names tagsSlice)).
Proof.
  intros Hlen. unfold SeriesKeysSize.
  rewrite SeriesKeysSize_from_ok by (cbn; lia). by rewrite drop_0.
Qed.

(** With enough tag sets, [GenerateSeriesKeys] allocates one array, fills
    it with the layouts in order and returns their views. *)
Lemma GenerateSeriesKeys_ok (names : list (list byte)) (tagsSlice : list Tags)
    (h : heap) :
  (length names <= length tagsSlice)%nat ->
  GenerateSeriesKeys names tagsSlice h
  = Ok (key_views (length h) 0 (sumZ (key_sizes names tagsSlice))
                  (key_sizes names tagsSlice),
        h ++ [concat (key_layouts names tagsSlice)]).
Proof.
  intros Hlen. unfold GenerateSeriesKeys.
  unfold bind at 1, lift at 1. rewrite SeriesKeysSize_ok by exact Hlen.
  pose proof (sumZ_key_sizes_nonneg names tagsSlice) as Hnn.
  set (total := sumZ (key_sizes names tagsSlice)) in *.
  unfold bind at 1, make. test_true.
  set (zeros := replicate (Z.to_nat total) Init.Byte.x00).
  replace (h ++ [zeros])
    with (<[length h := [] ++ zeros ++ []]> (h ++ [zeros]))
    by (rewrite insert_app_r_alt, Nat.sub_diag by lia;
        cbn; by rewrite app_nil_r).
  change (replicate (length names) None)
    with ([] ++ replicate (length names) (None : bytes)).
  rewrite (GenerateSeriesKeys_from_ok names tagsSlice 0 (length h) 0 total);
    [|first [rewrite length_app; cbn; lia
            |reflexivity
            |unfold zeros; rewrite ?length_replicate, ?drop_0; cbn; lia]..].
  rewrite drop_0, insert_app_r_alt, Nat.sub_diag by lia.
  cbn [insert list_insert app]. by rewrite app_nil_r.
Qed.

Lemma key_views_length (p : nat) (off c : Z) (sizes : list Z) :
  length (key_views p off c sizes) = length sizes.
Proof.
  revert off. induction sizes as [|sz sizes IH]; intros off; [reflexivity|].
  cbn [key_views length]. by rewrite IH.
Qed.

Lemma key_views_lookup (sizes : list Z) :
  forall (p : nat) (off c : Z) (i : nat) (sz : Z),
    sizes !! i = Some sz ->
    key_views p off c sizes !! i
    = Some (Some (Slice p (off + sumZ (take i sizes)) sz
                        (c - (off + sumZ (take i sizes))))).
Proof.
  induction sizes as [|s0 sizes IH]; intros p off c i sz Hi; [discriminate|].
  destruct i as [|i]; cbn [key_views take sumZ foldr].
  - injection Hi as ->. cbn [lookup list_lookup].
    repeat first [lia | progress f_equal].
  - change (key_views p (off + s0) c sizes !! i
            = Some (Some (Slice p (off + (s0 + sumZ (take i sizes))) sz
                                (c - (off + (s0 + sumZ (take i sizes))))))).
    rewrite (IH p (off + s0) c i sz Hi).
    repeat first [lia | progress f_equal].
Qed.

Lemma key_sizes_lookup (names : list (list byte)) (tagsSlice : list Tags)
    (i : nat) (name : list byte) (tags : Tags) :
  names !! i = Some name -> tagsSlice !! i = Some tags ->
  key_sizes names tagsSlice !! i = Some (SeriesKeySize name tags)
  /\ key_layouts names tagsSlice !! i = Some (key_layout name tags).
Proof.
  intros Hn Ht. unfold key_sizes, key_layouts.
  rewrite !lookup_zip_with, Hn, Ht. split; reflexivity.
Qed.

(** C7 (bulk equivalence): for parallel lists of equal length,
    [GenerateSeriesKeys] returns one key per pair; the [i]-th key shows the
    very bytes of [AppendSeriesKey(nil, names[i], tagsSlice[i])]; all keys
    view one fresh buffer of exactly [SeriesKeysSize(names, tagsSlice)]
    bytes, the [i]-th at the offset where the [i-1]-th ends. *)
Theorem GenerateSeriesKeys_bulk (names : list (list byte))
    (tagsSlice : list Tags) (h : heap) :
  length names = length tagsSlice ->
  exists keys buf total,
    GenerateSeriesKeys names tagsSlice h = Ok (keys, h ++ [buf])
    /\ length keys = length names
    /\ SeriesKeysSize names tagsSlice = Ok total
    /\ blen buf = total
    /\ forall (i : nat) (name : list byte) (tags : Tags),
         names !! i = Some name -> tagsSlice !! i = Some tags ->
         exists s enc,
           keys !! i = Some (Some s)
           /\ contents (h ++ [buf]) (Some s) = Ok enc
           /\ (forall h0, exists k0 h0',
                  AppendSeriesKey None name tags h0 = Ok (k0, h0')
                  /\ contents h0' k0 = Ok enc)
           /\ s_ptr s = length h
           /\ s_off s = sumZ (take i (key_sizes names tagsSlice))
           /\ s_len s = SeriesKeySize name tags.
Proof.
  intros Hlen.
  exists (key_views (length h) 0 (sumZ (key_sizes names tagsSlice))
                    (key_sizes names tagsSlice)),
         (concat (key_layouts names tagsSlice)),
         (sumZ (key_sizes names tagsSlice)).
  split; [apply GenerateSeriesKeys_ok; lia|].
  split.
  { rewrite key_views_length. unfold key_sizes.
    rewrite length_zip_with. lia. }
  split; [apply SeriesKeysSize_ok; lia|].
  split; [unfold blen; by rewrite key_sizes_layouts|].
  intros i name tags Hn Ht.
  destruct (key_sizes_lookup names tagsSlice i name tags Hn Ht) as [Hsz Hlay].
  eexists _, (key_layout name tags).
  split; [apply key_views_lookup; exact Hsz|].
  cbn [s_ptr s_off s_len].
  split.
  { apply contents_at
      with (arr := concat (key_layouts names tagsSlice))
           (l1 := concat (take i (key_layouts names tagsSlice)))
           (l2 := concat (drop (S i) (key_layouts names tagsSlice))).
    - rewrite lookup_app_r, Nat.sub_diag by lia. reflexivity.
    - rewrite <- (take_drop_middle _ _ _ Hlay) at 1.
      by rewrite concat_app, concat_cons.
    - unfold key_layouts, key_sizes. rewrite !zip_with_take.
      fold (key_layouts (take i names) (take i tagsSlice)).
      fold (key_sizes (take i names) (take i tagsSlice)).
      rewrite key_sizes_layouts. lia.
    - symmetry. apply SeriesKeySize_layout. }
  split.
  { intros h0. eexists _, _. split; [apply AppendSeriesKey_nil|].
    apply key_contents. }
  repeat split.
Qed.

Lemma GenerateSeriesKeys_bulk_witness :
  let names := [aaa; cpu_name] in
  let tagsSlice := [taaa_vaaa; cpu_tags] in
  length names = length tagsSlice
  /\ exists keys buf total,
       GenerateSeriesKeys names tagsSlice [] = Ok (keys, [] ++ [buf])
       /\ length keys = length names
       /\ SeriesKeysSize names tagsSlice = Ok total
       /\ blen buf = total
       /\ forall (i : nat) (name : list byte) (tags : Tags),
            names !! i = Some name -> tagsSlice !! i = Some tags ->
            exists s enc,
              keys !! i = Some (Some s)
              /\ contents ([] ++ [buf]) (Some s) = Ok enc
              /\ (forall h0, exists k0 h0',
                     AppendSeriesKey None name tags h0 = Ok (k0, h0')
                     /\ contents h0' k0 = Ok enc)
              /\ s_ptr s = length ([] : heap)
              /\ s_off s = sumZ (take i (key_sizes names tagsSlice))
              /\ s_len s = SeriesKeySize name tags.
Proof.
  intros names tagsSlice.
  assert (Hlen : length names = length tagsSlice) by reflexivity.
  split; [exact Hlen|].
  exact (GenerateSeriesKeys_bulk names tagsSlice [] Hlen).
Defined.

(** ** Lists of unequal length *)

Lemma GenerateSeriesKeys_panic (names : list (list byte))
    (tagsSlice : list Tags) (h : heap) :
  (length tagsSlice < length names)%nat ->
  SeriesKeysSize names tagsSlice = Panic
  /\ GenerateSeriesKeys names tagsSlice h = Panic.
Proof.
  intros Hlen.
  assert (E : SeriesKeysSize names tagsSlice = Panic)
    by (apply SeriesKeysSize_from_panic; cbn; lia).
  split; [exact E|].
  unfold GenerateSeriesKeys, bind, lift. by rewrite E.
Qed.

Lemma bulk_ignores_surplus (names : list (list byte)) (tagsSlice : list Tags)
    (h : heap) :
  (length names <= length tagsSlice)%nat ->
  SeriesKeysSize names tagsSlice
  = SeriesKeysSize names (take (length names) tagsSlice)
  /\ GenerateSeriesKeys names tagsSlice h
     = GenerateSeriesKeys names (take (length names) tagsSlice) h.
Proof.
  intros Hlen.
  assert (Ht : (length names <= length (take (length names) tagsSlice))%nat)
    by (rewrite length_take; lia).
  rewrite !SeriesKeysSize_ok, !GenerateSeriesKeys_ok by assumption.
  unfold key_sizes, key_layouts. by rewrite !zip_with_take_r.
Qed.

(** C9 (lists of unequal length, as amended): neither bulk path checks the
    lengths of its lists, and neither returns an error.  When [names] is
    the shorter list both succeed and use only the first [len(names)] tag
    sets; when [names] is the longer list both panic, on the index
    [len(tagsSlice)] of [tagsSlice], [GenerateSeriesKeys] doing so while it
    computes the size, before it allocates. *)
Theorem bulk_paths_unchecked (names : list (list byte))
    (tagsSlice : list Tags) (h : heap) :
  ((length names <= length tagsSlice)%nat ->
   SeriesKeysSize names tagsSlice
   = SeriesKeysSize names (take (length names) tagsSlice)
   /\ GenerateSeriesKeys names tagsSlice h
      = GenerateSeriesKeys names (take (length names) tagsSlice) h
   /\ exists total keys h',
        SeriesKeysSize names tagsSlice = Ok total
        /\ GenerateSeriesKeys names tagsSlice h = Ok (keys, h')
        /\ length keys = length names)
  /\ ((length tagsSlice < length names)%nat ->
      SeriesKeysSize names tagsSlice = Panic
      /\ GenerateSeriesKeys names tagsSlice h = Panic).
Proof.
  split.
  - intros Hlen.
    destruct (bulk_ignores_surplus names tagsSlice h Hlen) as [E1 E2].
    split; [exact E1|]. split; [exact E2|].
    eexists _, _, _. split; [by apply SeriesKeysSize_ok|].
    split; [by apply GenerateSeriesKeys_ok|].
    rewrite key_views_length. unfold key_sizes.
    rewrite length_zip_with. lia.
  - apply GenerateSeriesKeys_panic.
Qed.

Lemma bulk_paths_unchecked_witness :
  ((length [aaa] <= length [taaa_vaaa; tbbb_vaaa])%nat
   /\ SeriesKeysSize [aaa] [taaa_vaaa; tbbb_vaaa]
      = SeriesKeysSize [aaa] (take (length [aaa]) [taaa_vaaa; tbbb_vaaa])
   /\ GenerateSeriesKeys [aaa] [taaa_vaaa; tbbb_vaaa] []
      = GenerateSeriesKeys [aaa] (take (length [aaa]) [taaa_vaaa; tbbb_vaaa]) []
   /\ exists total keys h',
        SeriesKeysSize [aaa] [taaa_vaaa; tbbb_vaaa] = Ok total
        /\ GenerateSeriesKeys [aaa] [taaa_vaaa; tbbb_vaaa] [] = Ok (keys, h')
        /\ length keys = length [aaa])
  /\ ((length [taaa_vaaa] < length [aaa; cpu_name])%nat
      /\ SeriesKeysSize [aaa; cpu_name] [taaa_vaaa] = Panic
      /\ GenerateSeriesKeys [aaa; cpu_name] [taaa_vaaa] [] = Panic).
Proof.
  assert (H1 : (length [aaa] <= length [taaa_vaaa; tbbb_vaaa])%nat)
    by (simpl; lia).
  assert (H2 : (length [taaa_vaaa] < length [aaa; cpu_name])%nat)
    by (simpl; lia).
  split.
  - split; [exact H1|].
    exact (proj1 (bulk_paths_unchecked [aaa] [taaa_vaaa; tbbb_vaaa] []) H1).
  - split; [exact H2|].
    exact (proj2 (bulk_paths_unchecked [aaa; cpu_name] [taaa_vaaa] []) H2).
Defined.

(** A names list shorter than the tag-set list is accepted: one key is
    made and the second tag set is never read. *)
Lemma bulk_accepts_unequal_lists :
  let names := [aaa] in
  let tagsSlice := [taaa_vaaa; tbbb_vaaa] in
  length names <> length tagsSlice
  /\ SeriesKeysSize names tagsSlice = Ok 21
  /\ exists keys h',
       GenerateSeriesKeys names tagsSlice [] = Ok (keys, h')
       /\ keys = [Some (Slice 0 0 21 21)]
       /\ h' = [key_layout aaa taaa_vaaa].
Proof.
  intros names tagsSlice.
  split; [discriminate|]. split; [reflexivity|].
  eexists _, _. split; [apply GenerateSeriesKeys_ok; simpl; lia|].
  split; reflexivity.
Qed.

(** * Further properties *)

(** ** 16-bit words in a buffer *)

Lemma bind_ret {A} (m : M A) (h : heap) : bind m ret h = m h.
Proof. unfold bind, ret. destruct (m h) as [[a h']|]; reflexivity. Qed.

Lemma split_word (bs : list byte) (p : nat) :
  (p + 2 <= length bs)%nat ->
  exists x, bs = take p bs ++ x ++ drop (p + 2) bs /\ length x = 2%nat.
Proof.
  intros Hp. exists (take 2 (drop p bs)). split.
  - rewrite <- (take_drop p bs) at 1. f_equal.
    rewrite <- (take_drop 2 (drop p bs)) at 1. f_equal.
    rewrite drop_drop. reflexivity.
  - rewrite length_take, length_drop. lia.
Qed.

(** X1: a 16-bit value written at position [p] of a buffer is read back
    from [p]; the write changes the two bytes at [p] and [p+1] and nothing
    else of the buffer. *)
Theorem PutUint16_GetUint16 (h : heap) (s : slice) (p v : Z) :
  valid h (Some s) ->
  0 <= p -> p + 2 <= s_len s ->
  0 <= v < 65536 ->
  exists h' bs,
    PutUint16 (Some s) p v h = Ok (tt, h')
    /\ GetUint16 h' (Some s) p = Ok v
    /\ contents h (Some s) = Ok bs
    /\ contents h' (Some s)
       = Ok (take (Z.to_nat p) bs ++ be16 v ++ drop (Z.to_nat p + 2) bs)
    /\ valid h' (Some s).
Proof.
  intros Hv Hp Hlen Hr.
  destruct (valid_contents h s Hv)
    as (arr & lpre & old & spare & Harr & -> & Hl & Hold & Hcap & Hc).
  destruct (split_word old (Z.to_nat p)) as (x & Hx & Hx2); [lia|].
  set (a := take (Z.to_nat p) old) in *.
  set (b := drop (Z.to_nat p + 2) old) in *.
  assert (Ha : length a = Z.to_nat p) by (apply length_take_le; lia).
  assert (Hb : (length a + 2 + length b)%nat = length old)
    by (rewrite Hx; rewrite !length_app; lia).
  assert (Hp' : (s_ptr s < length h)%nat) by (eapply lookup_lt_Some; exact Harr).
  destruct s as [q o n c]. cbn [s_ptr s_off s_len s_cap] in *.
  exists (<[q := (lpre ++ a) ++ be16 v ++ b ++ spare]> h), old.
  split.
  { assert (HP : bind (PutUint16 (Some (Slice q o n c)) p v) ret
                   (<[q := lpre ++ old ++ spare]> h)
                 = ret tt (<[q := (lpre ++ a) ++ be16 v ++ b ++ spare]> h)).
    { apply PutUint16_at with (x := x);
        [exact Hp'|rewrite Hx at 1; list_eq|exact Hx2
        |rewrite length_app; lia|lia..]. }
    rewrite (list_insert_id h q _ Harr), bind_ret in HP. exact HP. }
  split.
  { eapply GetUint16_at with (l1 := lpre ++ a) (l2 := b ++ spare);
      [apply heap_lookup_upd; exact Hp'|reflexivity
      |rewrite length_app; lia|lia..]. }
  split; [exact Hc|].
  split.
  { eapply contents_at with (l1 := lpre) (l2 := spare);
      [apply heap_lookup_upd; exact Hp'|list_eq|exact Hl
      |rewrite !length_app, be16_length, length_take, length_drop; lia]. }
  eexists. cbn [s_ptr s_off s_len s_cap].
  split; [apply heap_lookup_upd; exact Hp'|].
  destruct Hv as (arr0 & Harr0 & H1 & H2 & H3).
  cbn [s_ptr s_off s_len s_cap] in *.
  rewrite Harr in Harr0. injection Harr0 as <-.
  rewrite !length_app in *. rewrite be16_length. lia.
Qed.

Lemma PutUint16_GetUint16_witness :
  let h : heap := [[Init.Byte.x00; Init.Byte.x00; Init.Byte.x00]] in
  let s := Slice 0 0 3 3 in
  valid h (Some s) /\ 0 <= 1 /\ 1 + 2 <= s_len s /\ 0 <= 258 < 65536
  /\ exists h' bs,
       PutUint16 (Some s) 1 258 h = Ok (tt, h')
       /\ GetUint16 h' (Some s) 1 = Ok 258
       /\ contents h (Some s) = Ok bs
       /\ contents h' (Some s)
          = Ok (take (Z.to_nat 1) bs ++ be16 258 ++ drop (Z.to_nat 1 + 2) bs)
       /\ valid h' (Some s).
Proof.
  intros h s.
  assert (Hv : valid h (Some s)).
  { exists [Init.Byte.x00; Init.Byte.x00; Init.Byte.x00].
    cbn. repeat split; lia. }
  assert (H1 : 0 <= 1) by lia.
  assert (H2 : 1 + 2 <= s_len s) by (simpl; lia).
  assert (H3 : 0 <= 258 < 65536) by lia.
  split; [exact Hv|]. split; [exact H1|]. split; [exact H2|].
  split; [exact H3|].
  exact (PutUint16_GetUint16 h s 1 258 Hv H1 H2 H3).
Defined.

Lemma Uint16_short (h : heap) (b : bytes) (p v : Z) :
  p < 0 \/ len b < p + 2 ->
  PutUint16 b p v h = Panic /\ GetUint16 h b p = Panic.
Proof.
  intros Hp.
  unfold PutUint16, GetUint16, bind, lift, rbind, reslice.
  destruct ((0 <=? p) && (p <=? len b) && (len b <=? cap b)) eqn:E;
    [|split; reflexivity].
  rewrite !andb_true_iff, !Z.leb_le in E.
  unfold BigEndian_PutUint16, BigEndian_Uint16.
  destruct b as [s|]; cbn [len cap s_len s_cap] in *.
  - replace (1 <? s_len s - p) with false
      by (symmetry; apply Z.ltb_ge; lia).
    split; reflexivity.
  - split; reflexivity.
Qed.

(** X2: a 16-bit access that does not lie within the length of the buffer
    panics: [PutUint16] writes nothing and [GetUint16] returns nothing when
    [p < 0] or [p + 2 > len(b)]. *)
Theorem Uint16_out_of_range (h : heap) (b : bytes) (p v : Z) :
  p < 0 \/ len b < p + 2 ->
  PutUint16 b p v h = Panic /\ GetUint16 h b p = Panic.
Proof. apply Uint16_short. Qed.

Lemma Uint16_out_of_range_witness :
  let h : heap := [[Init.Byte.x00; Init.Byte.x00; Init.Byte.x00]] in
  let b : bytes := Some (Slice 0 0 3 3) in
  (2 < 0 \/ len b < 2 + 2)
  /\ PutUint16 b 2 7 h = Panic /\ GetUint16 h b 2 = Panic.
Proof.
  intros h b.
  assert (Hp : 2 < 0 \/ len b < 2 + 2) by (right; simpl; lia).
  split; [exact Hp|].
  exact (Uint16_out_of_range h b 2 7 Hp).
Defined.

(** ** Buffers too short for a key *)

(** X3: a buffer of fewer than two bytes cannot be decoded:
    [ParseSeriesKeyTags], [ParseSeriesKey] and [GetSeriesKeyTagN] panic on
    it, and so does [CompareSeriesKeys] as soon as both buffers are
    non-empty and one of them has fewer than two bytes. *)
Theorem short_buffer_panics (h : heap) (data other : bytes) (tb : TagBuf) :
  len data < 2 ->
  ParseSeriesKeyTags h data tb = Panic
  /\ ParseSeriesKey h data = Panic
  /\ GetSeriesKeyTagN h data = Panic
  /\ (len data <> 0 -> len other <> 0 ->
      CompareSeriesKeys h data other = Panic
      /\ CompareSeriesKeys h other data = Panic).
Proof.
  intros Hlen.
  assert (E : GetUint16 h data 0 = Panic)
    by (apply (Uint16_short h data 0 0); lia).
  unfold ParseSeriesKey, ParseSeriesKeyTags, GetSeriesKeyTagN.
  rewrite E. cbn [rbind]. repeat split; try reflexivity.
  - unfold CompareSeriesKeys.
    destruct (Z.eqb_spec (len data) 0) as [|_]; [contradiction|].
    destruct (Z.eqb_spec (len other) 0) as [|_]; [contradiction|].
    cbn [andb]. by rewrite E.
  - unfold CompareSeriesKeys.
    destruct (Z.eqb_spec (len data) 0) as [|_]; [contradiction|].
    destruct (Z.eqb_spec (len other) 0) as [|_]; [contradiction|].
    cbn [andb]. rewrite E.
    destruct (GetUint16 h other 0); reflexivity.
Qed.

Lemma short_buffer_panics_witness :
  let h : heap := [[Init.Byte.x07]] in
  let data : bytes := Some (Slice 0 0 1 1) in
  len data < 2
  /\ ParseSeriesKeyTags h data tb_nil = Panic
  /\ ParseSeriesKey h data = Panic
  /\ GetSeriesKeyTagN h data = Panic
  /\ (len data <> 0 -> len first_key <> 0 ->
      CompareSeriesKeys h data first_key = Panic
      /\ CompareSeriesKeys h first_key data = Panic).
Proof.
  intros h data.
  assert (Hlen : len data < 2) by (simpl; lia).
  split; [exact Hlen|].
  exact (short_buffer_panics h data first_key tb_nil Hlen).
Defined.

(** ** The number of tags of a key *)

Lemma offsets_size_tagN (T : Z) :
  0 <= T -> Z.quot (uint16 (2 + 4 * T) - 2) 4 = T mod 16384.
Proof.
  intros HT. unfold uint16.
  pose proof (Z.div_mod T 16384) as Hdm.
  pose proof (Z.mod_pos_bound T 16384) as Hr.
  set (q := T / 16384) in *. set (r := T mod 16384) in *.
  replace (2 + 4 * T) with ((2 + 4 * r) + q * 65536) by lia.
  rewrite Z.mod_add by lia. rewrite Z.mod_small by lia.
  replace (2 + 4 * r - 2) with (r * 4) by lia.
  apply Z.quot_mul. lia.
Qed.

(** X4: on the key of a tag set of at most 16383 tags [GetSeriesKeyTagN]
    returns the number of tags; in general it returns that number modulo
    16384, the offsets size being kept on 16 bits. *)
Theorem GetSeriesKeyTagN_encoded (name : list byte) (tags : Tags) (h : heap) :
  exists k h',
    AppendSeriesKey None name tags h = Ok (k, h')
    /\ GetSeriesKeyTagN h' k = Ok (Z.of_nat (length tags) mod 16384)
    /\ (Z.of_nat (length tags) <= 16383 ->
        GetSeriesKeyTagN h' k = Ok (Z.of_nat (length tags))).
Proof.
  pose proof (SeriesKeySize_min name tags) as Hmin.
  assert (E : GetSeriesKeyTagN (h ++ [key_layout name tags])
                (Some (Slice (length h) 0 (SeriesKeySize name tags)
                             (SeriesKeySize name tags)))
              = Ok (Z.of_nat (length tags) mod 16384)).
  { unfold GetSeriesKeyTagN.
    erewrite GetUint16_at
      with (l1 := []) (v := uint16 (2 + 4 * Z.of_nat (length tags)));
      [|rewrite lookup_app_r, Nat.sub_diag by lia; reflexivity
       |unfold key_layout; reflexivity|reflexivity
       |apply uint16_range|lia..].
    cbn [rbind]. f_equal. apply offsets_size_tagN. lia. }
  eexists _, _. split; [apply AppendSeriesKey_nil|].
  split; [exact E|].
  intros Hle. rewrite E. f_equal. apply Z.mod_small. lia.
Qed.

(** ** Encoded keys are never empty and never confused *)

Lemma encodes_layout (name : list byte) (tags : Tags) :
  encodes name tags (key_layout name tags).
Proof.
  intros h0. eexists _, _. split; [apply AppendSeriesKey_nil|].
  apply key_contents.
Qed.

Lemma encodes_unique (name : list byte) (tags : Tags) (enc : list byte) :
  encodes name tags enc -> enc = key_layout name tags.
Proof.
  intros He. destruct (He []) as (k & h' & Happ & Hc).
  rewrite AppendSeriesKey_nil in Happ. injection Happ as <- <-.
  pose proof (key_contents name tags []) as Hk.
  cbn [app length] in Hk, Hc. rewrite Hk in Hc. by injection Hc.
Qed.

(** X5: the key of any name and tag set has at least six bytes, so it is
    never the empty (nil) key: the nil key compares less than every encoded
    key, and every encoded key greater than the nil key. *)
Theorem encoded_key_after_nil (name : list byte) (tags : Tags) (h : heap) :
  exists k h',
    AppendSeriesKey None name tags h = Ok (k, h')
    /\ 6 <= len k
    /\ forall e : bytes,
         len e = 0 ->
         CompareSeriesKeys h' e k = Ok (-1)
         /\ CompareSeriesKeys h' k e = Ok 1.
Proof.
  pose proof (SeriesKeySize_min name tags) as Hmin.
  eexists _, _. split; [apply AppendSeriesKey_nil|].
  split; [exact Hmin|].
  intros e He.
  apply (CompareSeriesKeys_empty _ e e); [exact He|exact He|].
  cbn [len s_len]. lia.
Qed.

(** X6: encoding is injective on encodable inputs: when the name and every
    tag key and value have at most 65535 bytes and there are at most 16383
    tags, two inputs with the same key bytes have the same name and the
    same tags, in the same order. *)
Theorem AppendSeriesKey_injective (n1 n2 : list byte) (t1 t2 : Tags)
    (enc : list byte) :
  encodable n1 t1 -> encodable n2 t2 ->
  encodes n1 t1 enc -> encodes n2 t2 enc ->
  n1 = n2 /\ t1 = t2.
Proof.
  intros H1 H2 E1 E2.
  apply encodes_unique in E1, E2.
  assert (P1 : ParseSeriesKey [enc] (Some (Slice 0 0 (blen enc) (blen enc)))
               = Ok (n1, t1)).
  { apply ParseSeriesKeyTags_layout
      with (arr := enc) (lpre := []) (post := []);
      [reflexivity|rewrite E1; cbn; by rewrite app_nil_r|reflexivity
      |rewrite E1; apply key_layout_length|lia|exact H1]. }
  assert (P2 : ParseSeriesKey [enc] (Some (Slice 0 0 (blen enc) (blen enc)))
               = Ok (n2, t2)).
  { apply ParseSeriesKeyTags_layout
      with (arr := enc) (lpre := []) (post := []);
      [reflexivity|rewrite E2; cbn; by rewrite app_nil_r|reflexivity
      |rewrite E2; apply key_layout_length|lia|exact H2]. }
  rewrite P1 in P2. by injection P2.
Qed.

Lemma AppendSeriesKey_injective_witness :
  encodable cpu_name cpu_tags /\ encodable cpu_name cpu_tags
  /\ encodes cpu_name cpu_tags (key_layout cpu_name cpu_tags)
  /\ encodes cpu_name cpu_tags (key_layout cpu_name cpu_tags)
  /\ cpu_name = cpu_name /\ cpu_tags = cpu_tags.
Proof.
  split; [exact cpu_encodable|]. split; [exact cpu_encodable|].
  split; [exact (encodes_layout cpu_name cpu_tags)|].
  split; [exact (encodes_layout cpu_name cpu_tags)|].
  exact (AppendSeriesKey_injective cpu_name cpu_name cpu_tags cpu_tags _
           cpu_encodable cpu_encodable
           (encodes_layout cpu_name cpu_tags)
           (encodes_layout cpu_name cpu_tags)).
Defined.

(** ** Comparing encoded keys *)

(** With at most 16383 tags, the payload the headers of a key locate is the
    first [payloadSize] bytes of the name followed by the tags' keys and
    values, [payloadSize] being the length of those on 16 bits. *)
Lemma payload_of_layout_wrap (name : list byte) (tags : Tags) :
  2 + 4 * Z.of_nat (length tags) <= 65535 ->
  payload_of (key_layout name tags)
  = Some (take (Z.to_nat (uint16 (blen (key_payload name tags))))
               (key_payload name tags)).
Proof.
  intros Hofs.
  assert (Htl := tag_lengths_length tags).
  set (ofs := 2 + 4 * Z.of_nat (length tags)) in *.
  set (pl := key_payload name tags) in *.
  set (A := be16 ofs ++ be16 (uint16 (blen name)) ++ tag_lengths tags).
  assert (HA : Z.of_nat (length A) = ofs + 2)
    by (unfold A; rewrite !length_app, !be16_length; lia).
  assert (Hpl0 : 0 <= blen pl) by (unfold blen; lia).
  pose proof (uint16_range (blen pl)) as Hr.
  pose proof (uint16_le (blen pl) Hpl0) as Hle.
  set (sz := uint16 (blen pl)) in *.
  assert (Hlay : key_layout name tags = A ++ be16 sz ++ pl).
  { unfold key_layout, A. fold ofs pl. fold sz.
    rewrite (uint16_small ofs) by lia. list_eq. }
  assert (H0 : u16_at (key_layout name tags) 0 = Some ofs).
  { unfold key_layout. fold ofs. rewrite (uint16_small ofs) by lia.
    apply (u16_at_be16 [] _ ofs). lia. }
  assert (H1 : u16_at (key_layout name tags) (Z.to_nat (ofs + 2)) = Some sz).
  { rewrite Hlay. replace (Z.to_nat (ofs + 2)) with (length A) by lia.
    apply u16_at_be16. lia. }
  unfold payload_of. rewrite H0, H1, Hlay.
  replace (ofs + 4 + sz <=? blen (A ++ be16 sz ++ pl)) with true
    by (symmetry; apply Z.leb_le; unfold blen in *;
        rewrite !length_app, be16_length; lia).
  do 2 f_equal.
  replace (Z.to_nat (ofs + 4)) with (length (A ++ be16 sz))
    by (rewrite length_app, be16_length; lia).
  by rewrite app_assoc, drop_app_length.
Qed.

Lemma encoded_holds_key_wrap (name : list byte) (tags : Tags) (h : heap) :
  2 + 4 * Z.of_nat (length tags) <= 65535 ->
  holds_key (h ++ [key_layout name tags])
    (Some (Slice (length h) 0 (SeriesKeySize name tags)
                 (SeriesKeySize name tags)))
    (take (Z.to_nat (uint16 (blen (key_payload name tags))))
          (key_payload name tags)).
Proof.
  intros Hofs. split.
  - exists (key_layout name tags). cbn [s_ptr s_off s_len s_cap].
    pose proof (SeriesKeySize_min name tags).
    rewrite lookup_app_r, Nat.sub_diag by lia.
    pose proof (SeriesKeySize_layout name tags).
    repeat split; lia.
  - exists (key_layout name tags). split; [apply key_contents|].
    by apply payload_of_layout_wrap.
Qed.

Lemma take_fits (pl : list byte) :
  blen pl <= 65535 -> take (Z.to_nat (uint16 (blen pl))) pl = pl.
Proof.
  intros Hpl. rewrite uint16_small by (unfold blen in *; lia).
  unfold blen. rewrite Nat2Z.id. apply firstn_all.
Qed.

(** What [CompareSeriesKeys] returns on the keys of two inputs, encoded one
    after the other. *)
Lemma CompareSeriesKeys_layouts (n1 n2 : list byte) (t1 t2 : Tags) (h : heap) :
  2 + 4 * Z.of_nat (length t1) <= 65535 ->
  2 + 4 * Z.of_nat (length t2) <= 65535 ->
  let h2 := (h ++ [key_layout n1 t1]) ++ [key_layout n2 t2] in
  let ka := Some (Slice (length h) 0 (SeriesKeySize n1 t1)
                        (SeriesKeySize n1 t1)) in
  let kb := Some (Slice (length (h ++ [key_layout n1 t1])) 0
                        (SeriesKeySize n2 t2) (SeriesKeySize n2 t2)) in
  let pa := take (Z.to_nat (uint16 (blen (key_payload n1 t1))))
                 (key_payload n1 t1) in
  let pb := take (Z.to_nat (uint16 (blen (key_payload n2 t2))))
                 (key_payload n2 t2) in
  CompareSeriesKeys h2 ka kb = Ok (bytes_Compare pa pb)
  /\ CompareSeriesKeys h2 kb ka = Ok (bytes_Compare pb pa).
Proof.
  intros H1 H2 h2 ka kb pa pb.
  assert (Ha : holds_key h2 ka pa)
    by (apply holds_key_extend; by apply encoded_holds_key_wrap).
  assert (Hb : holds_key h2 kb pb) by (by apply encoded_holds_key_wrap).
  split; by apply CompareSeriesKeys_holds.
Qed.

(** X7: the comparison of the keys of two inputs with at most 16383 tags
    each is the lexicographic comparison of their payloads, the name
    followed by every tag key and value, each cut to its length modulo
    65536; when both payloads have at most 65535 bytes it is the
    comparison of the whole payloads. *)
Theorem CompareSeriesKeys_encoded (n1 n2 : list byte) (t1 t2 : Tags)
    (h : heap) :
  2 + 4 * Z.of_nat (length t1) <= 65535 ->
  2 + 4 * Z.of_nat (length t2) <= 65535 ->
  exists ka h1 kb h2,
    AppendSeriesKey None n1 t1 h = Ok (ka, h1)
    /\ AppendSeriesKey None n2 t2 h1 = Ok (kb, h2)
    /\ CompareSeriesKeys h2 ka kb
       = Ok (bytes_Compare
               (take (Z.to_nat (blen (n1 ++ tag_bytes t1) mod 65536))
                     (n1 ++ tag_bytes t1))
               (take (Z.to_nat (blen (n2 ++ tag_bytes t2) mod 65536))
                     (n2 ++ tag_bytes t2)))
    /\ (blen (n1 ++ tag_bytes t1) <= 65535 ->
        blen (n2 ++ tag_bytes t2) <= 65535 ->
        CompareSeriesKeys h2 ka kb
        = Ok (bytes_Compare (n1 ++ tag_bytes t1) (n2 ++ tag_bytes t2))).
Proof.
  intros H1 H2.
  destruct (CompareSeriesKeys_layouts n1 n2 t1 t2 h H1 H2) as [E _].
  eexists _, _, _, _.
  split; [apply AppendSeriesKey_nil|].
  split; [apply AppendSeriesKey_nil|].
  split; [exact E|].
  intros F1 F2. rewrite E.
  fold (key_payload n1 t1) (key_payload n2 t2) in *.
  by rewrite !take_fits.
Qed.

Lemma CompareSeriesKeys_encoded_witness :
  2 + 4 * Z.of_nat (length taaa_vaaa) <= 65535
  /\ 2 + 4 * Z.of_nat (length tbbb_vaaa) <= 65535
  /\ exists ka h1 kb h2,
       AppendSeriesKey None aaa taaa_vaaa [] = Ok (ka, h1)
       /\ AppendSeriesKey None aaa tbbb_vaaa h1 = Ok (kb, h2)
       /\ CompareSeriesKeys h2 ka kb
          = Ok (bytes_Compare
                  (take (Z.to_nat (blen (aaa ++ tag_bytes taaa_vaaa) mod 65536))
                        (aaa ++ tag_bytes taaa_vaaa))
                  (take (Z.to_nat (blen (aaa ++ tag_bytes tbbb_vaaa) mod 65536))
                        (aaa ++ tag_bytes tbbb_vaaa)))
       /\ (blen (aaa ++ tag_bytes taaa_vaaa) <= 65535 ->
           blen (aaa ++ tag_bytes tbbb_vaaa) <= 65535 ->
           CompareSeriesKeys h2 ka kb
           = Ok (bytes_Compare (aaa ++ tag_bytes taaa_vaaa)
                               (aaa ++ tag_bytes tbbb_vaaa))).
Proof.
  assert (H1 : 2 + 4 * Z.of_nat (length taaa_vaaa) <= 65535) by (simpl; lia).
  assert (H2 : 2 + 4 * Z.of_nat (length tbbb_vaaa) <= 65535) by (simpl; lia).
  split; [exact H1|]. split; [exact H2|].
  exact (CompareSeriesKeys_encoded aaa aaa taaa_vaaa tbbb_vaaa [] H1 H2).
Defined.

(** X8: when two names first differ at some byte (neither is a prefix of
    the other) the names alone decide the order of the keys, whatever the
    tags: the key of the name with the smaller byte compares less.  (Fields
    within the limits: at most 16383 tags, payloads of at most 65535
    bytes.) *)
Theorem CompareSeriesKeys_by_name (p r1 r2 : list byte) (x y : byte)
    (t1 t2 : Tags) (h : heap) :
  byte_to_Z x < byte_to_Z y ->
  2 + 4 * Z.of_nat (length t1) <= 65535 ->
  2 + 4 * Z.of_nat (length t2) <= 65535 ->
  blen ((p ++ x :: r1) ++ tag_bytes t1) <= 65535 ->
  blen ((p ++ y :: r2) ++ tag_bytes t2) <= 65535 ->
  exists ka h1 kb h2,
    AppendSeriesKey None (p ++ x :: r1) t1 h = Ok (ka, h1)
    /\ AppendSeriesKey None (p ++ y :: r2) t2 h1 = Ok (kb, h2)
    /\ CompareSeriesKeys h2 ka kb = Ok (-1)
    /\ CompareSeriesKeys h2 kb ka = Ok 1.
Proof.
  intros Hxy H1 H2 F1 F2.
  destruct (CompareSeriesKeys_layouts (p ++ x :: r1) (p ++ y :: r2) t1 t2 h
              H1 H2) as [E1 E2].
  fold (key_payload (p ++ x :: r1) t1) in F1.
  fold (key_payload (p ++ y :: r2) t2) in F2.
  rewrite !take_fits in E1, E2 by assumption.
  assert (Hlt : lex_lt (key_payload (p ++ x :: r1) t1)
                       (key_payload (p ++ y :: r2) t2)).
  { right. exists p, x, y, (r1 ++ tag_bytes t1), (r2 ++ tag_bytes t2).
    unfold key_payload. split; [list_eq|]. split; [list_eq|exact Hxy]. }
  eexists _, _, _, _.
  split; [apply AppendSeriesKey_nil|].
  split; [apply AppendSeriesKey_nil|].
  split.
  - rewrite E1. f_equal. by apply bytes_Compare_lt.
  - rewrite E2. f_equal. by apply bytes_Compare_gt.
Qed.

Lemma CompareSeriesKeys_by_name_witness :
  let p := [Init.Byte.x61] in
  let x := Init.Byte.x61 in
  let y := Init.Byte.x62 in
  let r1 := [Init.Byte.x61; Init.Byte.x61; Init.Byte.x61] in
  let r2 : list byte := [] in
  byte_to_Z x < byte_to_Z y
  /\ 2 + 4 * Z.of_nat (length taaa_vaaa) <= 65535
  /\ 2 + 4 * Z.of_nat (length cpu_tags) <= 65535
  /\ blen ((p ++ x :: r1) ++ tag_bytes taaa_vaaa) <= 65535
  /\ blen ((p ++ y :: r2) ++ tag_bytes cpu_tags) <= 65535
  /\ exists ka h1 kb h2,
       AppendSeriesKey None (p ++ x :: r1) taaa_vaaa [] = Ok (ka, h1)
       /\ AppendSeriesKey None (p ++ y :: r2) cpu_tags h1 = Ok (kb, h2)
       /\ CompareSeriesKeys h2 ka kb = Ok (-1)
       /\ CompareSeriesKeys h2 kb ka = Ok 1.
Proof.
  intros p x y r1 r2.
  assert (Hxy : byte_to_Z x < byte_to_Z y) by (vm_compute; reflexivity).
  assert (H1 : 2 + 4 * Z.of_nat (length taaa_vaaa) <= 65535) by (simpl; lia).
  assert (H2 : 2 + 4 * Z.of_nat (length cpu_tags) <= 65535) by (simpl; lia).
  assert (F1 : blen ((p ++ x :: r1) ++ tag_bytes taaa_vaaa) <= 65535)
    by (unfold blen; simpl; lia).
  assert (F2 : blen ((p ++ y :: r2) ++ tag_bytes cpu_tags) <= 65535)
    by (unfold blen; simpl; lia).
  split; [exact Hxy|]. split; [exact H1|]. split; [exact H2|].
  split; [exact F1|]. split; [exact F2|].
  exact (CompareSeriesKeys_by_name p r1 r2 x y taaa_vaaa cpu_tags []
           Hxy H1 H2 F1 F2).
Defined.

(** ** Decoding the keys of a bulk generation *)

Lemma sumZ_app (l1 l2 : list Z) : sumZ (l1 ++ l2) = sumZ l1 + sumZ l2.
Proof.
  induction l1 as [|x l1 IH]; [reflexivity|].
  cbn [app sumZ foldr]. fold (sumZ (l1 ++ l2)) (sumZ l1). lia.
Qed.

(** Where the [i]-th key lies in the buffer of a bulk generation. *)
Lemma key_layouts_split (names : list (list byte)) (tagsSlice : list Tags)
    (i : nat) (name : list byte) (tags : Tags) :
  names !! i = Some name -> tagsSlice !! i = Some tags ->
  exists lpre post,
    concat (key_layouts names tagsSlice)
    = lpre ++ key_layout name tags ++ post
    /\ Z.of_nat (length lpre) = sumZ (take i (key_sizes names tagsSlice))
    /\ sumZ (take i (key_sizes names tagsSlice)) + SeriesKeySize name tags
       <= sumZ (key_sizes names tagsSlice).
Proof.
  intros Hn Ht.
  destruct (key_sizes_lookup names tagsSlice i name tags Hn Ht) as [Hsz Hlay].
  exists (concat (take i (key_layouts names tagsSlice))),
         (concat (drop (S i) (key_layouts names tagsSlice))).
  assert (Hpre : Z.of_nat (length (concat (take i (key_layouts names tagsSlice))))
                 = sumZ (take i (key_sizes names tagsSlice))).
  { unfold key_layouts, key_sizes. rewrite !zip_with_take.
    fold (key_layouts (take i names) (take i tagsSlice)).
    fold (key_sizes (take i names) (take i tagsSlice)).
    by rewrite key_sizes_layouts. }
  split; [|split; [exact Hpre|]].
  - rewrite <- (take_drop_middle _ _ _ Hlay) at 1.
    by rewrite concat_app, concat_cons.
  - rewrite <- (take_drop_middle _ _ _ Hsz) at 2.
    rewrite sumZ_app. cbn [sumZ foldr].
    fold (sumZ (drop (S i) (key_sizes names tagsSlice))).
    pose proof (sumZ_key_sizes_nonneg (drop (S i) names) (drop (S i) tagsSlice))
      as Hnn.
    unfold key_sizes in Hnn |- *. rewrite zip_with_drop. lia.
Qed.

(** X9: every key that [GenerateSeriesKeys] returns decodes to the name and
    the tags it was made from, although all keys share one buffer: for an
    encodable pair [names[i]], [tagsSlice[i]], [ParseSeriesKey] on the
    [i]-th key gives back that name and those tags. *)
Theorem GenerateSeriesKeys_ParseSeriesKey (names : list (list byte))
    (tagsSlice : list Tags) (h : heap) (i : nat) (name : list byte)
    (tags : Tags) :
  (length names <= length tagsSlice)%nat ->
  names !! i = Some name -> tagsSlice !! i = Some tags ->
  encodable name tags ->
  exists keys h' k,
    GenerateSeriesKeys names tagsSlice h = Ok (keys, h')
    /\ keys !! i = Some k
    /\ ParseSeriesKey h' k = Ok (name, tags)
    /\ forall tb, ParseSeriesKeyTags h' k tb = Ok (name, tags).
Proof.
  intros Hlen Hn Ht Henc.
  destruct (key_sizes_lookup names tagsSlice i name tags Hn Ht) as [Hsz _].
  destruct (key_layouts_split names tagsSlice i name tags Hn Ht)
    as (lpre & post & Hcat & Hpre & Hfit).
  pose proof (sumZ_key_sizes_nonneg (take i names) (take i tagsSlice)) as Hnn.
  unfold key_sizes in Hnn. rewrite <- zip_with_take in Hnn.
  fold (key_sizes names tagsSlice) in Hnn.
  assert (Hparse : forall tb,
             ParseSeriesKeyTags (h ++ [concat (key_layouts names tagsSlice)])
               (Some (Slice (length h)
                            (0 + sumZ (take i (key_sizes names tagsSlice)))
                            (SeriesKeySize name tags)
                            (sumZ (key_sizes names tagsSlice)
                             - (0 + sumZ (take i (key_sizes names tagsSlice))))))
               tb
             = Ok (name, tags)).
  { intros tb.
    apply ParseSeriesKeyTags_layout
      with (arr := concat (key_layouts names tagsSlice))
           (lpre := lpre) (post := post);
      [rewrite lookup_app_r, Nat.sub_diag by lia; reflexivity
      |exact Hcat|lia|reflexivity|lia|exact Henc]. }
  eexists _, _, _.
  split; [by apply GenerateSeriesKeys_ok|].
  split; [apply key_views_lookup; exact Hsz|].
  split; [apply Hparse|exact Hparse].
Qed.

Lemma GenerateSeriesKeys_ParseSeriesKey_witness :
  let names := [aaa; cpu_name] in
  let tagsSlice := [taaa_vaaa; cpu_tags] in
  (length names <= length tagsSlice)%nat
  /\ names !! 1%nat = Some cpu_name
  /\ tagsSlice !! 1%nat = Some cpu_tags
  /\ encodable cpu_name cpu_tags
  /\ exists keys h' k,
       GenerateSeriesKeys names tagsSlice [] = Ok (keys, h')
       /\ keys !! 1%nat = Some k
       /\ ParseSeriesKey h' k = Ok (cpu_name, cpu_tags)
       /\ forall tb, ParseSeriesKeyTags h' k tb = Ok (cpu_name, cpu_tags).
Proof.
  intros names tagsSlice.
  assert (Hlen : (length names <= length tagsSlice)%nat) by (simpl; lia).
  assert (Hn : names !! 1%nat = Some cpu_name) by reflexivity.
  assert (Ht : tagsSlice !! 1%nat = Some cpu_tags) by reflexivity.
  split; [exact Hlen|]. split; [exact Hn|]. split; [exact Ht|].
  split; [exact cpu_encodable|].
  exact (GenerateSeriesKeys_ParseSeriesKey names tagsSlice [] 1 cpu_name
           cpu_tags Hlen Hn Ht cpu_encodable).
Defined.

(** ** What an append leaves alone *)

Lemma valid_frame (h : heap) (p : nat) (arr arr' : list byte) (b : bytes) :
  h !! p = Some arr -> length arr' = length arr ->
  valid h b -> valid (<[p := arr']> h) b.
Proof.
  intros Hh Hlen. destruct b as [w|]; [|trivial].
  intros (a & Ha & Hrest).
  destruct (Nat.eq_dec (s_ptr w) p) as [E|Hne].
  - exists arr'. rewrite E in *. rewrite Hh in Ha. injection Ha as <-.
    split; [apply heap_lookup_upd; eapply lookup_lt_Some; exact Hh|].
    rewrite Hlen. exact Hrest.
  - exists a. split; [by rewrite list_lookup_insert_ne by auto|exact Hrest].
Qed.

(** Appending to [nil] or to a valid slice returns a valid non-nil slice
    that shows the old contents followed by the key. *)
Lemma AppendSeriesKey_any (name : list byte) (tags : Tags) (h : heap)
    (dst : bytes) :
  valid h dst ->
  exists old s' h',
    contents h dst = Ok old
    /\ AppendSeriesKey dst name tags h = Ok (Some s', h')
    /\ valid h' (Some s')
    /\ s_len s' = len dst + SeriesKeySize name tags
    /\ contents h' (Some s') = Ok (old ++ key_layout name tags)
    /\ (forall w, valid h w -> valid h' w).
Proof.
  intros Hv.
  pose proof (SeriesKeySize_min name tags) as Hmin.
  pose proof (SeriesKeySize_layout name tags) as Hsz.
  destruct dst as [s|].
  - destruct (valid_contents h s Hv)
      as (arr & lpre & old & spare & Harr & -> & Hl & Hold & Hcap & Hc).
    destruct s as [p o n c]. cbn [s_ptr s_off s_len s_cap len] in *.
    assert (Hp : (p < length h)%nat) by (eapply lookup_lt_Some; exact Harr).
    exists old.
    destruct (Z.lt_ge_cases (c - n) (SeriesKeySize name tags)) as [Hg|Hr].
    + eexists _, _. split; [exact Hc|].
      split; [apply AppendSeriesKey_grow; [exact Hc|lia|exact Hg]|].
      split.
      { exists (old ++ key_layout name tags). cbn [s_ptr s_off s_len s_cap].
        rewrite lookup_app_r, Nat.sub_diag by lia.
        rewrite length_app. repeat split; (reflexivity || lia). }
      split; [reflexivity|].
      split; [|intros w; apply valid_extend].
      eapply contents_at with (l1 := []) (l2 := []);
        [rewrite lookup_app_r, Nat.sub_diag by lia; reflexivity
        |cbn; by rewrite app_nil_r|reflexivity|rewrite length_app; lia].
    + destruct (split_length spare (Z.to_nat (SeriesKeySize name tags)))
        as (W & post & -> & HW); [lia|].
      rewrite length_app in Hcap.
      eexists _, _. split; [exact Hc|].
      split; [eapply AppendSeriesKey_in_place;
              [exact Harr|exact Hl|exact Hold|unfold blen; lia|lia]|].
      split.
      { exists (lpre ++ old ++ key_layout name tags ++ post).
        cbn [s_ptr s_off s_len s_cap].
        split; [apply heap_lookup_upd; exact Hp|].
        rewrite !length_app. repeat split; lia. }
      split; [reflexivity|].
      split.
      * eapply contents_at with (l1 := lpre) (l2 := post);
          [apply heap_lookup_upd; exact Hp|list_eq|exact Hl
          |rewrite length_app; lia].
      * intros w. apply (valid_frame h p _ _ w Harr).
        rewrite !length_app. lia.
  - exists []. eexists _, _. split; [reflexivity|].
    split; [apply AppendSeriesKey_nil|].
    split.
    { exists (key_layout name tags). cbn [s_ptr s_off s_len s_cap].
      rewrite lookup_app_r, Nat.sub_diag by lia.
      repeat split; (reflexivity || lia). }
    split; [reflexivity|].
    split; [apply key_contents|intros w; apply valid_extend].
Qed.

(** X10: [AppendSeriesKey] on a valid non-nil [dst] writes only the
    [SeriesKeySize] bytes after the end of [dst], or a fresh array.  When
    [dst] lacks capacity, one array is allocated and no slice of the old
    heap changes; when it has capacity, nothing is allocated, the result
    is [dst] made longer, and every slice that has no byte among those
    after the end of [dst] shows the same bytes as before. *)
Theorem AppendSeriesKey_frame (name : list byte) (tags : Tags) (h : heap)
    (s : slice) :
  valid h (Some s) ->
  exists s' h',
    AppendSeriesKey (Some s) name tags h = Ok (Some s', h')
    /\ valid h' (Some s')
    /\ (s_cap s - s_len s < SeriesKeySize name tags ->
        length h' = S (length h)
        /\ s_ptr s' = length h
        /\ forall w, valid h w ->
             valid h' w /\ contents h' w = contents h w)
    /\ (SeriesKeySize name tags <= s_cap s - s_len s ->
        length h' = length h
        /\ s' = Slice (s_ptr s) (s_off s)
                      (s_len s + SeriesKeySize name tags) (s_cap s)
        /\ forall w,
             valid h (Some w) -> apart w s (SeriesKeySize name tags) ->
             valid h' (Some w) /\ contents h' (Some w) = contents h (Some w)).
Proof.
  intros Hv.
  pose proof (SeriesKeySize_min name tags) as Hmin.
  pose proof (SeriesKeySize_layout name tags) as Hsz.
  destruct (valid_contents h s Hv)
    as (arr & lpre & old & spare & Harr & -> & Hl & Hold & Hcap & Hc).
  destruct (AppendSeriesKey_any name tags h (Some s) Hv)
    as (old' & s' & h' & _ & Happ & Hv' & _ & _ & Hvw).
  exists s', h'. split; [exact Happ|]. split; [exact Hv'|].
  destruct s as [p o n c]. cbn [s_ptr s_off s_len s_cap] in *.
  split.
  - intros Hg.
    rewrite (AppendSeriesKey_grow name tags h p o n c old Hc) in Happ
      by lia.
    assert (Es : s' = Slice (length h) 0 (n + SeriesKeySize name tags)
                             (n + SeriesKeySize name tags)) by congruence.
    assert (Eh : h' = h ++ [old ++ key_layout name tags]) by congruence.
    subst s' h'.
    split; [rewrite length_app; cbn; lia|]. split; [reflexivity|].
    intros w Hw. split; [by apply valid_extend|].
    destruct w as [w|]; [|reflexivity].
    destruct Hw as (a & Ha & _). unfold contents.
    by rewrite (lookup_app_l_Some _ _ _ _ Ha), Ha.
  - intros Hr.
    destruct (split_length spare (Z.to_nat (SeriesKeySize name tags)))
      as (W & post & -> & HW); [lia|].
    rewrite (AppendSeriesKey_in_place name tags h p o n c lpre old W post
               Harr Hl Hold) in Happ by (unfold blen; lia).
    assert (Es : s' = Slice p o (n + SeriesKeySize name tags) c)
      by congruence.
    assert (Eh : h' = <[p := lpre ++ old ++ key_layout name tags ++ post]> h)
      by congruence.
    subst s' h'.
    split; [apply length_insert|]. split; [reflexivity|].
    intros w Hw Hap. split; [by apply Hvw|].
    replace (lpre ++ old ++ key_layout name tags ++ post)
      with ((lpre ++ old) ++ key_layout name tags ++ post) by list_eq.
    apply contents_frame with (W := W);
      [rewrite Harr; f_equal; list_eq|lia|].
    unfold apart in Hap. cbn [s_ptr s_off s_len] in Hap.
    rewrite length_app. lia.
Qed.

Lemma AppendSeriesKey_frame_witness :
  let h : heap := [[Init.Byte.x01; Init.Byte.x02; Init.Byte.x03]] in
  let s := Slice 0 0 2 3 in
  valid h (Some s)
  /\ exists s' h',
       AppendSeriesKey (Some s) cpu_name cpu_tags h = Ok (Some s', h')
       /\ valid h' (Some s')
       /\ (s_cap s - s_len s < SeriesKeySize cpu_name cpu_tags ->
           length h' = S (length h)
           /\ s_ptr s' = length h
           /\ forall w, valid h w ->
                valid h' w /\ contents h' w = contents h w)
       /\ (SeriesKeySize cpu_name cpu_tags <= s_cap s - s_len s ->
           length h' = length h
           /\ s' = Slice (s_ptr s) (s_off s)
                         (s_len s + SeriesKeySize cpu_name cpu_tags) (s_cap s)
           /\ forall w,
                valid h (Some w) ->
                apart w s (SeriesKeySize cpu_name cpu_tags) ->
                valid h' (Some w)
                /\ contents h' (Some w) = contents h (Some w)).
Proof.
  intros h s.
  assert (Hv : valid h (Some s)).
  { exists [Init.Byte.x01; Init.Byte.x02; Init.Byte.x03].
    cbn. repeat split; lia. }
  split; [exact Hv|].
  exact (AppendSeriesKey_frame cpu_name cpu_tags h s Hv).
Defined.

Lemma clear_of_le (b : bytes) (s : slice) (m n : Z) :
  clear_of b s n -> m <= n -> clear_of b s m.
Proof.
  destruct b as [w|]; [|trivial]. unfold clear_of, apart. lia.
Qed.

Lemma args_clear_le (name : bytes) (tags : list TagSlices) (s : slice)
    (m n : Z) :
  args_clear name tags s n -> m <= n -> args_clear name tags s m.
Proof.
  intros [Hn Ht] Hm. split; [by eapply clear_of_le|].
  eapply Forall_impl; [exact Ht|].
  intros t [Hk Hv]. split; by eapply clear_of_le.
Qed.

(** An append leaves an argument that is clear of the bytes it writes, and
    of [extra] more bytes, showing what it showed and clear of the [extra]
    bytes after the buffer it returns. *)
Lemma AppendSeriesKey_then (name : list byte) (tags : Tags) (h : heap)
    (dst : bytes) (extra : Z) :
  valid h dst -> 0 <= extra ->
  exists old s1 h1,
    contents h dst = Ok old
    /\ AppendSeriesKey dst name tags h = Ok (Some s1, h1)
    /\ valid h1 (Some s1)
    /\ s_len s1 = len dst + SeriesKeySize name tags
    /\ contents h1 (Some s1) = Ok (old ++ key_layout name tags)
    /\ forall b l,
         contents h b = Ok l ->
         (forall s, dst = Some s ->
                    clear_of b s (SeriesKeySize name tags + extra)) ->
         contents h1 b = Ok l /\ clear_of b s1 extra.
Proof.
  intros Hv Hextra.
  pose proof (SeriesKeySize_min name tags) as Hmin.
  pose proof (SeriesKeySize_layout name tags) as Hsz.
  assert (Hfresh : forall (x : list byte) (n c : Z) (b : bytes) (l : list byte),
             contents h b = Ok l ->
             contents (h ++ [x]) b = Ok l
             /\ clear_of b (Slice (length h) 0 n c) extra).
  { intros x n c b l Hb. split; [by apply contents_extend|].
    destruct b as [w|]; [|exact I]. right. left. cbn [s_ptr].
    apply contents_ptr in Hb. lia. }
  destruct dst as [s|].
  - destruct (valid_contents h s Hv)
      as (arr & lpre & old & spare & Harr & -> & Hl & Hold & Hcap & Hc).
    destruct s as [p o n c]. cbn [s_ptr s_off s_len s_cap len] in *.
    assert (Hp : (p < length h)%nat) by (eapply lookup_lt_Some; exact Harr).
    exists old.
    destruct (Z.lt_ge_cases (c - n) (SeriesKeySize name tags)) as [Hg|Hr].
    + eexists _, _. split; [exact Hc|].
      split; [apply AppendSeriesKey_grow; [exact Hc|lia|exact Hg]|].
      split.
      { exists (old ++ key_layout name tags). cbn [s_ptr s_off s_len s_cap].
        rewrite lookup_app_r, Nat.sub_diag by lia.
        rewrite length_app. repeat split; (reflexivity || lia). }
      split; [reflexivity|].
      split; [|intros b l Hb _; by apply Hfresh].
      eapply contents_at with (l1 := []) (l2 := []);
        [rewrite lookup_app_r, Nat.sub_diag by lia; reflexivity
        |cbn; by rewrite app_nil_r|reflexivity|rewrite length_app; lia].
    + destruct (split_length spare (Z.to_nat (SeriesKeySize name tags)))
        as (W & post & -> & HW); [lia|].
      rewrite !length_app in Hcap.
      eexists _, _. split; [exact Hc|].
      split; [eapply AppendSeriesKey_in_place;
              [exact Harr|exact Hl|exact Hold|unfold blen; lia|lia]|].
      split.
      { eexists. split; [apply heap_lookup_upd; exact Hp|].
        cbn [s_ptr s_off s_len s_cap]. rewrite !length_app.
        repeat split; lia. }
      split; [reflexivity|].
      split.
      { eapply contents_at with (l1 := lpre) (l2 := post);
          [apply heap_lookup_upd; exact Hp|list_eq|exact Hl
          |rewrite length_app; lia]. }
      intros b l Hb Hcl. specialize (Hcl _ eq_refl).
      destruct b as [w|]; [|split; [exact Hb|exact I]].
      cbn [clear_of] in *. unfold apart in *. cbn [s_ptr s_off s_len] in *.
      split; [|lia].
      rewrite <- Hb. rewrite (app_assoc lpre old).
      destruct Hcl as [H0|Hcl].
      * apply contents_frame_empty with (arr := lpre ++ old ++ W ++ post);
          [exact Harr| |exact H0].
        rewrite !length_app. lia.
      * apply contents_frame with (W := W);
          [by rewrite <- app_assoc|lia|rewrite !length_app; lia].
  - exists []. eexists _, _. split; [reflexivity|].
    split; [apply AppendSeriesKey_nil|].
    split.
    { exists (key_layout name tags). cbn [s_ptr s_off s_len s_cap].
      rewrite lookup_app_r, Nat.sub_diag by lia.
      repeat split; (reflexivity || lia). }
    split; [reflexivity|].
    split; [apply key_contents|].
    intros b l Hb _. by apply Hfresh.
Qed.

(** X11: appends compose: appending the key of [(n1, t1)] and then the key
    of [(n2, t2)] to a buffer that is nil or valid gives a buffer that
    shows the old contents, then the first key, then the second, as long
    as no byte of the names and tags, which are slices in memory, lies
    among the bytes of the two keys after the end of [dst]. *)
Theorem AppendSeriesKey_twice (n1 n2 : bytes) (t1 t2 : list TagSlices)
    (nm1 nm2 : list byte) (tv1 tv2 : Tags) (h : heap) (dst : bytes) :
  valid h dst ->
  contents h n1 = Ok nm1 -> Forall2 (tag_shows h) t1 tv1 ->
  contents h n2 = Ok nm2 -> Forall2 (tag_shows h) t2 tv2 ->
  (forall s, dst = Some s ->
     args_clear n1 t1 s
       (SeriesKeySize_slices n1 t1 + SeriesKeySize_slices n2 t2)
     /\ args_clear n2 t2 s
          (SeriesKeySize_slices n1 t1 + SeriesKeySize_slices n2 t2)) ->
  exists old d1 h1 d2 h2 enc1 enc2,
    contents h dst = Ok old
    /\ AppendSeriesKey_slices dst n1 t1 h = Ok (d1, h1)
    /\ AppendSeriesKey_slices d1 n2 t2 h1 = Ok (d2, h2)
    /\ encodes nm1 tv1 enc1 /\ encodes nm2 tv2 enc2
    /\ contents h2 d2 = Ok (old ++ enc1 ++ enc2)
    /\ len d2 = len dst + SeriesKeySize_slices n1 t1
                + SeriesKeySize_slices n2 t2.
Proof.
  intros Hv Hn1 Ht1 Hn2 Ht2 Hcl.
  rewrite (SeriesKeySize_slices_shows h n1 t1 nm1 tv1 Hn1 Ht1) in *.
  rewrite (SeriesKeySize_slices_shows h n2 t2 nm2 tv2 Hn2 Ht2) in *.
  pose proof (SeriesKeySize_min nm1 tv1) as Hmin1.
  pose proof (SeriesKeySize_min nm2 tv2) as Hmin2.
  destruct (AppendSeriesKey_then nm1 tv1 h dst (SeriesKeySize nm2 tv2) Hv)
    as (old & s1 & h1 & Hc & Happ1 & Hv1 & Hlen1 & Hc1 & Hkeep); [lia|].
  destruct (AppendSeriesKey_any nm2 tv2 h1 (Some s1) Hv1)
    as (old1 & s2 & h2 & Hc1' & Happ2 & Hv2 & Hlen2 & Hc2 & _).
  assert (old1 = old ++ key_layout nm1 tv1) by congruence. subst old1.
  assert (Hn2' : contents h1 n2 = Ok nm2 /\ clear_of n2 s1 (SeriesKeySize nm2 tv2)).
  { apply Hkeep; [exact Hn2|]. intros s Hs. by apply (Hcl s Hs). }
  assert (Ht2' : Forall2 (tag_shows h1) t2 tv2
                 /\ Forall (fun t => clear_of (KeySlice t) s1
                                       (SeriesKeySize nm2 tv2)
                                     /\ clear_of (ValueSlice t) s1
                                          (SeriesKeySize nm2 tv2)) t2).
  { assert (Hall : forall i t v, t2 !! i = Some t -> tv2 !! i = Some v ->
                     tag_shows h1 t v
                     /\ clear_of (KeySlice t) s1 (SeriesKeySize nm2 tv2)
                     /\ clear_of (ValueSlice t) s1 (SeriesKeySize nm2 tv2)).
    { intros i t v Hti Hvi.
      destruct (Forall2_lookup_lr _ _ _ _ _ _ Ht2 Hti Hvi) as [Hk Hv'].
      assert (Hck : forall s, dst = Some s ->
                clear_of (KeySlice t) s
                  (SeriesKeySize nm1 tv1 + SeriesKeySize nm2 tv2)
                /\ clear_of (ValueSlice t) s
                     (SeriesKeySize nm1 tv1 + SeriesKeySize nm2 tv2)).
      { intros s Hs. destruct (Hcl s Hs) as [_ [_ Hf]].
        exact (proj1 (Forall_lookup _ _) Hf i t Hti). }
      destruct (Hkeep _ _ Hk (fun s Hs => proj1 (Hck s Hs))) as [Hk1 Hk2].
      destruct (Hkeep _ _ Hv' (fun s Hs => proj2 (Hck s Hs))) as [Hv1' Hv2'].
      repeat split; assumption. }
    split.
    - apply Forall2_same_length_lookup_2; [by eapply Forall2_length|].
      intros i t v Hti Hvi. by apply (Hall i t v).
    - apply Forall_lookup. intros i t Hti.
      destruct (lookup_lt_is_Some_2 tv2 i) as [v Hvi].
      { rewrite <- (Forall2_length _ _ _ Ht2). by eapply lookup_lt_Some. }
      by apply (Hall i t v). }
  exists old, (Some s1), h1, (Some s2), h2,
         (key_layout nm1 tv1), (key_layout nm2 tv2).
  split; [exact Hc|].
  split.
  { rewrite (AppendSeriesKey_slices_by_value dst n1 t1 nm1 tv1 h Hv Hn1 Ht1);
      [exact Happ1|].
    intros s Hs _. eapply args_clear_le; [apply (Hcl s Hs)|lia]. }
  split.
  { rewrite (AppendSeriesKey_slices_by_value (Some s1) n2 t2 nm2 tv2 h1 Hv1
               (proj1 Hn2') (proj1 Ht2'));
      [exact Happ2|].
    intros s [= <-] _. split; [exact (proj2 Hn2')|exact (proj2 Ht2')]. }
  split; [apply encodes_layout|]. split; [apply encodes_layout|].
  split; [rewrite Hc2; f_equal; list_eq|].
  cbn [len] in *. lia.
Qed.

Lemma AppendSeriesKey_twice_witness :
  let h : heap := [[Init.Byte.x01; Init.Byte.x02]
                     ++ replicate 50 Init.Byte.x00;
                   aaa ++ [Init.Byte.x74; Init.Byte.x61; Init.Byte.x61;
                           Init.Byte.x61; Init.Byte.x76; Init.Byte.x61;
                           Init.Byte.x61; Init.Byte.x61]] in
  let dst : bytes := Some (Slice 0 0 2 52) in
  let name : bytes := Some (Slice 1 0 3 11) in
  let tags := [mkTagSlices (Some (Slice 1 3 4 8)) (Some (Slice 1 7 4 4))] in
  valid h dst
  /\ contents h name = Ok aaa
  /\ Forall2 (tag_shows h) tags taaa_vaaa
  /\ exists old d1 h1 d2 h2 enc1 enc2,
       contents h dst = Ok old
       /\ AppendSeriesKey_slices dst name tags h = Ok (d1, h1)
       /\ AppendSeriesKey_slices d1 name tags h1 = Ok (d2, h2)
       /\ encodes aaa taaa_vaaa enc1 /\ encodes aaa taaa_vaaa enc2
       /\ contents h2 d2 = Ok (old ++ enc1 ++ enc2)
       /\ len d2 = len dst + SeriesKeySize_slices name tags
                   + SeriesKeySize_slices name tags.
Proof.
  intros h dst name tags.
  assert (Hv : valid h dst).
  { eexists. split; [reflexivity|]. cbn. repeat split; lia. }
  assert (Hn : contents h name = Ok aaa) by reflexivity.
  assert (Ht : Forall2 (tag_shows h) tags taaa_vaaa).
  { repeat constructor. }
  assert (Hclear : forall s, dst = Some s ->
            args_clear name tags s
              (SeriesKeySize_slices name tags + SeriesKeySize_slices name tags)
            /\ args_clear name tags s
                 (SeriesKeySize_slices name tags
                  + SeriesKeySize_slices name tags)).
  { intros s [= <-].
    assert (Hc : args_clear name tags (Slice 0 0 2 52)
                   (SeriesKeySize_slices name tags
                    + SeriesKeySize_slices name tags)).
    { split; [right; left; cbn; lia|].
      constructor; [|constructor]. split; right; left; cbn; lia. }
    split; exact Hc. }
  split; [exact Hv|]. split; [exact Hn|]. split; [exact Ht|].
  exact (AppendSeriesKey_twice name name tags tags aaa aaa taaa_vaaa taaa_vaaa
           h dst Hv Hn Ht Hn Ht Hclear).
Defined.

(** ** Sorting keys with [Less] and [Swap] *)

Lemma at_index_lookup {A} (a : list A) (i : Z) :
  0 <= i < Z.of_nat (length a) ->
  exists x, a !! Z.to_nat i = Some x /\ at_index a i = Ok x.
Proof.
  intros Hi. destruct (lookup_lt_is_Some_2 a (Z.to_nat i)) as [x Hx]; [lia|].
  exists x. split; [exact Hx|]. unfold at_index, index.
  replace (0 <=? i) with true by (symmetry; apply Z.leb_le; lia).
  by rewrite Hx.
Qed.

Lemma compare_ranks_eq (x y : option (list byte)) :
  compare_ranks x y = 0 <-> x = y.
Proof.
  destruct x as [pa|], y as [pb|]; cbn [compare_ranks];
    try (split; [lia|discriminate]); [|split; reflexivity].
  rewrite bytes_Compare_eq. split; [by intros ->|by intros [= ->]].
Qed.

Lemma compare_ranks_lt_trans (x y z : option (list byte)) :
  compare_ranks x y = -1 -> compare_ranks y z = -1 -> compare_ranks x z = -1.
Proof.
  intros Hxy Hyz.
  pose proof (compare_ranks_trans x y z) as Ht.
  destruct (compare_ranks_range x z) as [E|[E|E]]; [exact E| |lia].
  apply compare_ranks_eq in E. subst z.
  pose proof (compare_ranks_antisym x y). lia.
Qed.

(** [Less] on two comparable keys, from their ranks. *)
Lemma seriesKeys_Less_ranks (h : heap) (a : list bytes) (i j : Z) :
  Forall (comparable h) a ->
  0 <= i < seriesKeys_Len a -> 0 <= j < seriesKeys_Len a ->
  exists ki kj x y,
    a !! Z.to_nat i = Some ki /\ a !! Z.to_nat j = Some kj
    /\ rank h ki x /\ rank h kj y
    /\ seriesKeys_Less h a i j = Ok (compare_ranks x y =? -1).
Proof.
  intros Ha Hi Hj. unfold seriesKeys_Len in *.
  destruct (at_index_lookup a i Hi) as (ki & Hki & Ei).
  destruct (at_index_lookup a j Hj) as (kj & Hkj & Ej).
  rewrite Forall_lookup in Ha.
  destruct (Ha _ _ Hki) as [x Hx]. destruct (Ha _ _ Hkj) as [y Hy].
  exists ki, kj, x, y. repeat split; try assumption.
  unfold seriesKeys_Less. rewrite Ei, Ej. cbn [rbind].
  by rewrite (CompareSeriesKeys_ranks h ki kj x y Hx Hy).
Qed.

Lemma rank_unique (h : heap) (k : bytes) (x y : option (list byte)) :
  rank h k x -> rank h k y -> x = y.
Proof.
  intros Hx Hy. symmetry. by apply (rank_contents h h k k x y Hx Hy).
Qed.

(** X12: on a slice of keys that are all empty or well formed, [Less] is
    the strict part of a weak order, as sorting needs: no key is less than
    itself, two keys are never each less than the other, [Less] is
    transitive, and so is being unordered (neither key less than the
    other). *)
Theorem seriesKeys_Less_strict_weak_order (h : heap) (a : list bytes)
    (i j k : Z) :
  Forall (comparable h) a ->
  0 <= i < seriesKeys_Len a ->
  0 <= j < seriesKeys_Len a ->
  0 <= k < seriesKeys_Len a ->
  seriesKeys_Less h a i i = Ok false
  /\ (exists bij bji,
        seriesKeys_Less h a i j = Ok bij
        /\ seriesKeys_Less h a j i = Ok bji
        /\ bij && bji = false)
  /\ (seriesKeys_Less h a i j = Ok true ->
      seriesKeys_Less h a j k = Ok true ->
      seriesKeys_Less h a i k = Ok true)
  /\ (seriesKeys_Less h a i j = Ok false ->
      seriesKeys_Less h a j i = Ok false ->
      seriesKeys_Less h a j k = Ok false ->
      seriesKeys_Less h a k j = Ok false ->
      seriesKeys_Less h a i k = Ok false
      /\ seriesKeys_Less h a k i = Ok false).
Proof.
  intros Ha Hi Hj Hk.
  assert (Hall : exists x y z,
             (forall u v (p q : option (list byte)),
                 (u = i /\ p = x) \/ (u = j /\ p = y) \/ (u = k /\ p = z) ->
                 (v = i /\ q = x) \/ (v = j /\ q = y) \/ (v = k /\ q = z) ->
                 seriesKeys_Less h a u v = Ok (compare_ranks p q =? -1))).
  { destruct (seriesKeys_Less_ranks h a i i Ha Hi Hi)
      as (ki & _ & x & _ & Hki & _ & Hx & _ & _).
    destruct (seriesKeys_Less_ranks h a j j Ha Hj Hj)
      as (kj & _ & y & _ & Hkj & _ & Hy & _ & _).
    destruct (seriesKeys_Less_ranks h a k k Ha Hk Hk)
      as (kk & _ & z & _ & Hkk & _ & Hz & _ & _).
    exists x, y, z. intros u v p q Hu Hv.
    assert (Hur : 0 <= u < seriesKeys_Len a) by (destruct Hu as [[-> _]|[[-> _]|[-> _]]]; assumption).
    assert (Hvr : 0 <= v < seriesKeys_Len a) by (destruct Hv as [[-> _]|[[-> _]|[-> _]]]; assumption).
    destruct (seriesKeys_Less_ranks h a u v Ha Hur Hvr)
      as (ku & kv & p' & q' & Hku & Hkv & Hp & Hq & E).
    assert (p' = p).
    { destruct Hu as [[-> ->]|[[-> ->]|[-> ->]]];
        (eapply rank_unique; [exact Hp|]); congruence. }
    assert (q' = q).
    { destruct Hv as [[-> ->]|[[-> ->]|[-> ->]]];
        (eapply rank_unique; [exact Hq|]); congruence. }
    by subst p' q'. }
  destruct Hall as (x & y & z & L).
  assert (Lii := L i i x x). assert (Lij := L i j x y).
  assert (Lji := L j i y x). assert (Ljk := L j k y z).
  assert (Lkj := L k j z y). assert (Lik := L i k x z).
  assert (Lki := L k i z x).
  rewrite Lii, Lij, Lji, Ljk, Lkj, Lik, Lki by tauto.
  pose proof (compare_ranks_refl x) as Rxx.
  pose proof (compare_ranks_antisym x y) as Axy.
  pose proof (compare_ranks_antisym y z) as Ayz.
  pose proof (compare_ranks_antisym x z) as Axz.
  pose proof (compare_ranks_antisym z x) as Azx.
  pose proof (compare_ranks_antisym z y) as Azy.
  pose proof (compare_ranks_range x y) as Rxy.
  pose proof (compare_ranks_range y z) as Ryz.
  split; [rewrite Rxx; reflexivity|].
  split.
  { eexists _, _. split; [reflexivity|]. split; [reflexivity|].
    destruct (Z.eqb_spec (compare_ranks x y) (-1));
      destruct (Z.eqb_spec (compare_ranks y x) (-1)); try reflexivity. lia. }
  split.
  { intros [= E1%Z.eqb_eq] [= E2%Z.eqb_eq].
    by rewrite (compare_ranks_lt_trans x y z E1 E2). }
  intros [= E1%Z.eqb_neq] [= E2%Z.eqb_neq] [= E3%Z.eqb_neq] [= E4%Z.eqb_neq].
  assert (Exy : compare_ranks x y = 0) by lia.
  assert (Eyz : compare_ranks y z = 0) by lia.
  apply compare_ranks_eq in Exy, Eyz. subst y z.
  rewrite Rxx. split; reflexivity.
Qed.

Lemma seriesKeys_Less_strict_weak_order_witness :
  let a := [second_key; None; first_key] in
  Forall (comparable two_keys) a
  /\ 0 <= 1 < seriesKeys_Len a
  /\ 0 <= 2 < seriesKeys_Len a
  /\ 0 <= 0 < seriesKeys_Len a
  /\ seriesKeys_Less two_keys a 1 1 = Ok false
  /\ (exists bij bji,
        seriesKeys_Less two_keys a 1 2 = Ok bij
        /\ seriesKeys_Less two_keys a 2 1 = Ok bji
        /\ bij && bji = false)
  /\ (seriesKeys_Less two_keys a 1 2 = Ok true ->
      seriesKeys_Less two_keys a 2 0 = Ok true ->
      seriesKeys_Less two_keys a 1 0 = Ok true)
  /\ (seriesKeys_Less two_keys a 1 2 = Ok false ->
      seriesKeys_Less two_keys a 2 1 = Ok false ->
      seriesKeys_Less two_keys a 2 0 = Ok false ->
      seriesKeys_Less two_keys a 0 2 = Ok false ->
      seriesKeys_Less two_keys a 1 0 = Ok false
      /\ seriesKeys_Less two_keys a 0 1 = Ok false).
Proof.
  intros a.
  assert (Ha : Forall (comparable two_keys) a).
  { repeat constructor.
    - exact second_key_comparable.
    - exact nil_comparable.
    - exact first_key_comparable. }
  assert (H1 : 0 <= 1 < seriesKeys_Len a) by (unfold seriesKeys_Len; simpl; lia).
  assert (H2 : 0 <= 2 < seriesKeys_Len a) by (unfold seriesKeys_Len; simpl; lia).
  assert (H0 : 0 <= 0 < seriesKeys_Len a) by (unfold seriesKeys_Len; simpl; lia).
  split; [exact Ha|]. split; [exact H1|]. split; [exact H2|].
  split; [exact H0|].
  exact (seriesKeys_Less_strict_weak_order two_keys a 1 2 0 Ha H1 H2 H0).
Defined.

(** X13: [Swap(i, j)] with both indices in range exchanges the keys at [i]
    and [j] and leaves every other position and the length as they are; the
    result is a permutation of the slice, and swapping again restores
    it. *)
Theorem seriesKeys_Swap_exchange (a : list bytes) (i j : Z) :
  0 <= i < seriesKeys_Len a ->
  0 <= j < seriesKeys_Len a ->
  exists a',
    seriesKeys_Swap a i j = Ok a'
    /\ seriesKeys_Len a' = seriesKeys_Len a
    /\ a' !! Z.to_nat i = a !! Z.to_nat j
    /\ a' !! Z.to_nat j = a !! Z.to_nat i
    /\ (forall n : nat,
          n <> Z.to_nat i -> n <> Z.to_nat j -> a' !! n = a !! n)
    /\ a' ≡ₚ a
    /\ seriesKeys_Swap a' i j = Ok a.
Proof.
  intros Hi Hj. unfold seriesKeys_Len in *.
  destruct (at_index_lookup a i Hi) as (ki & Hki & Ei).
  destruct (at_index_lookup a j Hj) as (kj & Hkj & Ej).
  set (ni := Z.to_nat i) in *. set (nj := Z.to_nat j) in *.
  assert (Hni : (ni < length a)%nat) by lia.
  assert (Hnj : (nj < length a)%nat) by lia.
  set (a' := <[nj := ki]> (<[ni := kj]> a)).
  assert (Hlen : length a' = length a)
    by (unfold a'; by rewrite !length_insert).
  assert (Hi' : a' !! ni = Some kj).
  { unfold a'. destruct (Nat.eq_dec ni nj) as [E|Hne].
    - rewrite E in *. rewrite list_lookup_insert_eq
        by (rewrite length_insert; lia). congruence.
    - rewrite list_lookup_insert_ne by auto.
      by apply list_lookup_insert_eq. }
  assert (Hj' : a' !! nj = Some ki).
  { unfold a'. apply list_lookup_insert_eq. rewrite length_insert. lia. }
  exists a'.
  split; [unfold seriesKeys_Swap; rewrite Ej, Ei; reflexivity|].
  split; [by rewrite Hlen|].
  split; [by rewrite Hi', Hkj|]. split; [by rewrite Hj', Hki|].
  split.
  { intros n H1 H2. unfold a'. by rewrite !list_lookup_insert_ne by auto. }
  split; [by apply Permutation_insert_swap|].
  unfold seriesKeys_Swap, at_index, index.
  replace (0 <=? j) with true by (symmetry; apply Z.leb_le; lia).
  replace (0 <=? i) with true by (symmetry; apply Z.leb_le; lia).
  fold ni nj. rewrite Hj', Hi'. cbn [rbind]. f_equal.
  apply list_eq. intros n.
  destruct (Nat.eq_dec n nj) as [->|Hnj'].
  - rewrite list_lookup_insert_eq by (rewrite length_insert; lia).
    by rewrite Hkj.
  - rewrite list_lookup_insert_ne by auto.
    destruct (Nat.eq_dec n ni) as [->|Hni'].
    + rewrite list_lookup_insert_eq by lia. by rewrite Hki.
    + rewrite list_lookup_insert_ne by auto.
      unfold a'. by rewrite !list_lookup_insert_ne by auto.
Qed.

Lemma seriesKeys_Swap_exchange_witness :
  let a := [second_key; None; first_key] in
  0 <= 0 < seriesKeys_Len a
  /\ 0 <= 2 < seriesKeys_Len a
  /\ exists a',
       seriesKeys_Swap a 0 2 = Ok a'
       /\ seriesKeys_Len a' = seriesKeys_Len a
       /\ a' !! Z.to_nat 0 = a !! Z.to_nat 2
       /\ a' !! Z.to_nat 2 = a !! Z.to_nat 0
       /\ (forall n : nat,
             n <> Z.to_nat 0 -> n <> Z.to_nat 2 -> a' !! n = a !! n)
       /\ a' ≡ₚ a
       /\ seriesKeys_Swap a' 0 2 = Ok a.
Proof.
  intros a.
  assert (H0 : 0 <= 0 < seriesKeys_Len a) by (unfold seriesKeys_Len; simpl; lia).
  assert (H2 : 0 <= 2 < seriesKeys_Len a) by (unfold seriesKeys_Len; simpl; lia).
  split; [exact H0|]. split; [exact H2|].
  exact (seriesKeys_Swap_exchange a 0 2 H0 H2).
Defined.

(** ** Bytes after a key *)

(** As [ParseSeriesKeyTags_layout], for a buffer whose length covers the
    headers and whose capacity covers the key: the header reads are checked
    against the length, the field ranges against the capacity. *)
Lemma ParseSeriesKeyTags_layout_cap (h : heap) (p : nat) (o n c : Z)
    (arr lpre post : list byte) (name : list byte) (tags : Tags)
    (tb : TagBuf) :
  h !! p = Some arr ->
  arr = lpre ++ key_layout name tags ++ post ->
  Z.of_nat (length lpre) = o ->
  SeriesKeyOffsetsSize (Z.of_nat (length tags)) + 4 <= n ->
  n <= c ->
  SeriesKeySize name tags <= c ->
  encodable name tags ->
  ParseSeriesKeyTags h (Some (Slice p o n c)) tb = Ok (name, tags).
Proof.
  intros Hh Harr Ho Hn Hc Hsz (Hname & Hfit & Hofs).
  unfold SeriesKeyOffsetsSize in Hn.
  apply be16_uint16_fits in Hname as [Hnu Hnr].
  unfold key_layout in Harr. rewrite Hnu, uint16_small in Harr by lia.
  rewrite SeriesKeySize_layout in Hsz. unfold key_layout in Hsz.
  rewrite !length_app, !be16_length, tag_lengths_length in Hsz.
  unfold key_payload in Harr, Hsz. rewrite length_app in Hsz.
  set (pls := be16 (uint16 (blen (name ++ tag_bytes tags)))) in *.
  assert (Hpls : length pls = 2%nat) by reflexivity.
  set (ofs := 2 + 4 * Z.of_nat (length tags)) in *.
  assert (Hofsl : length (be16 ofs) = 2%nat) by reflexivity.
  assert (Hnml : length (be16 (blen name)) = 2%nat) by reflexivity.
  assert (Htl := tag_lengths_length tags).
  unfold ParseSeriesKeyTags.
  erewrite GetUint16_at with (l1 := lpre) (v := ofs);
    [|first [exact Hh|subst arr; side|subst ofs; lia]..].
  cbn [rbind]. unfold reslice at 1.
  cbn [len cap s_ptr s_off s_len s_cap]. test_true. cbn [rbind].
  erewrite GetUint16_at with (l1 := lpre ++ be16 ofs) (v := blen name);
    [|first [exact Hh|subst arr; side|subst ofs; lia]..].
  cbn [rbind]. unfold reslice at 1.
  cbn [len cap s_ptr s_off s_len s_cap]. test_true. cbn [rbind].
  erewrite contents_at
    with (l1 := lpre ++ be16 ofs ++ be16 (blen name) ++ tag_lengths tags ++ pls)
         (x := name);
    [|first [exact Hh|subst arr; side
            |unfold blen in *; subst ofs;
             rewrite ?length_app in *; lia]..].
  cbn [rbind].
  replace (Z.quot (ofs - 2) 4) with (Z.of_nat (length tags))
    by (subst ofs; replace (2 + 4 * Z.of_nat (length tags) - 2)
          with (Z.of_nat (length tags) * 4) by lia;
        rewrite Z.quot_mul; lia).
  replace (0 <=? Z.of_nat (length tags)) with true
    by (symmetry; apply Z.leb_le; lia).
  assert (Hloop : forall junk : list Tag,
             (length tags <= length junk)%nat ->
             rbind (ParseSeriesKeyTags_loop h (Some (Slice p o n c))
                      (Some (Slice p (o + (ofs + 2 + 2)) (n - (ofs + 2 + 2))
                                   (c - (ofs + 2 + 2))))
                      (Z.to_nat (Z.of_nat (length tags))) 0 (2 + 2)
                      (0 + blen name) junk)
                   (fun arrT => Ok (name, take (Z.to_nat (Z.of_nat (length tags)))
                                               arrT))
             = Ok (name, tags)).
  { intros junk Hjunk. rewrite Nat2Z.id.
    erewrite (ParseSeriesKeyTags_loop_at tags h p o n c _ _ _ 0 _ _ arr lpre
                (be16 ofs ++ be16 (blen name)) (pls ++ name) post [] junk);
      [|first [exact Hh|exact Hfit|exact Hjunk
              |subst arr; side
              |unfold blen in *; subst ofs;
               rewrite ?length_app in *; cbn [length] in *; lia]..].
    cbn [rbind app]. by rewrite take_app_length. }
  destruct (tb_cap tb <? Z.of_nat (length tags)) eqn:Ecap; cbn [rbind tb_arr tb_len].
  - apply Hloop. rewrite length_replicate. lia.
  - apply Hloop. apply Z.ltb_ge in Ecap. unfold tb_cap in Ecap. lia.
Qed.

Lemma u16_at_app (bs junk : list byte) (pos : nat) (v : Z) :
  u16_at bs pos = Some v -> u16_at (bs ++ junk) pos = Some v.
Proof.
  unfold u16_at.
  destruct (bs !! pos) as [hi|] eqn:Ehi; [|discriminate].
  destruct (bs !! S pos) as [lo|] eqn:Elo; [|discriminate].
  by rewrite (lookup_app_l_Some _ _ _ _ Ehi), (lookup_app_l_Some _ _ _ _ Elo).
Qed.

Lemma payload_of_app (bs junk pl : list byte) :
  payload_of bs = Some pl -> payload_of (bs ++ junk) = Some pl.
Proof.
  unfold payload_of.
  destruct (u16_at bs 0) as [ofs|] eqn:Eofs; [|discriminate].
  destruct (u16_at bs (Z.to_nat (ofs + 2))) as [sz|] eqn:Esz; [|discriminate].
  destruct (Z.leb_spec (ofs + 4 + sz) (blen bs)) as [Hle|]; [|discriminate].
  intros [= <-].
  destruct (u16_at_range _ _ _ Eofs) as (Hofs & _ & _).
  destruct (u16_at_range _ _ _ Esz) as (Hsz & _ & _).
  rewrite (u16_at_app _ _ _ _ Eofs), (u16_at_app _ _ _ _ Esz).
  unfold blen in *. rewrite length_app.
  replace (ofs + 4 + sz <=? Z.of_nat (length bs + length junk)) with true
    by (symmetry; apply Z.leb_le; lia).
  f_equal. rewrite drop_app_le by lia.
  apply take_app_le. rewrite length_drop. lia.
Qed.

(** X14: the decoder reads what the headers describe and nothing more: on
    a valid buffer that holds the key of an encodable name and tag set
    followed by any further bytes (another key, as after two appends),
    [ParseSeriesKey] returns that name and those tags. *)
Theorem ParseSeriesKey_ignores_trailing (name : list byte) (tags : Tags)
    (h : heap) (s : slice) (enc junk : list byte) (tb : TagBuf) :
  valid h (Some s) ->
  contents h (Some s) = Ok (enc ++ junk) ->
  encodes name tags enc ->
  encodable name tags ->
  ParseSeriesKey h (Some s) = Ok (name, tags)
  /\ ParseSeriesKeyTags h (Some s) tb = Ok (name, tags).
Proof.
  intros Hv Hc He Henc. apply encodes_unique in He. subst enc.
  destruct (valid_contents h s Hv)
    as (arr & lpre & old & spare & Harr & -> & Hl & Hold & Hcap & Hc').
  assert (old = key_layout name tags ++ junk) by congruence. subst old.
  pose proof (SeriesKeySize_layout name tags) as Hsz.
  rewrite length_app in Hold.
  destruct s as [p o n c]. cbn [s_ptr s_off s_len s_cap] in *.
  assert (Hparse : forall tb',
             ParseSeriesKeyTags h (Some (Slice p o n c)) tb' = Ok (name, tags)).
  { intros tb'.
    apply ParseSeriesKeyTags_layout_cap
      with (arr := lpre ++ (key_layout name tags ++ junk) ++ spare)
           (lpre := lpre) (post := junk ++ spare);
      [exact Harr|list_eq|exact Hl| |lia|lia|exact Henc].
    unfold SeriesKeySize in Hsz.
    pose proof (SeriesKeyBytesSize_payload name tags). unfold blen in *. lia. }
  split; [apply Hparse|apply Hparse].
Qed.

Lemma ParseSeriesKey_ignores_trailing_witness :
  let h : heap := [key_layout aaa taaa_vaaa ++ key_layout cpu_name cpu_tags] in
  let s := Slice 0 0 60 60 in
  valid h (Some s)
  /\ contents h (Some s)
     = Ok (key_layout aaa taaa_vaaa ++ key_layout cpu_name cpu_tags)
  /\ encodes aaa taaa_vaaa (key_layout aaa taaa_vaaa)
  /\ encodable aaa taaa_vaaa
  /\ ParseSeriesKey h (Some s) = Ok (aaa, taaa_vaaa)
  /\ ParseSeriesKeyTags h (Some s) tb_nil = Ok (aaa, taaa_vaaa).
Proof.
  intros h s.
  assert (Hv : valid h (Some s)).
  { exists (key_layout aaa taaa_vaaa ++ key_layout cpu_name cpu_tags).
    cbn. repeat split; lia. }
  assert (Hc : contents h (Some s)
               = Ok (key_layout aaa taaa_vaaa ++ key_layout cpu_name cpu_tags))
    by reflexivity.
  assert (Henc : encodable aaa taaa_vaaa).
  { unfold encodable, fits16, tag_fits, fits16, blen.
    split; [simpl; lia|]. split; [|simpl; lia].
    repeat constructor; simpl; lia. }
  split; [exact Hv|]. split; [exact Hc|].
  split; [exact (encodes_layout aaa taaa_vaaa)|]. split; [exact Henc|].
  exact (ParseSeriesKey_ignores_trailing aaa taaa_vaaa h s _ _ tb_nil Hv Hc
           (encodes_layout aaa taaa_vaaa) Henc).
Defined.

(** X15: the comparator too reads only the payload its headers locate:
    bytes that follow a key in its buffer do not change the result.  For
    two valid buffers that hold the keys of [(n1, t1)] and [(n2, t2)], at
    most 16383 tags each, followed by any bytes, [CompareSeriesKeys]
    compares the two payloads (each cut to its length modulo 65536). *)
Theorem CompareSeriesKeys_ignores_trailing (n1 n2 : list byte) (t1 t2 : Tags)
    (h : heap) (a b : slice) (enc1 enc2 junk1 junk2 : list byte) :
  valid h (Some a) -> valid h (Some b) ->
  contents h (Some a) = Ok (enc1 ++ junk1) ->
  contents h (Some b) = Ok (enc2 ++ junk2) ->
  encodes n1 t1 enc1 -> encodes n2 t2 enc2 ->
  2 + 4 * Z.of_nat (length t1) <= 65535 ->
  2 + 4 * Z.of_nat (length t2) <= 65535 ->
  CompareSeriesKeys h (Some a) (Some b)
  = Ok (bytes_Compare
          (take (Z.to_nat (blen (n1 ++ tag_bytes t1) mod 65536))
                (n1 ++ tag_bytes t1))
          (take (Z.to_nat (blen (n2 ++ tag_bytes t2) mod 65536))
                (n2 ++ tag_bytes t2))).
Proof.
  intros Hva Hvb Hca Hcb E1 E2 H1 H2.
  apply encodes_unique in E1, E2. subst enc1 enc2.
  apply CompareSeriesKeys_holds.
  - split; [exact Hva|]. eexists. split; [exact Hca|].
    apply payload_of_app. by apply payload_of_layout_wrap.
  - split; [exact Hvb|]. eexists. split; [exact Hcb|].
    apply payload_of_app. by apply payload_of_layout_wrap.
Qed.


Lemma CompareSeriesKeys_ignores_trailing_witness :
  let h : heap := [key_layout aaa taaa_vaaa ++ key_layout cpu_name cpu_tags;
                   key_layout aaa tbbb_vaaa ++ aaa] in
  let a := Slice 0 0 60 60 in
  let b := Slice 1 0 24 24 in
  valid h (Some a) /\ valid h (Some b)
  /\ contents h (Some a)
     = Ok (key_layout aaa taaa_vaaa ++ key_layout cpu_name cpu_tags)
  /\ contents h (Some b) = Ok (key_layout aaa tbbb_vaaa ++ aaa)
  /\ CompareSeriesKeys h (Some a) (Some b)
     = Ok (bytes_Compare
             (take (Z.to_nat (blen (aaa ++ tag_bytes taaa_vaaa) mod 65536))
                   (aaa ++ tag_bytes taaa_vaaa))
             (take (Z.to_nat (blen (aaa ++ tag_bytes tbbb_vaaa) mod 65536))
                   (aaa ++ tag_bytes tbbb_vaaa))).
Proof.
  intros h a b.
  assert (Hva : valid h (Some a)).
  { exists (key_layout aaa taaa_vaaa ++ key_layout cpu_name cpu_tags).
    cbn. repeat split; lia. }
  assert (Hvb : valid h (Some b)).
  { exists (key_layout aaa tbbb_vaaa ++ aaa). cbn. repeat split; lia. }
  assert (Hca : contents h (Some a)
                = Ok (key_layout aaa taaa_vaaa ++ key_layout cpu_name cpu_tags))
    by reflexivity.
  assert (Hcb : contents h (Some b) = Ok (key_layout aaa tbbb_vaaa ++ aaa))
    by reflexivity.
  split; [exact Hva|]. split; [exact Hvb|].
  split; [exact Hca|]. split; [exact Hcb|].
  apply (CompareSeriesKeys_ignores_trailing aaa aaa taaa_vaaa tbbb_vaaa
           h a b _ _ _ _ Hva Hvb Hca Hcb
           (encodes_layout aaa taaa_vaaa) (encodes_layout aaa tbbb_vaaa));
    simpl; lia.
Defined.

(** ** Reads past the length of a buffer *)

(** What the comparator reads of a key held in an array: the two sizes and
    the payload.  The length of the slice has to cover the headers only,
    the payload range is checked against the capacity. *)
Lemma key_reads_cap (h : heap) (p : nat) (o n c : Z)
    (arr lpre post : list byte) (name : list byte) (tags : Tags) :
  h !! p = Some arr ->
  arr = lpre ++ key_layout name tags ++ post ->
  Z.of_nat (length lpre) = o ->
  2 + 4 * Z.of_nat (length tags) <= 65535 ->
  2 + 4 * Z.of_nat (length tags) + 4 <= n ->
  n <= c ->
  SeriesKeySize name tags <= c ->
  GetUint16 h (Some (Slice p o n c)) 0 = Ok (2 + 4 * Z.of_nat (length tags))
  /\ GetUint16 h (Some (Slice p o n c)) (2 + 4 * Z.of_nat (length tags) + 2)
     = Ok (uint16 (blen (key_payload name tags)))
  /\ exists w,
       reslice (Some (Slice p o n c)) (2 + 4 * Z.of_nat (length tags) + 2 + 2)
         (2 + 4 * Z.of_nat (length tags) + 2 + 2
          + uint16 (blen (key_payload name tags))) = Ok w
       /\ contents h w
          = Ok (take (Z.to_nat (uint16 (blen (key_payload name tags))))
                     (key_payload name tags)).
Proof.
  intros Hh Harr Ho Hofs Hn Hc Hsz.
  unfold key_layout in Harr. rewrite (uint16_small (2 + _)) in Harr by lia.
  rewrite SeriesKeySize_layout in Hsz. unfold key_layout in Hsz.
  rewrite !length_app, !be16_length, tag_lengths_length in Hsz.
  assert (Htl := tag_lengths_length tags).
  set (pl := key_payload name tags) in *.
  pose proof (uint16_range (blen pl)) as Hr.
  assert (Hle : uint16 (blen pl) <= blen pl)
    by (apply uint16_le; unfold blen; lia).
  set (sz := uint16 (blen pl)) in *.
  set (ofs := 2 + 4 * Z.of_nat (length tags)) in *.
  set (nl := be16 (uint16 (blen name))) in *.
  assert (Hnl : length nl = 2%nat) by reflexivity.
  assert (Hofsl : length (be16 ofs) = 2%nat) by reflexivity.
  assert (Hszl : length (be16 sz) = 2%nat) by reflexivity.
  split; [|split].
  - eapply GetUint16_at with (l1 := lpre);
      [exact Hh|subst arr; list_eq|lia|subst ofs; lia|lia..].
  - eapply GetUint16_at
      with (l1 := lpre ++ be16 ofs ++ nl ++ tag_lengths tags);
      [exact Hh|subst arr; list_eq
      |rewrite !length_app; subst ofs; lia|exact Hr|subst ofs; lia..].
  - eexists. split.
    + unfold reslice. cbn [cap s_cap s_ptr s_off].
      replace ((0 <=? ofs + 2 + 2) && (ofs + 2 + 2 <=? ofs + 2 + 2 + sz)
               && (ofs + 2 + 2 + sz <=? c)) with true
        by (symmetry; rewrite !andb_true_iff, !Z.leb_le;
            unfold blen in *; subst ofs; lia).
      reflexivity.
    + eapply contents_at
        with (l1 := lpre ++ be16 ofs ++ nl ++ tag_lengths tags ++ be16 sz)
             (x := take (Z.to_nat sz) pl)
             (l2 := drop (Z.to_nat sz) pl ++ post).
      * exact Hh.
      * subst arr. rewrite <- !app_assoc. do 5 f_equal.
        by rewrite app_assoc, take_drop.
      * rewrite !length_app. subst ofs. lia.
      * rewrite length_take. unfold blen in *. lia.
Qed.

(** X16: the decoder checks its header reads against the length of the
    buffer and the field ranges against its capacity: a key cut to any
    length that still covers the headers ([k[:n]] with
    [offsetsSize + 4 <= n]; the capacity is kept) decodes to the whole name
    and to all the tags, read from beyond the length. *)
Theorem ParseSeriesKey_reads_capacity (name : list byte) (tags : Tags)
    (h : heap) (k : slice) (enc : list byte) (n : Z) (tb : TagBuf) :
  valid h (Some k) ->
  contents h (Some k) = Ok enc ->
  encodes name tags enc ->
  encodable name tags ->
  SeriesKeyOffsetsSize (Z.of_nat (length tags)) + 4 <= n <= s_len k ->
  exists k',
    reslice (Some k) 0 n = Ok k'
    /\ len k' = n /\ cap k' = s_cap k
    /\ ParseSeriesKey h k' = Ok (name, tags)
    /\ ParseSeriesKeyTags h k' tb = Ok (name, tags).
Proof.
  intros Hv Hc He Henc Hn. apply encodes_unique in He. subst enc.
  destruct (valid_contents h k Hv)
    as (arr & lpre & old & spare & Harr & -> & Hl & Hold & Hcap & Hc').
  assert (old = key_layout name tags) by congruence. subst old.
  pose proof (SeriesKeySize_layout name tags) as Hsz.
  destruct k as [p o m c]. cbn [s_ptr s_off s_len s_cap] in *.
  assert (Hparse : forall tb',
             ParseSeriesKeyTags h (Some (Slice p (o + 0) (n - 0) (c - 0))) tb'
             = Ok (name, tags)).
  { intros tb'.
    apply ParseSeriesKeyTags_layout_cap
      with (arr := lpre ++ key_layout name tags ++ spare)
           (lpre := lpre) (post := spare);
      [exact Harr|reflexivity|lia|lia|lia|lia|exact Henc]. }
  eexists. split.
  - unfold reslice. cbn [cap s_cap s_ptr s_off].
    unfold SeriesKeyOffsetsSize in Hn.
    replace ((0 <=? 0) && (0 <=? n) && (n <=? c)) with true
      by (symmetry; rewrite !andb_true_iff, !Z.leb_le; lia).
    reflexivity.
  - cbn [len cap s_len s_cap].
    split; [lia|]. split; [lia|]. split; apply Hparse.
Qed.

Lemma ParseSeriesKey_reads_capacity_witness :
  let h : heap := [key_layout aaa taaa_vaaa] in
  let k := Slice 0 0 21 21 in
  valid h (Some k)
  /\ contents h (Some k) = Ok (key_layout aaa taaa_vaaa)
  /\ encodable aaa taaa_vaaa
  /\ SeriesKeyOffsetsSize (Z.of_nat (length taaa_vaaa)) + 4 <= 10 <= s_len k
  /\ exists k',
       reslice (Some k) 0 10 = Ok k'
       /\ len k' = 10 /\ cap k' = s_cap k
       /\ ParseSeriesKey h k' = Ok (aaa, taaa_vaaa)
       /\ ParseSeriesKeyTags h k' tb_nil = Ok (aaa, taaa_vaaa).
Proof.
  intros h k.
  assert (Hv : valid h (Some k)).
  { exists (key_layout aaa taaa_vaaa). cbn. repeat split; lia. }
  assert (Hc : contents h (Some k) = Ok (key_layout aaa taaa_vaaa))
    by reflexivity.
  assert (Henc : encodable aaa taaa_vaaa).
  { unfold encodable, fits16, tag_fits, fits16, blen.
    split; [simpl; lia|]. split; [|simpl; lia].
    repeat constructor; simpl; lia. }
  assert (Hn : SeriesKeyOffsetsSize (Z.of_nat (length taaa_vaaa)) + 4
               <= 10 <= s_len k)
    by (unfold k, SeriesKeyOffsetsSize, taaa_vaaa; simpl; lia).
  split; [exact Hv|]. split; [exact Hc|]. split; [exact Henc|].
  split; [exact Hn|].
  exact (ParseSeriesKey_reads_capacity aaa taaa_vaaa h k _ 10 tb_nil Hv Hc
           (encodes_layout aaa taaa_vaaa) Henc Hn).
Defined.

(** X17: the comparator does the same: it reads the two sizes within the
    length of each buffer and takes the payload range against the
    capacity, so two keys cut to lengths that still cover their headers
    compare as the whole keys do (at most 16383 tags each). *)
Theorem CompareSeriesKeys_reads_capacity (n1 n2 : list byte) (t1 t2 : Tags)
    (h : heap) (a b : slice) (enc1 enc2 : list byte) (na nb : Z) :
  valid h (Some a) -> valid h (Some b) ->
  contents h (Some a) = Ok enc1 ->
  contents h (Some b) = Ok enc2 ->
  encodes n1 t1 enc1 -> encodes n2 t2 enc2 ->
  2 + 4 * Z.of_nat (length t1) <= 65535 ->
  2 + 4 * Z.of_nat (length t2) <= 65535 ->
  SeriesKeyOffsetsSize (Z.of_nat (length t1)) + 4 <= na <= s_len a ->
  SeriesKeyOffsetsSize (Z.of_nat (length t2)) + 4 <= nb <= s_len b ->
  exists a' b',
    reslice (Some a) 0 na = Ok a' /\ reslice (Some b) 0 nb = Ok b'
    /\ len a' = na /\ len b' = nb
    /\ CompareSeriesKeys h a' b'
       = Ok (bytes_Compare
               (take (Z.to_nat (blen (n1 ++ tag_bytes t1) mod 65536))
                     (n1 ++ tag_bytes t1))
               (take (Z.to_nat (blen (n2 ++ tag_bytes t2) mod 65536))
                     (n2 ++ tag_bytes t2))).
Proof.
  intros Hva Hvb Hca Hcb E1 E2 H1 H2 Hna Hnb.
  apply encodes_unique in E1, E2. subst enc1 enc2.
  unfold SeriesKeyOffsetsSize in Hna, Hnb.
  destruct (valid_contents h a Hva)
    as (arrA & lpA & oldA & spA & HarrA & -> & HlA & HoldA & HcapA & HcA').
  assert (oldA = key_layout n1 t1) by congruence. subst oldA.
  destruct (valid_contents h b Hvb)
    as (arrB & lpB & oldB & spB & HarrB & -> & HlB & HoldB & HcapB & HcB').
  assert (oldB = key_layout n2 t2) by congruence. subst oldB.
  pose proof (SeriesKeySize_layout n1 t1) as Hsz1.
  pose proof (SeriesKeySize_layout n2 t2) as Hsz2.
  destruct a as [pa oa ma ca], b as [pb ob mb cb].
  cbn [s_ptr s_off s_len s_cap] in *.
  destruct (key_reads_cap h pa (oa + 0) (na - 0) (ca - 0) _ lpA spA n1 t1
              HarrA eq_refl) as (HoA & HsA & wa & HwA & HcwA); [lia..|].
  destruct (key_reads_cap h pb (ob + 0) (nb - 0) (cb - 0) _ lpB spB n2 t2
              HarrB eq_refl) as (HoB & HsB & wb & HwB & HcwB); [lia..|].
  eexists _, _. split; [|split].
  - unfold reslice. cbn [cap s_cap s_ptr s_off].
    replace ((0 <=? 0) && (0 <=? na) && (na <=? ca)) with true
      by (symmetry; rewrite !andb_true_iff, !Z.leb_le; lia).
    reflexivity.
  - unfold reslice. cbn [cap s_cap s_ptr s_off].
    replace ((0 <=? 0) && (0 <=? nb) && (nb <=? cb)) with true
      by (symmetry; rewrite !andb_true_iff, !Z.leb_le; lia).
    reflexivity.
  - cbn [len s_len]. split; [lia|]. split; [lia|].
    unfold CompareSeriesKeys. cbn [len s_len].
    destruct (Z.eqb_spec (na - 0) 0) as [|_]; [lia|].
    destruct (Z.eqb_spec (nb - 0) 0) as [|_]; [lia|].
    cbn [andb].
    rewrite HoA. cbn [rbind]. rewrite HoB. cbn [rbind].
    rewrite HsA. cbn [rbind]. rewrite HsB. cbn [rbind].
    rewrite HwA. cbn [rbind]. rewrite HwB. cbn [rbind].
    rewrite HcwA. cbn [rbind]. rewrite HcwB. reflexivity.
Qed.

Lemma CompareSeriesKeys_reads_capacity_witness :
  let h : heap := two_keys in
  exists a b,
    first_key = Some a /\ second_key = Some b
    /\ valid h (Some a) /\ valid h (Some b)
    /\ exists a' b',
         reslice (Some a) 0 10 = Ok a' /\ reslice (Some b) 0 12 = Ok b'
         /\ len a' = 10 /\ len b' = 12
         /\ CompareSeriesKeys h a' b'
            = Ok (bytes_Compare
                    (take (Z.to_nat (blen (aaa ++ tag_bytes taaa_vaaa)
                                     mod 65536))
                          (aaa ++ tag_bytes taaa_vaaa))
                    (take (Z.to_nat (blen (aaa ++ tag_bytes tbbb_vaaa)
                                     mod 65536))
                          (aaa ++ tag_bytes tbbb_vaaa))).
Proof.
  intros h. eexists _, _. split; [reflexivity|]. split; [reflexivity|].
  assert (Hva : valid h (Some (Slice 0 0 21 21))).
  { eexists. split; [reflexivity|]. cbn. repeat split; lia. }
  assert (Hvb : valid h (Some (Slice 1 0 21 21))).
  { eexists. split; [reflexivity|]. cbn. repeat split; lia. }
  split; [exact Hva|]. split; [exact Hvb|].
  apply (CompareSeriesKeys_reads_capacity aaa aaa taaa_vaaa tbbb_vaaa h
           (Slice 0 0 21 21) (Slice 1 0 21 21)
           (key_layout aaa taaa_vaaa) (key_layout aaa tbbb_vaaa) 10 12
           Hva Hvb);
    [reflexivity|reflexivity|apply encodes_layout|apply encodes_layout
    |simpl; lia|simpl; lia
    |unfold SeriesKeyOffsetsSize, taaa_vaaa; simpl; lia
    |unfold SeriesKeyOffsetsSize, tbbb_vaaa; simpl; lia].
Defined.

(** ** Keys cut short *)

Lemma reslice_Ok_inv (s : slice) (lo hi : Z) (w : bytes) :
  reslice (Some s) lo hi = Ok w ->
  0 <= lo /\ lo <= hi /\ hi <= s_cap s
  /\ w = Some (Slice (s_ptr s) (s_off s + lo) (hi - lo) (s_cap s - lo)).
Proof.
  unfold reslice. cbn [cap].
  destruct ((0 <=? lo) && (lo <=? hi) && (hi <=? s_cap s)) eqn:E;
    [|discriminate].
  rewrite !andb_true_iff, !Z.leb_le in E. intros [= <-].
  repeat split; lia.
Qed.

Lemma reslice_beyond (b : bytes) (lo hi : Z) :
  lo < 0 \/ hi < lo \/ cap b < hi -> reslice b lo hi = Panic.
Proof.
  intros H. unfold reslice.
  destruct ((0 <=? lo) && (lo <=? hi) && (hi <=? cap b)) eqn:E;
    [|reflexivity].
  rewrite !andb_true_iff, !Z.leb_le in E. lia.
Qed.

(** A window inside its array shows some bytes. *)
Lemma contents_Ok (h : heap) (p : nat) (o n c : Z) (arr : list byte) :
  h !! p = Some arr ->
  0 <= o -> 0 <= n -> o + n <= Z.of_nat (length arr) ->
  exists x, contents h (Some (Slice p o n c)) = Ok x.
Proof.
  intros Hh Ho Hn Hlen. unfold contents. cbn [s_ptr s_off s_len].
  rewrite Hh. test_true. by eexists.
Qed.

(** The tag loop of the decoder on a container [byts] too short for the
    bytes of the tags still to be read: one of the field ranges is out of
    the capacity. *)
Lemma ParseSeriesKeyTags_loop_short (tags : Tags) :
  forall (h : heap) (p : nat) (o n c ob nb cb i opos bpos : Z)
         (arr lpre A post : list byte) (tarr : list Tag),
    h !! p = Some arr ->
    arr = lpre ++ A ++ tag_lengths tags ++ post ->
    Forall tag_fits tags ->
    Z.of_nat (length lpre + length A) = o + opos ->
    0 <= o -> 0 <= opos -> 0 <= ob -> 0 <= bpos ->
    opos + 4 * Z.of_nat (length tags) <= n -> n <= c ->
    ob + cb <= Z.of_nat (length arr) ->
    bpos <= cb ->
    cb < bpos + blen (tag_bytes tags) ->
    ParseSeriesKeyTags_loop h (Some (Slice p o n c)) (Some (Slice p ob nb cb))
      (length tags) i opos bpos tarr
    = Panic.
Proof.
  induction tags as [|t tags IH];
    intros h p o n c ob nb cb i opos bpos arr lpre A post tarr
           Hh Harr Hfit HA Ho Hopos Hob Hbpos Hn Hc Hlen Hin Hshort.
  - unfold blen in Hshort. cbn in Hshort. lia.
  - apply Forall_cons in Hfit as [[Hk Hv] Hfit].
    apply be16_uint16_fits in Hk as [Hku Hkr], Hv as [Hvu Hvr].
    rewrite tag_lengths_cons in Harr. rewrite Hku, Hvu in Harr.
    rewrite tag_bytes_cons in Hshort. unfold blen in Hshort, Hkr, Hvr.
    rewrite !length_app in Hshort.
    cbn [length] in Hn.
    cbn [ParseSeriesKeyTags_loop length].
    erewrite GetUint16_at
      with (l1 := lpre ++ A) (v := blen (Key t));
      [|first [exact Hh|subst arr; side]..].
    cbn [rbind].
    destruct (reslice (Some (Slice p ob nb cb)) bpos (bpos + blen (Key t)))
      as [w|] eqn:Ew; [|reflexivity].
    apply reslice_Ok_inv in Ew as (_ & Hk1 & Hk2 & ->).
    cbn [s_ptr s_off s_len s_cap rbind] in *.
    destruct (contents_Ok h p (ob + bpos) (bpos + blen (Key t) - bpos)
                (cb - bpos) arr Hh) as [key Hkey];
      [unfold blen in *; lia..|].
    rewrite Hkey. cbn [rbind].
    erewrite GetUint16_at
      with (l1 := lpre ++ A ++ be16 (blen (Key t)))
           (v := blen (Value t));
      [|first [exact Hh|subst arr; side]..].
    cbn [rbind].
    destruct (reslice (Some (Slice p ob nb cb)) (bpos + blen (Key t))
                (bpos + blen (Key t) + blen (Value t)))
      as [w|] eqn:Ew; [|reflexivity].
    apply reslice_Ok_inv in Ew as (_ & Hv1 & Hv2 & ->).
    cbn [s_ptr s_off s_len s_cap rbind] in *.
    destruct (contents_Ok h p (ob + (bpos + blen (Key t)))
                (bpos + blen (Key t) + blen (Value t) - (bpos + blen (Key t)))
                (cb - (bpos + blen (Key t))) arr Hh) as [val Hval];
      [unfold blen in *; lia..|].
    rewrite Hval. cbn [rbind].
    eapply IH
      with (lpre := lpre)
           (A := A ++ be16 (blen (Key t)) ++ be16 (blen (Value t)))
           (post := post);
      first [exact Hh|exact Hfit|exact Hlen
            |subst arr; list_eq
            |unfold blen in *;
             rewrite ?length_app, ?be16_length in *; cbn [length] in *; lia].
Qed.

(** The bytes of a slice that shows the first [n] bytes of a key. *)
Lemma truncated_array (h : heap) (p : nat) (o n : Z) (enc : list byte) :
  valid h (Some (Slice p o n n)) ->
  contents h (Some (Slice p o n n)) = Ok (take (Z.to_nat n) enc) ->
  n <= blen enc ->
  exists arr lpre spare,
    h !! p = Some arr
    /\ arr = lpre ++ take (Z.to_nat n) enc ++ spare
    /\ Z.of_nat (length lpre) = o /\ 0 <= o /\ 0 <= n
    /\ o + n <= Z.of_nat (length arr).
Proof.
  intros Hv Hc Hn.
  destruct (valid_contents _ _ Hv)
    as (arr & lpre & old & spare & Harr & -> & Hl & Hold & Hcap & Hc').
  cbn [s_ptr s_off s_len s_cap] in *.
  assert (old = take (Z.to_nat n) enc) by congruence. subst old.
  exists (lpre ++ take (Z.to_nat n) enc ++ spare), lpre, spare.
  rewrite !length_app.
  repeat split; [exact Harr|exact Hl|lia..].
Qed.

(** X18: a key cut short, in a buffer with no spare capacity, is not
    decoded to a wrong result: for an encodable name and tag set, on a
    buffer of length and capacity [n] that shows the first [n] bytes of the
    key, [n] less than the size of the key, [ParseSeriesKey] and
    [ParseSeriesKeyTags] panic. *)
Theorem ParseSeriesKey_truncated (name : list byte) (tags : Tags)
    (h : heap) (p : nat) (o n : Z) (enc : list byte) (tb : TagBuf) :
  valid h (Some (Slice p o n n)) ->
  contents h (Some (Slice p o n n)) = Ok (take (Z.to_nat n) enc) ->
  encodes name tags enc ->
  encodable name tags ->
  n < SeriesKeySize name tags ->
  ParseSeriesKey h (Some (Slice p o n n)) = Panic
  /\ ParseSeriesKeyTags h (Some (Slice p o n n)) tb = Panic.
Proof.
  intros Hv Hc He (Hname & Hfit & Hofs) Hn.
  apply encodes_unique in He. subst enc.
  pose proof (SeriesKeySize_layout name tags) as Hsz.
  destruct (truncated_array h p o n _ Hv Hc)
    as (arr & lpre & spare & Hh & Harr & Hl & Ho & Hn0 & Hlen);
    [unfold blen; lia|].
  clear Hv Hc.
  apply be16_uint16_fits in Hname as [Hnu Hnr].
  unfold key_layout in Harr, Hsz.
  rewrite Hnu, uint16_small in Harr by lia.
  rewrite !length_app, !be16_length, tag_lengths_length in Hsz.
  unfold key_payload in Harr, Hsz. rewrite length_app in Hsz.
  assert (Htl := tag_lengths_length tags).
  set (pls := be16 (uint16 (blen (name ++ tag_bytes tags)))) in *.
  assert (Hpls : length pls = 2%nat) by reflexivity.
  set (ofs := 2 + 4 * Z.of_nat (length tags)) in *.
  assert (Hofsl : length (be16 ofs) = 2%nat) by reflexivity.
  assert (Hnml : length (be16 (blen name)) = 2%nat) by reflexivity.
  assert (Hparse : forall tb',
             ParseSeriesKeyTags h (Some (Slice p o n n)) tb' = Panic);
    [|split; apply Hparse].
  intros tb'. unfold ParseSeriesKeyTags.
  destruct (Z.lt_ge_cases n 2) as [Hn2|Hn2].
  { rewrite (proj2 (Uint16_short h (Some (Slice p o n n)) 0 0
                      (or_intror Hn2))).
    reflexivity. }
  rewrite take_app_ge in Harr by lia.
  erewrite GetUint16_at with (l1 := lpre) (v := ofs);
    [|first [exact Hh|exact Harr|subst ofs; lia|lia]..].
  cbn [rbind].
  destruct (Z.lt_ge_cases n (ofs + 2 + 2)) as [Hn4|Hn4].
  { rewrite reslice_beyond by (cbn [len cap s_len s_cap]; lia).
    reflexivity. }
  rewrite Hofsl in Harr.
  rewrite (app_assoc (be16 (blen name))), (app_assoc _ pls) in Harr.
  rewrite take_app_ge in Harr
    by (rewrite !length_app; subst ofs; lia).
  rewrite !length_app, Hnml, Htl, Hpls in Harr.
  rewrite <- !app_assoc in Harr.
  unfold reslice at 1.
  cbn [len cap s_ptr s_off s_len s_cap]. test_true. cbn [rbind].
  erewrite GetUint16_at with (l1 := lpre ++ be16 ofs) (v := blen name);
    [|first [exact Hh|subst arr; side|subst ofs; lia]..].
  cbn [rbind].
  destruct (reslice (Some (Slice p (o + (ofs + 2 + 2)) (n - (ofs + 2 + 2))
                             (n - (ofs + 2 + 2)))) 0 (0 + blen name))
    as [w|] eqn:Ew; [|reflexivity].
  apply reslice_Ok_inv in Ew as (_ & Hw1 & Hw2 & ->).
  cbn [s_ptr s_off s_len s_cap rbind] in *.
  destruct (contents_Ok h p (o + (ofs + 2 + 2) + 0) (0 + blen name - 0)
              (n - (ofs + 2 + 2) - 0) arr Hh) as [nm Hnm];
    [unfold blen in *; lia..|].
  rewrite Hnm. cbn [rbind].
  replace (Z.quot (ofs - 2) 4) with (Z.of_nat (length tags))
    by (subst ofs; replace (2 + 4 * Z.of_nat (length tags) - 2)
          with (Z.of_nat (length tags) * 4) by lia;
        rewrite Z.quot_mul; lia).
  replace (0 <=? Z.of_nat (length tags)) with true
    by (symmetry; apply Z.leb_le; lia).
  assert (Hloop : forall tarr : list Tag,
             ParseSeriesKeyTags_loop h (Some (Slice p o n n))
               (Some (Slice p (o + (ofs + 2 + 2)) (n - (ofs + 2 + 2))
                            (n - (ofs + 2 + 2))))
               (Z.to_nat (Z.of_nat (length tags))) 0 (2 + 2)
               (0 + blen name) tarr
             = Panic).
  { intros tarr. rewrite Nat2Z.id.
    eapply ParseSeriesKeyTags_loop_short
      with (lpre := lpre) (A := be16 ofs ++ be16 (blen name));
      first [exact Hh|exact Hfit|subst arr; list_eq
            |unfold blen in *; subst ofs;
             rewrite ?length_app in *; cbn [length] in *; lia]. }
  destruct (tb_cap tb' <? Z.of_nat (length tags));
    cbn [rbind tb_arr tb_len]; rewrite Hloop; reflexivity.
Qed.

Lemma ParseSeriesKey_truncated_witness :
  let h : heap := [take 15 (key_layout aaa taaa_vaaa)] in
  let k := Slice 0 0 15 15 in
  valid h (Some k)
  /\ contents h (Some k) = Ok (take (Z.to_nat 15) (key_layout aaa taaa_vaaa))
  /\ encodable aaa taaa_vaaa
  /\ 15 < SeriesKeySize aaa taaa_vaaa
  /\ ParseSeriesKey h (Some k) = Panic
  /\ ParseSeriesKeyTags h (Some k) tb_nil = Panic.
Proof.
  intros h k.
  assert (Hv : valid h (Some k)).
  { exists (take 15 (key_layout aaa taaa_vaaa)). cbn. repeat split; lia. }
  assert (Hc : contents h (Some k)
               = Ok (take (Z.to_nat 15) (key_layout aaa taaa_vaaa)))
    by reflexivity.
  assert (Henc : encodable aaa taaa_vaaa).
  { unfold encodable, fits16, tag_fits, fits16, blen.
    split; [simpl; lia|]. split; [|simpl; lia].
    repeat constructor; simpl; lia. }
  assert (Hn : 15 < SeriesKeySize aaa taaa_vaaa) by (vm_compute; reflexivity).
  split; [exact Hv|]. split; [exact Hc|]. split; [exact Henc|].
  split; [exact Hn|].
  exact (ParseSeriesKey_truncated aaa taaa_vaaa h 0 0 15 _ tb_nil Hv Hc
           (encodes_layout aaa taaa_vaaa) Henc Hn).
Defined.

(** The comparator panics on a key of which it cannot read a size or take
    the payload range, on either side of a non-empty key. *)
Lemma CompareSeriesKeys_unreadable (h : heap) (k b : bytes) :
  len k <> 0 -> len b <> 0 ->
  (GetUint16 h k 0 = Panic
   \/ exists ofs,
        GetUint16 h k 0 = Ok ofs
        /\ (GetUint16 h k (ofs + 2) = Panic
            \/ exists sz,
                 GetUint16 h k (ofs + 2) = Ok sz
                 /\ reslice k (ofs + 2 + 2) (ofs + 2 + 2 + sz) = Panic)) ->
  CompareSeriesKeys h k b = Panic /\ CompareSeriesKeys h b k = Panic.
Proof.
  intros Hk Hb Hu. unfold CompareSeriesKeys.
  destruct (Z.eqb_spec (len k) 0) as [|_]; [contradiction|].
  destruct (Z.eqb_spec (len b) 0) as [|_]; [contradiction|].
  cbn [andb].
  destruct Hu as [H0 | (ofs & H0 & [H1 | (sz & H1 & H2)])].
  - rewrite H0. cbn [rbind]. split; [reflexivity|].
    destruct (GetUint16 h b 0); reflexivity.
  - rewrite H0. cbn [rbind].
    split; destruct (GetUint16 h b 0) as [ofsB|]; cbn [rbind];
      try reflexivity.
    + rewrite H1. reflexivity.
    + destruct (GetUint16 h b (ofsB + 2)); cbn [rbind]; [|reflexivity].
      rewrite H1. reflexivity.
  - rewrite H0. cbn [rbind].
    split; destruct (GetUint16 h b 0) as [ofsB|]; cbn [rbind];
      try reflexivity.
    + rewrite H1. cbn [rbind].
      destruct (GetUint16 h b (ofsB + 2)); cbn [rbind]; [|reflexivity].
      rewrite H2. reflexivity.
    + destruct (GetUint16 h b (ofsB + 2)) as [szB|]; cbn [rbind];
        [|reflexivity].
      rewrite H1. cbn [rbind].
      destruct (reslice b (ofsB + 2 + 2) (ofsB + 2 + 2 + szB)); cbn [rbind];
        [|reflexivity].
      rewrite H2. reflexivity.
Qed.

(** X19: the comparator does not compare a key cut short either: for a
    name and tag set of at most 16383 tags and a payload of at most 65535
    bytes, a non-empty buffer of length and capacity [n] that shows the
    first [n] bytes of the key, [n] less than the size of the key, makes
    [CompareSeriesKeys] panic on either side of any non-empty key.  (Cut to
    no byte at all it is the nil key, which compares without a read.) *)
Theorem CompareSeriesKeys_truncated (name : list byte) (tags : Tags)
    (h : heap) (p : nat) (o n : Z) (enc : list byte) (b : bytes) :
  valid h (Some (Slice p o n n)) ->
  contents h (Some (Slice p o n n)) = Ok (take (Z.to_nat n) enc) ->
  encodes name tags enc ->
  2 + 4 * Z.of_nat (length tags) <= 65535 ->
  blen (name ++ tag_bytes tags) <= 65535 ->
  0 < n < SeriesKeySize name tags ->
  len b <> 0 ->
  CompareSeriesKeys h (Some (Slice p o n n)) b = Panic
  /\ CompareSeriesKeys h b (Some (Slice p o n n)) = Panic.
Proof.
  intros Hv Hc He Hofs Hpl Hn Hb.
  apply encodes_unique in He. subst enc.
  pose proof (SeriesKeySize_layout name tags) as Hsz.
  destruct (truncated_array h p o n _ Hv Hc)
    as (arr & lpre & spare & Hh & Harr & Hl & Ho & Hn0 & Hlen);
    [unfold blen; lia|].
  clear Hv Hc.
  unfold key_layout in Harr, Hsz.
  rewrite (uint16_small (2 + _)) in Harr by lia.
  unfold key_payload in Harr, Hsz.
  rewrite (uint16_small (blen (name ++ _))) in Harr by (unfold blen in *; lia).
  rewrite !length_app, !be16_length, tag_lengths_length in Hsz.
  assert (Htl := tag_lengths_length tags).
  set (pl := name ++ tag_bytes tags) in *.
  assert (Hpll : length pl = (length name + length (tag_bytes tags))%nat)
    by apply length_app.
  set (ofs := 2 + 4 * Z.of_nat (length tags)) in *.
  set (nl := be16 (uint16 (blen name))) in *.
  assert (Hnl : length nl = 2%nat) by reflexivity.
  assert (Hofsl : length (be16 ofs) = 2%nat) by reflexivity.
  assert (Hszl : length (be16 (blen pl)) = 2%nat) by reflexivity.
  apply CompareSeriesKeys_unreadable; [cbn [len s_len]; lia|exact Hb|].
  destruct (Z.lt_ge_cases n 2) as [Hn2|Hn2].
  { left. apply (Uint16_short h _ 0 0). cbn [len s_len]. lia. }
  right. exists ofs.
  rewrite take_app_ge in Harr by lia.
  split.
  { eapply GetUint16_at with (l1 := lpre);
      [exact Hh|exact Harr|lia|subst ofs; lia|lia..]. }
  destruct (Z.lt_ge_cases n (ofs + 2 + 2)) as [Hn4|Hn4].
  { left. apply (Uint16_short h _ (ofs + 2) 0). cbn [len s_len]. lia. }
  right. exists (blen pl).
  rewrite Hofsl in Harr.
  rewrite (app_assoc nl), (app_assoc _ (be16 (blen pl))) in Harr.
  rewrite take_app_ge in Harr
    by (rewrite !length_app; subst ofs; lia).
  rewrite <- !app_assoc in Harr.
  split.
  - eapply GetUint16_at
      with (l1 := lpre ++ be16 ofs ++ nl ++ tag_lengths tags);
      [exact Hh|subst arr; list_eq
      |rewrite !length_app; subst ofs; lia
      |unfold blen in *; lia|subst ofs; lia..].
  - apply reslice_beyond. cbn [cap s_cap]. unfold blen in *. subst ofs. lia.
Qed.

Lemma CompareSeriesKeys_truncated_witness :
  let h : heap := [take 15 (key_layout aaa taaa_vaaa);
                   key_layout aaa tbbb_vaaa] in
  let k := Slice 0 0 15 15 in
  valid h (Some k)
  /\ contents h (Some k) = Ok (take (Z.to_nat 15) (key_layout aaa taaa_vaaa))
  /\ 0 < 15 < SeriesKeySize aaa taaa_vaaa
  /\ len second_key <> 0
  /\ CompareSeriesKeys h (Some k) second_key = Panic
  /\ CompareSeriesKeys h second_key (Some k) = Panic.
Proof.
  intros h k.
  assert (Hv : valid h (Some k)).
  { exists (take 15 (key_layout aaa taaa_vaaa)). cbn. repeat split; lia. }
  assert (Hc : contents h (Some k)
               = Ok (take (Z.to_nat 15) (key_layout aaa taaa_vaaa)))
    by reflexivity.
  assert (Hn : 0 < 15 < SeriesKeySize aaa taaa_vaaa)
    by (split; vm_compute; reflexivity).
  assert (Hb : len second_key <> 0) by (cbn; lia).
  split; [exact Hv|]. split; [exact Hc|]. split; [exact Hn|].
  split; [exact Hb|].
  apply (CompareSeriesKeys_truncated aaa taaa_vaaa h 0 0 15 _ second_key
           Hv Hc (encodes_layout aaa taaa_vaaa));
    [simpl; lia|unfold blen; simpl; lia|exact Hn|exact Hb].
Defined.

(** ** The tag count and the decoder *)

(** The tag loop writes into the entries of its slice and keeps their
    number. *)
Lemma ParseSeriesKeyTags_loop_length (n : nat) :
  forall (h : heap) (data byts : bytes) (i opos bpos : Z)
         (arr arr' : list Tag),
    ParseSeriesKeyTags_loop h data byts n i opos bpos arr = Ok arr' ->
    length arr' = length arr.
Proof.
  induction n as [|n IH]; intros h data byts i opos bpos arr arr' H.
  - injection H as <-. reflexivity.
  - cbn [ParseSeriesKeyTags_loop] in H.
    repeat match type of H with
           | rbind ?r _ = Ok _ =>
               destruct r eqn:?; cbn [rbind] in H; [|discriminate]
           end.
    apply IH in H. by rewrite length_insert in H.
Qed.

(** X20: [GetSeriesKeyTagN] counts what the decoder returns, on any
    buffer, encoded by [AppendSeriesKey] or not: whenever
    [ParseSeriesKeyTags] returns a name and tags for [data], with any tag
    slice to fill, [GetSeriesKeyTagN(data)] returns the number of those
    tags. *)
Theorem GetSeriesKeyTagN_counts_decoded (h : heap) (data : bytes)
    (tb : TagBuf) (name : list byte) (tags : Tags) :
  ParseSeriesKeyTags h data tb = Ok (name, tags) ->
  GetSeriesKeyTagN h data = Ok (Z.of_nat (length tags)).
Proof.
  unfold ParseSeriesKeyTags, GetSeriesKeyTagN. intros H.
  destruct (GetUint16 h data 0) as [ofsN|] eqn:E0; cbn [rbind] in *;
    [|discriminate].
  set (tagN := Z.quot (ofsN - 2) 4) in *.
  destruct (reslice data (ofsN + 2 + 2) (len data)) as [byts|];
    cbn [rbind] in H; [|discriminate].
  destruct (GetUint16 h data 2) as [vlen|]; cbn [rbind] in H; [|discriminate].
  destruct (reslice byts 0 (0 + vlen)) as [w|];
    cbn [rbind] in H; [|discriminate].
  destruct (contents h w) as [nm|]; cbn [rbind] in H; [|discriminate].
  assert (Hbuf : forall t : TagBuf,
             0 <= tb_len t /\ tb_len t = tagN
             /\ tagN <= Z.of_nat (length (tb_arr t)) ->
             rbind (ParseSeriesKeyTags_loop h data byts
                      (Z.to_nat (tb_len t)) 0 (2 + 2) (0 + vlen) (tb_arr t))
                   (fun arr => Ok (nm, take (Z.to_nat (tb_len t)) arr))
             = Ok (name, tags) ->
             Ok tagN = Ok (Z.of_nat (length tags))).
  { intros t (Hlen & Heq & Hcap) Hl.
    destruct (ParseSeriesKeyTags_loop h data byts (Z.to_nat (tb_len t)) 0
                (2 + 2) (0 + vlen) (tb_arr t)) as [arr|] eqn:El;
      cbn [rbind] in Hl; [|discriminate].
    apply ParseSeriesKeyTags_loop_length in El.
    injection Hl as _ <-. rewrite length_take. f_equal. lia. }
  destruct (Z.ltb_spec (tb_cap tb) tagN) as [Hc|Hc];
    destruct (Z.leb_spec 0 tagN) as [H0|H0]; cbn [rbind] in H;
    try discriminate.
  - eapply Hbuf; [|exact H].
    cbn [tb_len tb_arr]. rewrite length_replicate. lia.
  - eapply Hbuf; [|exact H].
    cbn [tb_len tb_arr]. unfold tb_cap in Hc. lia.
Qed.

Lemma GetSeriesKeyTagN_counts_decoded_witness :
  ParseSeriesKeyTags two_keys first_key tb_nil = Ok (aaa, taaa_vaaa)
  /\ GetSeriesKeyTagN two_keys first_key
     = Ok (Z.of_nat (length taaa_vaaa)).
Proof.
  assert (H : ParseSeriesKeyTags two_keys first_key tb_nil
              = Ok (aaa, taaa_vaaa)) by reflexivity.
  split; [exact H|].
  exact (GetSeriesKeyTagN_counts_decoded two_keys first_key tb_nil
           aaa taaa_vaaa H).
Defined.
